(** * jfor_semicolons: a line-oriented FOR-loop interpreter

    Shallow embedding of [jfor_semicolons.py] (class [JFOR]) and proofs about
    its block matcher, its statement executor and its three loop forms.

    - Program text is a list of lines; a line is a [string] whose characters
      are read as the code points U+0000..U+00FF.  The six patterns of the
      source are kept as syntax trees and run by a backtracking matcher with
      capture groups that tries alternatives in the order of the host's [re]
      module.
    - The host's [eval] is a parameter [_eval]: it takes an expression text
      and the state and gives a value or an exception; it may change the
      environment and the output.
    - Host values are [None], booleans, integers, strings and lists, with the
      host's [==], ordering, [+], truth value and iteration on them; floating
      point numbers and mutable objects are left out.
    - The [while] loops of the source are recursive functions on an amount of
      fuel; [evaluates] says that some amount of fuel is enough for a result,
      and more fuel never changes a result.
    - The loop protocols, the depth counter and the header forms of the
      specification are written a second time, as relations ([foreach_spec],
      [pretest_spec], [matching_end]) and as shapes of text ([header_form],
      [terminator_form]), and the functions and patterns of the source are
      proved to realise them. *)

From Stdlib Require Import ZArith String Ascii List Lia.
From stdpp Require Import base option list gmap strings pretty.

Open Scope string_scope.
Open Scope list_scope.
Open Scope Z_scope.

(** ** Characters and the host's string helpers *)

Module PyStr.

Definition code (a : ascii) : nat := nat_of_ascii a.

Definition in_range (lo hi : nat) (a : ascii) : bool :=
  (Nat.leb lo (code a)) && (Nat.leb (code a) hi).

(** [str.isspace] on one character, which is also the class [\s]. *)
Definition is_space (a : ascii) : bool :=
  in_range 9 13 a || in_range 28 32 a
  || Nat.eqb (code a) 133 || Nat.eqb (code a) 160.

Definition is_upper (a : ascii) : bool := in_range 65 90 a.
Definition is_lower (a : ascii) : bool := in_range 97 122 a.
Definition is_digit (a : ascii) : bool := in_range 48 57 a.
Definition is_underscore (a : ascii) : bool := Nat.eqb (code a) 95.

(** The class [[A-Za-z_]]. *)
Definition is_ident_start (a : ascii) : bool :=
  is_upper a || is_lower a || is_underscore a.

(** Alphanumeric code points above U+007F. *)
Definition is_high_alnum (a : ascii) : bool :=
  Nat.eqb (code a) 170 || in_range 178 179 a || Nat.eqb (code a) 181
  || in_range 185 186 a || in_range 188 190 a
  || in_range 192 214 a || in_range 216 246 a || in_range 248 255 a.

(** The class [\w]. *)
Definition is_word (a : ascii) : bool :=
  is_ident_start a || is_digit a || is_high_alnum a.

(** The class [.] (no DOTALL flag). *)
Definition is_dot (a : ascii) : bool := negb (Nat.eqb (code a) 10).

Definition to_lower (a : ascii) : ascii :=
  if is_upper a then ascii_of_nat (code a + 32) else a.

(** Comparison of a pattern character with a text character. *)
Definition char_eqb (icase : bool) (p x : ascii) : bool :=
  if icase then Ascii.eqb (to_lower p) (to_lower x) else Ascii.eqb p x.

Fixpoint lstrip_l (s : list ascii) : list ascii :=
  match s with
  | a :: s' => if is_space a then lstrip_l s' else s
  | [] => []
  end.

Definition rstrip_l (s : list ascii) : list ascii :=
  rev (lstrip_l (rev s)).

Definition lstrip (s : string) : string :=
  string_of_list_ascii (lstrip_l (list_ascii_of_string s)).
Definition rstrip (s : string) : string :=
  string_of_list_ascii (rstrip_l (list_ascii_of_string s)).
Definition strip (s : string) : string := lstrip (rstrip s).

Definition startswith (s p : string) : bool := String.prefix p s.

(** Truth value of a string: non-empty. *)
Definition nonempty (s : string) : bool :=
  match s with EmptyString => false | _ => true end.

(** Line boundaries of [str.splitlines]. *)
Definition is_linebreak (a : ascii) : bool :=
  in_range 10 13 a || in_range 28 30 a || Nat.eqb (code a) 133.

(** [cur] is the current line, reversed. *)
Fixpoint splitlines_l (s : list ascii) (cur : list ascii) : list (list ascii) :=
  match s with
  | [] => match cur with [] => [] | _ => [rev cur] end
  | a :: s' =>
      if is_linebreak a then
        match s' with
        | b :: s'' =>
            if Nat.eqb (code a) 13 && Nat.eqb (code b) 10
            then rev cur :: splitlines_l s'' []
            else rev cur :: splitlines_l s' []
        | [] => rev cur :: splitlines_l s' []
        end
      else splitlines_l s' (a :: cur)
  end.

Definition splitlines (s : string) : list string :=
  map string_of_list_ascii (splitlines_l (list_ascii_of_string s) []).

End PyStr.

(** ** Regular expressions *)

Module Re.
Import PyStr.

Inductive regex : Type :=
| Eps                                        (* the empty pattern *)
| Bos                                        (* ^ *)
| Eos                                        (* $ *)
| Lit (c : ascii)                            (* one literal character *)
| Cls (p : ascii -> bool)                    (* one character of a class *)
| Star (greedy : bool) (p : ascii -> bool)   (* p*  or p*? *)
| Plus (greedy : bool) (p : ascii -> bool)   (* p+  or p+? *)
| Seq (r1 r2 : regex)
| Grp (n : nat) (r : regex)                  (* capturing group number n *)
| Opt (r : regex).                           (* (?:r)? *)

(** Captures: group number to matched text, [None] for a group that took
    no part in the match. *)
Definition caps := list (option string).

Definition set_cap (n : nat) (t : list ascii) (c : caps) : caps :=
  <[n := Some (string_of_list_ascii t)]> c.

Definition cont := nat -> list ascii -> caps -> option caps.

Definition or_else (a b : option caps) : option caps :=
  match a with Some c => Some c | None => b end.

(** [p*] against [s]: the greedy form takes the longest run first and gives
    characters back one by one; the lazy form takes the shortest first. *)
Fixpoint star (greedy : bool) (p : ascii -> bool) (pos : nat)
    (s : list ascii) (c : caps) (k : cont) : option caps :=
  match s with
  | x :: s' =>
      if p x then
        if greedy
        then or_else (star greedy p (S pos) s' c k) (k pos s c)
        else or_else (k pos s c) (star greedy p (S pos) s' c k)
      else k pos s c
  | [] => k pos s c
  end.

(** Backtracking matcher in continuation style; [pos] is the number of
    characters consumed so far and [s] the rest of the text. *)
Fixpoint rmatch (icase : bool) (r : regex) (pos : nat) (s : list ascii)
    (c : caps) (k : cont) : option caps :=
  match r with
  | Eps => k pos s c
  | Bos => if Nat.eqb pos 0 then k pos s c else None
  | Eos =>
      match s with
      | [] => k pos s c
      | [x] => if Nat.eqb (code x) 10 then k pos s c else None
      | _ => None
      end
  | Lit a =>
      match s with
      | x :: s' => if char_eqb icase a x then k (S pos) s' c else None
      | [] => None
      end
  | Cls p =>
      match s with
      | x :: s' => if p x then k (S pos) s' c else None
      | [] => None
      end
  | Star g p => star g p pos s c k
  | Plus g p =>
      match s with
      | x :: s' => if p x then star g p (S pos) s' c k else None
      | [] => None
      end
  | Seq r1 r2 =>
      rmatch icase r1 pos s c (fun pos' s' c' => rmatch icase r2 pos' s' c' k)
  | Grp n r =>
      rmatch icase r pos s c
        (fun pos' s' c' => k pos' s' (set_cap n (take (pos' - pos) s) c'))
  | Opt r => or_else (rmatch icase r pos s c k) (k pos s c)
  end.

Definition cat (rs : list regex) : regex :=
  fold_right Seq Eps rs.

Definition lit (w : string) : regex :=
  cat (map Lit (list_ascii_of_string w)).

(** [pattern.match(text)] for a pattern with [ngroups] groups; the result
    lists group 0 .. ngroups. *)
Definition pmatch (icase : bool) (ngroups : nat) (r : regex) (text : string)
  : option caps :=
  rmatch icase r 0 (list_ascii_of_string text)
    (replicate (S ngroups) None) (fun _ _ c => Some c).

Definition group (c : caps) (n : nat) : option string :=
  match c !! n with Some g => g | None => None end.

(** A group that always takes part in a successful match. *)
Definition group_str (c : caps) (n : nat) : string :=
  match group c n with Some g => g | None => "" end.

Definition ws_star : regex := Star true is_space.
Definition ws_plus : regex := Plus true is_space.
Definition ident : regex := Seq (Cls is_ident_start) (Star true is_word).

End Re.

(** ** The six patterns of the source *)

Import PyStr Re.

(** Pattern, its tokens spaced out:
    [^ \s* for \s+ ( [A-Za-z_] \w* ) \s* = \s* ( .+? ) \s+ to \s+ ( .+? )
     (?: \s+ by \s+ ( .+? ) )? \s+ do \s* $], flag re.I. *)
Definition rx_for_counter : regex :=
  cat [Bos; ws_star; lit "for"; ws_plus; Grp 1 ident; ws_star; Lit "=";
       ws_star; Grp 2 (Plus false is_dot); ws_plus; lit "to"; ws_plus;
       Grp 3 (Plus false is_dot);
       Opt (cat [ws_plus; lit "by"; ws_plus; Grp 4 (Plus false is_dot)]);
       ws_plus; lit "do"; ws_star; Eos].

(** [^ \s* for \s+ ( [A-Za-z_] \w* ) \s+ in \s+ ( .+? ) \s+ do \s* $], flag re.I. *)
Definition rx_for_iter : regex :=
  cat [Bos; ws_star; lit "for"; ws_plus; Grp 1 ident; ws_plus; lit "in";
       ws_plus; Grp 2 (Plus false is_dot); ws_plus; lit "do"; ws_star; Eos].

(** [^ \s* for \s* \( \s* ( .*? ) \s* ; \s* ( .*? ) \s* ; \s* ( .*? ) \s* \)
     \s+ do \s* $], flag re.I. *)
Definition rx_for_cstyle : regex :=
  cat [Bos; ws_star; lit "for"; ws_star; Lit "("; ws_star;
       Grp 1 (Star false is_dot); ws_star; Lit ";"; ws_star;
       Grp 2 (Star false is_dot); ws_star; Lit ";"; ws_star;
       Grp 3 (Star false is_dot); ws_star; Lit ")"; ws_plus; lit "do";
       ws_star; Eos].

(** [^ \s* end \s* $], flag re.I. *)
Definition rx_end : regex := cat [Bos; ws_star; lit "end"; ws_star; Eos].

(** [^ \s* print \s+ ( .+ ) \s* $], flag re.I. *)
Definition rx_print : regex :=
  cat [Bos; ws_star; lit "print"; ws_plus; Grp 1 (Plus true is_dot);
       ws_star; Eos].

(** [^ \s* ( [A-Za-z_] \w* ) \s* = \s* ( .+ ) \s* $], no flag. *)
Definition rx_assign : regex :=
  cat [Bos; ws_star; Grp 1 ident; ws_star; Lit "="; ws_star;
       Grp 2 (Plus true is_dot); ws_star; Eos].

(** [RX_FOR_COUNTER.match(line)] with [m.groups()]. *)
Definition RX_FOR_COUNTER (line : string)
  : option (string * string * string * option string) :=
  match pmatch true 4 rx_for_counter line with
  | Some c => Some (group_str c 1, group_str c 2, group_str c 3, group c 4)
  | None => None
  end.

Definition RX_FOR_ITER (line : string) : option (string * string) :=
  match pmatch true 2 rx_for_iter line with
  | Some c => Some (group_str c 1, group_str c 2)
  | None => None
  end.

Definition RX_FOR_CSTYLE (line : string) : option (string * string * string) :=
  match pmatch true 3 rx_for_cstyle line with
  | Some c => Some (group_str c 1, group_str c 2, group_str c 3)
  | None => None
  end.

Definition RX_END (line : string) : bool :=
  match pmatch true 0 rx_end line with Some _ => true | None => false end.

Definition RX_PRINT (line : string) : option string :=
  match pmatch true 1 rx_print line with
  | Some c => Some (group_str c 1)
  | None => None
  end.

Definition RX_ASSIGN (line : string) : option (string * string) :=
  match pmatch false 2 rx_assign line with
  | Some c => Some (group_str c 1, group_str c 2)
  | None => None
  end.

(** ** Host values

    The fragment of the host's value system that the interpreter itself
    touches: [None], booleans, integers, strings and lists.  Values are
    immutable data. *)

#[warnings="-register-all"] Inductive value : Type :=
| VNone
| VBool (b : bool)
| VInt (z : Z)
| VStr (s : string)
| VList (l : list value).

Inductive exn : Type :=
| SyntaxError (msg : string)
| ValueError (msg : string)
| TypeError                        (* raised by a host operation; text not kept *)
| OtherError (cls msg : string).   (* any other exception of the evaluator *)

Module Host.

(** Booleans are integers for the host's arithmetic and comparisons. *)
Definition py_num (v : value) : option Z :=
  match v with
  | VInt z => Some z
  | VBool b => Some (if b then 1 else 0)
  | _ => None
  end.

(** [v == w] *)
Fixpoint py_eq (v w : value) {struct v} : bool :=
  match v, w with
  | VNone, VNone => true
  | VStr a, VStr b => String.eqb a b
  | VList a, VList b =>
      (fix eq_list (a b : list value) {struct a} : bool :=
         match a, b with
         | [], [] => true
         | x :: a', y :: b' => py_eq x y && eq_list a' b'
         | _, _ => false
         end) a b
  | _, _ =>
      match py_num v, py_num w with
      | Some a, Some b => Z.eqb a b
      | _, _ => false
      end
  end.

(** Three-way comparison behind [<], [<=], [>], [>=]; [None] is the host's
    TypeError for operands that have no order. *)
Fixpoint py_compare (v w : value) {struct v} : option comparison :=
  match v, w with
  | VStr a, VStr b => Some (String.compare a b)
  | VList a, VList b =>
      (fix cmp_list (a b : list value) {struct a} : option comparison :=
         match a, b with
         | [], [] => Some Eq
         | [], _ :: _ => Some Lt
         | _ :: _, [] => Some Gt
         | x :: a', y :: b' =>
             if py_eq x y then cmp_list a' b' else py_compare x y
         end) a b
  | _, _ =>
      match py_num v, py_num w with
      | Some a, Some b => Some (Z.compare a b)
      | _, _ => None
      end
  end.

Definition py_le (v w : value) : option bool :=
  match py_compare v w with
  | Some Gt => Some false
  | Some _ => Some true
  | None => None
  end.

Definition py_ge (v w : value) : option bool :=
  match py_compare v w with
  | Some Lt => Some false
  | Some _ => Some true
  | None => None
  end.

Definition py_gt (v w : value) : option bool :=
  match py_compare v w with
  | Some Gt => Some true
  | Some _ => Some false
  | None => None
  end.

(** [v + w], as used by [n += step]. *)
Definition py_add (v w : value) : option value :=
  match v, w with
  | VStr a, VStr b => Some (VStr (a ++ b))
  | VList a, VList b => Some (VList (a ++ b))
  | _, _ =>
      match py_num v, py_num w with
      | Some a, Some b => Some (VInt (a + b))
      | _, _ => None
      end
  end.

(** [bool(v)] *)
Definition py_bool (v : value) : bool :=
  match v with
  | VNone => false
  | VBool b => b
  | VInt z => negb (Z.eqb z 0)
  | VStr s => PyStr.nonempty s
  | VList l => match l with [] => false | _ => true end
  end.

(** The elements [for v in it] goes through; [None] is the host's TypeError
    for a value that is not iterable. *)
Definition py_iter (v : value) : option (list value) :=
  match v with
  | VList l => Some l
  | VStr s => Some (map (fun a => VStr (String a EmptyString)) (list_ascii_of_string s))
  | _ => None
  end.

End Host.

Import Host.

(** ** Interpreter state and the monad of the interpreter

    [env] is [self.env]; [out] is what [print] has written so far, one entry
    per call. *)

Record state : Type := mkState { env : gmap string value; out : list value }.

Inductive result (A : Type) : Type :=
| Done (a : A) (st : state)
| Raise (e : exn) (st : state)
| OutOfFuel.
Arguments Done {A} a st.
Arguments Raise {A} e st.
Arguments OutOfFuel {A}.

Definition M (A : Type) : Type := state -> result A.

Definition ret {A} (a : A) : M A := fun st => Done a st.
Definition raise {A} (e : exn) : M A := fun st => Raise e st.
Definition out_of_fuel {A} : M A := fun _ => OutOfFuel.

Definition bind {A B} (m : M A) (k : A -> M B) : M B :=
  fun st =>
    match m st with
    | Done a st' => k a st'
    | Raise e st' => Raise e st'
    | OutOfFuel => OutOfFuel
    end.

#[export] Instance M_ret : MRet M := @ret.
#[export] Instance M_bind : MBind M := fun A B k m => bind m k.

(** A host operation that raises TypeError. *)
Definition host {A} (o : option A) : M A :=
  match o with Some a => ret a | None => raise TypeError end.

(** [self.env[name] = v] *)
Definition set_env (name : string) (v : value) : M unit :=
  fun st => Done tt (mkState (<[name := v]> (env st)) (out st)).

(** [print(val)] *)
Definition print (v : value) : M unit :=
  fun st => Done tt (mkState (env st) (out st ++ [v])).

(** Run [body] for each element in order, stopping at the first exception. *)
Fixpoint for_each {A} (body : A -> M unit) (l : list A) : M unit :=
  match l with
  | [] => ret tt
  | x :: l' => body x ;; for_each body l'
  end.

(** ** The block matcher: [JFOR._collect_block] *)

(** Truth value of a match object. *)
Definition matched {A} (m : option A) : bool :=
  match m with Some _ => true | None => false end.

Definition is_header (line : string) : bool :=
  matched (RX_FOR_COUNTER line) || matched (RX_FOR_ITER line)
  || matched (RX_FOR_CSTYLE line).

(** The [while i < len(lines)] loop; [rest] is [lines[i:]]. [None] stands for
    reaching the end of the text. *)
Fixpoint collect_scan (rest : list string) (i : nat) (block : list string)
    (depth : Z) : option (list string * nat) :=
  match rest with
  | [] => None
  | l :: rest' =>
      let depth := if is_header l then depth + 1 else depth in
      if RX_END l then
        let depth := depth - 1 in
        if depth =? 0 then Some (block, (i + 1)%nat)
        else collect_scan rest' (i + 1)%nat (block ++ [l]) depth
      else collect_scan rest' (i + 1)%nat (block ++ [l]) depth
  end.

Definition collect_block (lines : list string) (i : nat)
  : M (list string * nat) :=
  match collect_scan (drop i lines) i [] 1 with
  | Some r => ret r
  | None => raise (SyntaxError "missing 'end'")
  end.

(** ** The statement executor and the loop executors *)

(** A clause of the C-style header after [do_assign]. *)
Inductive clause : Type :=
| CExpr (s : string)                (* ("expr", s) *)
| CAssign (name rhs : string).      (* ("assign", name, rhs) *)

Definition do_assign (s : string) : option clause :=
  let s := strip s in
  if negb (nonempty s) then None
  else match RX_ASSIGN s with
       | None => Some (CExpr s)
       | Some (name, rhs) => Some (CAssign name rhs)
       end.

(** [f"Unrecognized line {i+1}: {line}"] *)
Definition unrecognized_msg (i : nat) (line : string) : string :=
  "Unrecognized line " +:+ pretty (i + 1)%nat +:+ ": " +:+ line.

(** The test [not line.strip() or line.lstrip().startswith("#")]. *)
Definition blank_or_comment (line : string) : bool :=
  negb (nonempty (strip line)) || startswith (lstrip line) "#".

(** The kinds of line, in the order in which [_exec_lines] tries them. *)
Inductive line_kind : Type :=
| KBlank
| KCounter (var start_s end_s : string) (step_s : option string)
| KIter (var expr : string)
| KCStyle (init_s cond_s step_s : string)
| KEnd
| KPrint (expr : string)
| KAssign (name rhs : string)
| KUnrecognized.

Definition classify (line : string) : line_kind :=
  if blank_or_comment line then KBlank
  else match RX_FOR_COUNTER line with
  | Some (var, start_s, end_s, step_s) => KCounter var start_s end_s step_s
  | None =>
  match RX_FOR_ITER line with
  | Some (var, expr) => KIter var expr
  | None =>
  match RX_FOR_CSTYLE line with
  | Some (init_s, cond_s, step_s) => KCStyle init_s cond_s step_s
  | None =>
  if RX_END line then KEnd
  else match RX_PRINT line with
  | Some e => KPrint e
  | None =>
  match RX_ASSIGN line with
  | Some (name, rhs) => KAssign name rhs
  | None => KUnrecognized
  end end end end end.

Section Interp.

(** [JFOR._eval]: the host's [eval] on an expression text. *)
Variable _eval : string -> M value.

(** The init or step clause of a C-style loop, when it is run. *)
Definition run_clause (c : option clause) : M unit :=
  match c with
  | None => mret tt
  | Some (CAssign name rhs) => v ← _eval rhs; set_env name v
  | Some (CExpr s) => _ ← _eval s; mret tt
  end.

(** [self._eval(step_s) if step_s else 1] *)
Definition eval_step (step_s : option string) : M value :=
  match step_s with
  | Some s => if nonempty s then _eval s else mret (VInt 1)
  | None => mret (VInt 1)
  end.

(** [ok] of the C-style loop: [True] for the empty condition text, else
    [bool(self._eval(cond))]. *)
Definition eval_cond (cond : string) : M bool :=
  if negb (nonempty cond) then mret true
  else v ← _eval cond; mret (py_bool v).

(** [exec_lines] is [JFOR._exec_lines]; [counter_up], [counter_down] and
    [cstyle_loop] are its three inner [while] loops; [drive] is the loop
    shared by [_run_block] and [run], so that [self._run_block(block)] is
    [drive fuel block 0].  Every call and every loop iteration
    uses one unit of [fuel]. *)
Fixpoint exec_lines (fuel : nat) (lines : list string) (i : nat)
    {struct fuel} : M nat :=
  match fuel with
  | O => out_of_fuel
  | S fuel =>
    match lines !! i with
    | None => mret i
    | Some raw =>
      let line := rstrip raw in
      if blank_or_comment line then exec_lines fuel lines (i + 1)%nat
      else
      match RX_FOR_COUNTER line with
      | Some (var, start_s, end_s, step_s) =>
          start ← _eval start_s;
          end_ ← _eval end_s;
          step ← eval_step step_s;
          if py_eq step (VInt 0)
          then raise (ValueError "by step cannot be 0")
          else
            '(block, i') ← collect_block lines (i + 1)%nat;
            up ← host (py_gt step (VInt 0));
            (if up : bool
             then counter_up fuel var block start end_ step
             else counter_down fuel var block start end_ step);;
            exec_lines fuel lines i'
      | None =>
      match RX_FOR_ITER line with
      | Some (var, expr) =>
          it ← _eval expr;
          '(block, i') ← collect_block lines (i + 1)%nat;
          items ← host (py_iter it);
          for_each (fun v => set_env var v;; drive fuel block 0%nat) items;;
          exec_lines fuel lines i'
      | None =>
      match RX_FOR_CSTYLE line with
      | Some (init_s, cond_s, step_s) =>
          let init := do_assign init_s in
          let step := do_assign step_s in
          let cond := strip cond_s in
          '(block, i') ← collect_block lines (i + 1)%nat;
          run_clause init;;
          cstyle_loop fuel cond step block;;
          exec_lines fuel lines i'
      | None =>
      if RX_END line then mret i
      else
      match RX_PRINT line with
      | Some e =>
          val ← _eval e;
          print val;;
          exec_lines fuel lines (i + 1)%nat
      | None =>
      match RX_ASSIGN line with
      | Some (name, rhs) =>
          v ← _eval rhs;
          set_env name v;;
          exec_lines fuel lines (i + 1)%nat
      | None => raise (SyntaxError (unrecognized_msg i line))
      end end end end end
    end
  end

(** [n = start; while n <= end: env[var] = n; run_block(block); n += step] *)
with counter_up (fuel : nat) (var : string) (block : list string)
    (n end_ step : value) {struct fuel} : M unit :=
  match fuel with
  | O => out_of_fuel
  | S fuel =>
      go ← host (py_le n end_);
      if go : bool then
        set_env var n;;
        drive fuel block 0%nat;;
        n' ← host (py_add n step);
        counter_up fuel var block n' end_ step
      else mret tt
  end

(** [n = start; while n >= end: env[var] = n; run_block(block); n += step] *)
with counter_down (fuel : nat) (var : string) (block : list string)
    (n end_ step : value) {struct fuel} : M unit :=
  match fuel with
  | O => out_of_fuel
  | S fuel =>
      go ← host (py_ge n end_);
      if go : bool then
        set_env var n;;
        drive fuel block 0%nat;;
        n' ← host (py_add n step);
        counter_down fuel var block n' end_ step
      else mret tt
  end

(** [while True: ok = ...; if not ok: break; run_block(block); step] *)
with cstyle_loop (fuel : nat) (cond : string) (step : option clause)
    (block : list string) {struct fuel} : M unit :=
  match fuel with
  | O => out_of_fuel
  | S fuel =>
      ok ← eval_cond cond;
      if ok : bool then
        drive fuel block 0%nat;;
        run_clause step;;
        cstyle_loop fuel cond step block
      else mret tt
  end

(** [while j < len(lines): j = self._exec_lines(lines, j) + 1] *)
with drive (fuel : nat) (lines : list string) (j : nat) {struct fuel} : M unit :=
  match fuel with
  | O => out_of_fuel
  | S fuel =>
      if (j <? length lines)%nat then
        j' ← exec_lines fuel lines j;
        drive fuel lines (j' + 1)%nat
      else mret tt
  end.

(** [JFOR._run_block] *)
Definition run_block (fuel : nat) (block_lines : list string) : M unit :=
  drive fuel block_lines 0%nat.

(** [JFOR.run] on a text already split into lines. *)
Definition run_lines (fuel : nat) (lines : list string) : M unit :=
  drive fuel lines 0%nat.

(** [JFOR.run] *)
Definition run (fuel : nat) (src : string) : M unit :=
  run_lines fuel (splitlines src).

End Interp.

(** The state of a fresh [JFOR()]. *)
Definition init_state : state := mkState ∅ [].

(** ** A small evaluator for the worked examples

    [demo_eval] evaluates decimal literals (with an optional minus sign),
    [True], [False], [None], names bound in the environment, and [a op b]
    for such atoms [a], [b] and [op] among [+ - < >], the tokens separated
    by blanks, as the host's [eval] does on these texts; a name that
    is not bound raises NameError, as it does in the host for a name that
    is no builtin.  It never changes the state.  Any other text raises. *)

Module Demo.

Fixpoint split_blank (s : list ascii) (cur : list ascii) : list (list ascii) :=
  match s with
  | [] => match cur with [] => [] | _ => [rev cur] end
  | a :: s' =>
      if Nat.eqb (PyStr.code a) 32
      then match cur with
           | [] => split_blank s' []
           | _ => rev cur :: split_blank s' []
           end
      else split_blank s' (a :: cur)
  end.

Definition digit_val (a : ascii) : Z := Z.of_nat (PyStr.code a) - 48.

(** A decimal literal: digits, with no leading zero unless all are zero. *)
Definition parse_nat (t : list ascii) : option Z :=
  match t with
  | [] => None
  | a :: _ =>
      if forallb PyStr.is_digit t
         && (negb (Nat.eqb (PyStr.code a) 48)
             || forallb (fun x => Nat.eqb (PyStr.code x) 48) t)
      then Some (fold_left (fun acc a => 10 * acc + digit_val a) t 0)
      else None
  end.

Definition parse_int (t : list ascii) : option Z :=
  match t with
  | a :: t' =>
      if Nat.eqb (PyStr.code a) 45 then Z.opp <$> parse_nat t' else parse_nat t
  | [] => None
  end.

(** The host's keywords, which are no names. *)
Definition reserved : list string :=
  ["and"; "as"; "assert"; "async"; "await"; "break"; "class"; "continue";
   "def"; "del"; "elif"; "else"; "except"; "finally"; "for"; "from";
   "global"; "if"; "import"; "in"; "is"; "lambda"; "nonlocal"; "not"; "or";
   "pass"; "raise"; "return"; "try"; "while"; "with"; "yield"].

Definition is_name (t : list ascii) : bool :=
  match t with
  | a :: t' =>
      PyStr.is_ident_start a && forallb PyStr.is_word t'
      && negb (existsb (String.eqb (string_of_list_ascii t)) reserved)
  | [] => false
  end.

Definition keyword (t : string) : option value :=
  match t with
  | "True" => Some (VBool true)
  | "False" => Some (VBool false)
  | "None" => Some VNone
  | _ => None
  end.

Definition atom (t : list ascii) : M value :=
  fun st =>
    match parse_int t with
    | Some z => Done (VInt z) st
    | None =>
        match keyword (string_of_list_ascii t) with
        | Some v => Done v st
        | None =>
        if is_name t then
          match env st !! string_of_list_ascii t with
          | Some v => Done v st
          | None => Raise (OtherError "NameError" (string_of_list_ascii t)) st
          end
        else Raise (OtherError "Unsupported" (string_of_list_ascii t)) st
        end
    end.

Definition binop (op : list ascii) (a b : value) : M value :=
  match string_of_list_ascii op with
  | "+" => host (py_add a b)
  | "-" => match py_num a, py_num b with
           | Some x, Some y => mret (VInt (x - y))
           | _, _ => raise TypeError
           end
  | "<" => c ← host (py_gt b a); mret (VBool c)
  | ">" => c ← host (py_gt a b); mret (VBool c)
  | _ => raise (OtherError "Unsupported" (string_of_list_ascii op))
  end.

Definition demo_eval (expr : string) : M value :=
  match split_blank (list_ascii_of_string expr) [] with
  | [a] => atom a
  | [a; op; b] => x ← atom a; y ← atom b; binop op x y
  | _ => raise (OtherError "Unsupported" expr)
  end.

End Demo.

(** ** Results of fuel-indexed computations *)

(** [m'] gives the result of [m] whenever [m] has one. *)
Definition refines {A} (m m' : M A) : Prop :=
  ∀ st, m st = OutOfFuel ∨ m st = m' st.

Definition fuel_monotone {A} (c : nat → M A) : Prop :=
  ∀ f f', (f ≤ f')%nat → refines (c f) (c f').

(** [c] started in [st] ends with [r]: some amount of fuel is enough. *)
Definition evaluates {A} (c : nat → M A) (st : state) (r : result A) : Prop :=
  r ≠ OutOfFuel ∧ ∃ fuel, c fuel st = r.

(** The body of a loop run to its end, and the statement executor run from
    line [i] to its return. *)
Definition runs_block (_eval : string → M value) (block : list string)
  : state → result unit → Prop :=
  evaluates (fun f => run_block _eval f block).

Definition continues (_eval : string → M value) (lines : list string) (i : nat)
  : state → result nat → Prop :=
  evaluates (fun f => exec_lines _eval f lines i).

(** [R] and then, on a normal end, [K]. *)
Definition and_then {A B} (R : state → result A → Prop)
    (K : A → state → result B → Prop) : state → result B → Prop :=
  fun st r =>
    (∃ a st', R st (Done a st') ∧ K a st' r)
    ∨ (∃ e st', R st (Raise e st') ∧ r = Raise e st').

(** A computation that needs no fuel, as a relation. *)
Definition once {A} (m : M A) : state → result A → Prop :=
  fun st r => m st = r ∧ r ≠ OutOfFuel.

(** [st] with [name] bound to [v]. *)
Definition bound (name : string) (v : value) (st : state) : state :=
  mkState (<[name := v]> (env st)) (out st).

(** ** The loop protocols, in the words of the specification *)

(** Bind the variable to each element in turn and execute the body once for
    it; an exception of the body ends the loop. *)
Inductive foreach_spec (var : string) (body : state → result unit → Prop)
  : list value → state → result unit → Prop :=
| foreach_done st :
    foreach_spec var body [] st (Done tt st)
| foreach_raise v l st e st' :
    body (bound var v st) (Raise e st') →
    foreach_spec var body (v :: l) st (Raise e st')
| foreach_next v l st st' r :
    body (bound var v st) (Done tt st') →
    foreach_spec var body l st' r →
    foreach_spec var body (v :: l) st r.

(** The values of a counter loop: [A], [A + K], [A + 2K], ... up to and
    including [B] for a positive step [K], down to and including [B] for a
    negative one. *)
Definition counter_count (A B K : Z) : nat :=
  if 0 <? K then (if A <=? B then Z.to_nat ((B - A) / K + 1) else 0%nat)
  else if K <? 0 then (if B <=? A then Z.to_nat ((A - B) / (- K) + 1) else 0%nat)
  else 0%nat.

Definition counter_values (A B K : Z) : list Z :=
  map (fun k => A + Z.of_nat k * K) (seq 0 (counter_count A B K)).

(** The pre-test loop: check the condition; on false leave; on true execute
    the body, then the step clause, then check again. *)
Inductive pretest_spec (cond : M bool) (body : state → result unit → Prop)
    (step : M unit) : state → result unit → Prop :=
| pretest_exit st st' :
    cond st = Done false st' →
    pretest_spec cond body step st (Done tt st')
| pretest_cond_raise st e st' :
    cond st = Raise e st' →
    pretest_spec cond body step st (Raise e st')
| pretest_body_raise st st1 e st2 :
    cond st = Done true st1 →
    body st1 (Raise e st2) →
    pretest_spec cond body step st (Raise e st2)
| pretest_step_raise st st1 st2 e st3 :
    cond st = Done true st1 →
    body st1 (Done tt st2) →
    step st2 = Raise e st3 →
    pretest_spec cond body step st (Raise e st3)
| pretest_again st st1 st2 st3 r :
    cond st = Done true st1 →
    body st1 (Done tt st2) →
    step st2 = Done tt st3 →
    pretest_spec cond body step st3 r →
    pretest_spec cond body step st r.

(** The pre-test loop started in [st] enters its body in state [s1]: after
    zero or more complete rounds (condition true, body, step clause) the
    condition is true once more. *)
Inductive enters_body (cond : M bool) (body : state → result unit → Prop)
    (step : M unit) : state → state → Prop :=
| enters_first st s1 :
    cond st = Done true s1 →
    enters_body cond body step st s1
| enters_later st s1 s2 s3 s :
    cond st = Done true s1 →
    body s1 (Done tt s2) →
    step s2 = Done tt s3 →
    enters_body cond body step s3 s →
    enters_body cond body step st s.

(** What happened between [s] and [s'] left [name] as it was in [s]. *)
Definition left_alone (name : string) (s s' : state) : Prop :=
  env s' !! name = env s !! name.

(** ** The block matcher, in the words of the specification *)

(** Change of the depth counter on one line. *)
Definition depth_delta (l : string) : Z :=
  (if is_header l then 1 else 0) - (if RX_END l then 1 else 0).

(** The depth counter, started at [d], after the lines [ls]. *)
Definition depth_after (d : Z) (ls : list string) : Z :=
  fold_left (fun acc l => acc + depth_delta l) ls d.

(** Line [j] closes the header whose body starts at line [i]: the counter
    started at 1 before line [i] is 0 after line [j] and positive after every
    earlier line. *)
Definition matching_end (lines : list string) (i j : nat) : Prop :=
  (i ≤ j < length lines)%nat
  ∧ depth_after 1 (take (S j - i) (drop i lines)) = 0
  ∧ ∀ j', (i ≤ j' < j)%nat → 0 < depth_after 1 (take (S j' - i) (drop i lines)).

(** ** The header and terminator lines, in the words of the specification

    [for <ident> = <expr> to <expr> [by <expr>] do],
    [for <ident> in <expr> do],
    [for ( <clause> ; <clause> ; <clause> ) do] and [end], with the keywords
    in any case, described as shapes of text and not through a pattern. *)

(** Blanks, maybe none; at least one blank. *)
Definition blanks (w : list ascii) : Prop := forallb is_space w = true.
Definition blanks1 (w : list ascii) : Prop :=
  w ≠ [] ∧ forallb is_space w = true.

(** The text [k], its letters in any case. *)
Definition token (k : string) (w : list ascii) : Prop :=
  map to_lower w = map to_lower (list_ascii_of_string k).

(** [<ident>]; [<expr>], not empty and on one line; [<clause>], which may be
    empty. *)
Definition ident_text (w : list ascii) : Prop :=
  ∃ z wd, w = z :: wd ∧ is_ident_start z = true ∧ forallb is_word wd = true.
Definition expr_text (w : list ascii) : Prop :=
  w ≠ [] ∧ forallb is_dot w = true.
Definition clause_text (w : list ascii) : Prop := forallb is_dot w = true.

Definition optional (P : list ascii → Prop) (w : list ascii) : Prop :=
  w = [] ∨ P w.

(** A text made of parts, one of each shape in turn. *)
Fixpoint sequence (ps : list (list ascii → Prop)) (w : list ascii) : Prop :=
  match ps with
  | [] => w = []
  | P :: ps => ∃ w1 w2, w = w1 ++ w2 ∧ P w1 ∧ sequence ps w2
  end.

Definition counter_form (line : string) : Prop :=
  sequence
    [blanks; token "for"; blanks1; ident_text; blanks; token "="; blanks;
     expr_text; blanks1; token "to"; blanks1; expr_text;
     optional (sequence [blanks1; token "by"; blanks1; expr_text]);
     blanks1; token "do"; blanks]
    (list_ascii_of_string line).

Definition iterator_form (line : string) : Prop :=
  sequence
    [blanks; token "for"; blanks1; ident_text; blanks1; token "in"; blanks1;
     expr_text; blanks1; token "do"; blanks]
    (list_ascii_of_string line).

Definition cstyle_form (line : string) : Prop :=
  sequence
    [blanks; token "for"; blanks; token "("; blanks; clause_text; blanks;
     token ";"; blanks; clause_text; blanks; token ";"; blanks; clause_text;
     blanks; token ")"; blanks1; token "do"; blanks]
    (list_ascii_of_string line).

(** A header of any of the three forms; a terminator. *)
Definition header_form (line : string) : Prop :=
  counter_form line ∨ iterator_form line ∨ cstyle_form line.

Definition terminator_form (line : string) : Prop :=
  sequence [blanks; token "end"; blanks] (list_ascii_of_string line).

(** ** The expression texts of a program *)

Definition clause_exprs (c : option clause) : list string :=
  match c with
  | Some (CExpr s) => [s]
  | Some (CAssign _ rhs) => [rhs]
  | None => []
  end.

Definition cond_exprs (cond : string) : list string :=
  if nonempty cond then [cond] else [].

Definition step_exprs (step_s : option string) : list string :=
  match step_s with
  | Some s => if nonempty s then [s] else []
  | None => []
  end.

(** The expression texts that executing a line can hand to the evaluator. *)
Definition exprs_of_line (raw : string) : list string :=
  match classify (rstrip raw) with
  | KCounter _ start_s end_s step_s => [start_s; end_s] ++ step_exprs step_s
  | KIter _ expr => [expr]
  | KCStyle init_s cond_s step_s =>
      clause_exprs (do_assign init_s) ++ cond_exprs (strip cond_s)
      ++ clause_exprs (do_assign step_s)
  | KPrint e => [e]
  | KAssign _ rhs => [rhs]
  | _ => []
  end.

(** Two evaluators agree on every expression of the lines. *)
Definition agree_on (ev ev' : string → M value) (lines : list string) : Prop :=
  Forall (fun raw => ∀ e, In e (exprs_of_line raw) → ∀ st, ev e st = ev' e st)
    lines.

(** ** Auxiliary notions of the proofs *)

(** What the first character of a keyword or of a name cannot be. *)
Definition visible (x : ascii) : bool :=
  negb (is_space x) && negb (Ascii.eqb x "#").

(** The first character of a line matched by a pattern that begins with
    [^ \s*] and then demands a character of the class [P]. *)
Definition first_char (P : ascii → bool) (line : string) : Prop :=
  ∃ x t, lstrip_l (list_ascii_of_string line) = x :: t ∧ P x = true.

(** The text after the keyword [for] and the blanks that follow it, and
    the text after the name and the blanks that follow it. *)
Fixpoint skip_word (s : list ascii) : list ascii :=
  match s with
  | a :: s' => if is_word a then skip_word s' else s
  | [] => []
  end.

Definition after_for (line : string) : list ascii :=
  lstrip_l (drop 3 (lstrip_l (list_ascii_of_string line))).

Definition after_ident (line : string) : list ascii :=
  lstrip_l (skip_word (drop 1 (after_for line))).

(** [m] unbinds no name. *)
Definition keeps_bindings {A} (m : M A) : Prop :=
  ∀ st, match m st with
        | Done _ st' | Raise _ st' => dom (env st) ⊆@{gset string} dom (env st')
        | OutOfFuel => True
        end.

(** The worked examples of the specification, as program texts. *)
Definition demo_counter : string :=
"for i = 1 to 5 by 2 do
    print i
end".

Definition demo_cstyle : string :=
"for (j = 0; j < 3; j = j + 1) do
    print j
end".

(** All five recursive functions at once, for the induction on fuel. *)
Definition mono_at (_eval : string → M value) (f f' : nat) : Prop :=
  (∀ lines i, refines (exec_lines _eval f lines i) (exec_lines _eval f' lines i))
  ∧ (∀ var block n e s,
      refines (counter_up _eval f var block n e s)
              (counter_up _eval f' var block n e s))
  ∧ (∀ var block n e s,
      refines (counter_down _eval f var block n e s)
              (counter_down _eval f' var block n e s))
  ∧ (∀ cond step block,
      refines (cstyle_loop _eval f cond step block)
              (cstyle_loop _eval f' cond step block))
  ∧ (∀ lines j, refines (drive _eval f lines j) (drive _eval f' lines j)).

Definition agree_at (ev ev' : string → M value) (f : nat) : Prop :=
  (∀ lines i, agree_on ev ev' lines →
     ∀ st, exec_lines ev f lines i st = exec_lines ev' f lines i st)
  ∧ (∀ var block n e s, agree_on ev ev' block →
       ∀ st, counter_up ev f var block n e s st
             = counter_up ev' f var block n e s st)
  ∧ (∀ var block n e s, agree_on ev ev' block →
       ∀ st, counter_down ev f var block n e s st
             = counter_down ev' f var block n e s st)
  ∧ (∀ cond step block, agree_on ev ev' block →
       (∀ e, In e (cond_exprs cond ++ clause_exprs step) →
             ∀ st, ev e st = ev' e st) →
       ∀ st, cstyle_loop ev f cond step block st
             = cstyle_loop ev' f cond step block st)
  ∧ (∀ lines j, agree_on ev ev' lines →
       ∀ st, drive ev f lines j st = drive ev' f lines j st).

(** ** Auxiliary notions of the further properties *)

(** *** The texts a pattern matches

    [lang icase r pos w rest]: the pattern [r] matches the characters [w]
    when [pos] characters come before them and [rest] comes after. *)
Fixpoint lang (icase : bool) (r : regex) (pos : nat) (w rest : list ascii)
  : Prop :=
  match r with
  | Eps => w = []
  | Bos => w = [] ∧ pos = 0%nat
  | Eos => w = [] ∧ (rest = [] ∨ ∃ x, rest = [x] ∧ code x = 10%nat)
  | Lit a => ∃ x, w = [x] ∧ char_eqb icase a x = true
  | Cls p => ∃ x, w = [x] ∧ p x = true
  | Star _ p => forallb p w = true
  | Plus _ p => w ≠ [] ∧ forallb p w = true
  | Seq r1 r2 =>
      ∃ w1 w2, w = w1 ++ w2 ∧ lang icase r1 pos w1 (w2 ++ rest)
               ∧ lang icase r2 (pos + length w1)%nat w2 rest
  | Grp _ r => lang icase r pos w rest
  | Opt r => w = [] ∨ lang icase r pos w rest
  end.

(** A continuation whose success does not depend on the captures. *)
Definition caps_indep (k : cont) : Prop :=
  ∀ pos s c c', is_Some (k pos s c) → is_Some (k pos s c').

Definition accepts (k : cont) (pos : nat) (s : list ascii) : Prop :=
  ∃ c, is_Some (k pos s c).

(** The texts that [pattern.match] accepts. *)
Definition matches (icase : bool) (r : regex) (text : string) : Prop :=
  ∃ w rest, list_ascii_of_string text = w ++ rest ∧ lang icase r 0 w rest.

(** No [$] in the pattern. *)
Fixpoint eos_free (r : regex) : bool :=
  match r with
  | Eos => false
  | Seq r1 r2 => eos_free r1 && eos_free r2
  | Grp _ r | Opt r => eos_free r
  | _ => true
  end.

(** The pattern [r] matches the texts of the shape [P], wherever they
    stand. *)
Definition denotes (icase : bool) (r : regex) (P : list ascii → Prop) : Prop :=
  ∀ pos w rest, lang icase r pos w rest ↔ P w.

(** No [^] in the pattern. *)
Fixpoint bos_free (r : regex) : bool :=
  match r with
  | Bos => false
  | Seq r1 r2 => bos_free r1 && bos_free r2
  | Grp _ r | Opt r => bos_free r
  | _ => true
  end.

(** The text after the first word of a line and the blanks around it. *)
Definition after_name (line : string) : list ascii :=
  lstrip_l (skip_word (lstrip_l (list_ascii_of_string line))).

(** Headers minus terminators among the lines [lines[i:j]]. *)
Definition depth_between (lines : list string) (i j : nat) : Z :=
  depth_after 0 (take (j - i) (drop i lines)).

(** Two lines with the same text between their leading and trailing blanks. *)
Definition same_text (a b : string) : Prop := strip a = strip b.

(** Two lines that are the same to the interpreter: the same text between
    blanks, or both blank or comments. *)
Definition same_line (a b : string) : Prop :=
  same_text a b
  ∨ (blank_or_comment (rstrip a) = true ∧ blank_or_comment (rstrip b) = true).

(** The same exception, except that the report of an unrecognized line
    quotes the line with its own leading blanks. *)
Definition same_error (e e' : exn) : Prop :=
  e = e'
  ∨ ∃ i l l', e = SyntaxError (unrecognized_msg i l)
              ∧ e' = SyntaxError (unrecognized_msg i l') ∧ same_text l l'.

(** Results that agree: values related by [R] or exceptions related by
    [E], and the same final state. *)
Definition alike {A B} (E : exn → exn → Prop) (R : A → B → Prop)
    (r : result A) (r' : result B) : Prop :=
  match r, r' with
  | Done a s, Done a' s' => R a a' ∧ s = s'
  | Raise e s, Raise e' s' => E e e' ∧ s = s'
  | OutOfFuel, OutOfFuel => True
  | _, _ => False
  end.

(** All five recursive functions on two texts with the same lines. *)
Definition alike_at (_eval : string → M value) (f : nat) : Prop :=
  (∀ ls ls' i st, Forall2 same_line ls ls' →
     alike same_error eq (exec_lines _eval f ls i st)
       (exec_lines _eval f ls' i st))
  ∧ (∀ var b b' n e s st, Forall2 same_line b b' →
       alike same_error eq (counter_up _eval f var b n e s st)
         (counter_up _eval f var b' n e s st))
  ∧ (∀ var b b' n e s st, Forall2 same_line b b' →
       alike same_error eq (counter_down _eval f var b n e s st)
         (counter_down _eval f var b' n e s st))
  ∧ (∀ cond step b b' st, Forall2 same_line b b' →
       alike same_error eq (cstyle_loop _eval f cond step b st)
         (cstyle_loop _eval f cond step b' st))
  ∧ (∀ ls ls' j st, Forall2 same_line ls ls' →
       alike same_error eq (drive _eval f ls j st) (drive _eval f ls' j st)).

(** The error of the block matcher. *)
Definition missing_end : exn := SyntaxError "missing 'end'".

(** [r'] is the result [r] of a computation on a text, for the same
    computation on the text with more lines after it: the same, unless [r] is
    the missing-terminator error. *)
Definition extends {A} (r r' : result A) : Prop :=
  match r with
  | Done a s => r' = Done a s
  | Raise e s => e ≠ missing_end → r' = Raise e s
  | OutOfFuel => True
  end.

(** The result [r] of [_exec_lines] on [l1] from line [i] with [F] units of
    fuel, and its result [r'] on [l1 ++ l2]: a return at a terminator and an
    exception are the same; a return at the end of [l1] goes on into [l2],
    with the fuel that is left. *)
Definition into_rest (_eval : string → M value) (l1 l2 : list string)
    (F i : nat) (r r' : result nat) : Prop :=
  match r with
  | Done j s =>
      if (j <? length l1)%nat then r' = Done j s
      else ∃ F', (F' ≤ F ≤ F' + (length l1 - i))%nat
                 ∧ r' = exec_lines _eval F' (l1 ++ l2) (length l1) s
  | Raise e s => e ≠ missing_end → r' = Raise e s
  | OutOfFuel => True
  end.

(** The same exception, except that the report of an unrecognized line
    counts the [P] lines put before the text. *)
Definition shifted_error (P : nat) (e e' : exn) : Prop :=
  e = e'
  ∨ ∃ i l, e = SyntaxError (unrecognized_msg i l)
           ∧ e' = SyntaxError (unrecognized_msg (P + i) l).

(** [m] only appends to the output. *)
Definition appends_output {A} (m : M A) : Prop :=
  ∀ st, match m st with
        | Done _ st' | Raise _ st' => out st `prefix_of` out st'
        | OutOfFuel => True
        end.

(** The names that executing a line can bind: the variable of a counter or
    iterator header, the target of an assignment clause of a C-style header,
    the target of an assignment. *)
Definition clause_target (c : option clause) : list string :=
  match c with
  | Some (CAssign name _) => [name]
  | _ => []
  end.

Definition targets_of_line (raw : string) : list string :=
  match classify (rstrip raw) with
  | KCounter var _ _ _ => [var]
  | KIter var _ => [var]
  | KCStyle init_s _ step_s =>
      clause_target (do_assign init_s) ++ clause_target (do_assign step_s)
  | KAssign name _ => [name]
  | _ => []
  end.

Definition targets (lines : list string) : gset string :=
  list_to_set (concat (map targets_of_line lines)).

(** [m] binds no name outside [N]. *)
Definition binds_within {A} (N : gset string) (m : M A) : Prop :=
  ∀ st, match m st with
        | Done _ st' | Raise _ st' => dom (env st') ⊆ dom (env st) ∪ N
        | OutOfFuel => True
        end.

(** A name: a character of [[A-Za-z_]], then characters of [\w]. *)
Definition is_identifier (s : string) : bool :=
  match list_ascii_of_string s with
  | z :: wd => is_ident_start z && forallb is_word wd
  | [] => false
  end.

(** The pattern has no group number [n]. *)
Fixpoint no_grp (n : nat) (r : regex) : bool :=
  match r with
  | Grp m r => negb (Nat.eqb m n) && no_grp n r
  | Seq r1 r2 => no_grp n r1 && no_grp n r2
  | Opt r => no_grp n r
  | _ => true
  end.

(** * Properties *)

(** ** Characters, stripping and the first character of a match *)

Section Chars.
Import PyStr Re.

Lemma forall_ascii (P : ascii → bool) :
  forallb P (map ascii_of_nat (seq 0 256)) = true → ∀ x, P x = true.
Proof.
  intros H x. rewrite forallb_forall in H. apply H.
  rewrite <- (ascii_nat_embedding x). apply in_map, in_seq.
  pose proof (nat_ascii_bounded x). lia.
Qed.

Lemma keyword_char_visible (x : ascii) :
  char_eqb true "f" x || char_eqb true "e" x || char_eqb true "p" x = true →
  visible x = true.
Proof.
  revert x.
  assert (H : ∀ x, implb (char_eqb true "f" x || char_eqb true "e" x
                          || char_eqb true "p" x) (visible x) = true)
    by (apply forall_ascii; vm_compute; reflexivity).
  intros x Hx. specialize (H x). rewrite Hx in H. exact H.
Qed.

Lemma ident_start_visible (x : ascii) : is_ident_start x = true → visible x = true.
Proof.
  revert x.
  assert (H : ∀ x, implb (is_ident_start x) (visible x) = true)
    by (apply forall_ascii; vm_compute; reflexivity).
  intros x Hx. specialize (H x). rewrite Hx in H. exact H.
Qed.

Lemma char_eqb_e_f (x : ascii) :
  char_eqb true "e" x = true → char_eqb true "f" x = false.
Proof.
  revert x.
  assert (H : ∀ x, implb (char_eqb true "e" x) (negb (char_eqb true "f" x)) = true)
    by (apply forall_ascii; vm_compute; reflexivity).
  intros x Hx. specialize (H x). rewrite Hx in H. simpl in H.
  by apply negb_true_iff.
Qed.

Lemma lstrip_l_head (s : list ascii) (x : ascii) (t : list ascii) :
  lstrip_l s = x :: t → is_space x = false.
Proof.
  induction s as [|a s IH]; simpl; [done|].
  destruct (is_space a) eqn:Ha; [done|]. by intros [= <- _].
Qed.

Lemma lstrip_l_skip (w : list ascii) (x : ascii) (t : list ascii) :
  forallb is_space w = true → is_space x = false →
  lstrip_l (w ++ x :: t) = x :: t.
Proof.
  intros Hw Hx. induction w as [|a w IH]; simpl in *.
  - by rewrite Hx.
  - apply andb_true_iff in Hw as [-> Hw]. auto.
Qed.

Lemma lstrip_l_nil (s : list ascii) :
  lstrip_l s = [] ↔ forallb is_space s = true.
Proof.
  induction s as [|a s IH]; simpl; [done|].
  destruct (is_space a); simpl; [done|]. split; discriminate.
Qed.

Lemma rstrip_l_nonblank (s : list ascii) :
  forallb is_space s = false → forallb is_space (rstrip_l s) = false.
Proof.
  intros Hs. unfold rstrip_l.
  destruct (forallb is_space (rev (lstrip_l (rev s)))) eqn:E; [|done].
  rewrite forallb_forall in E.
  assert (H1 : lstrip_l (rev s) = []).
  { destruct (lstrip_l (rev s)) as [|x t] eqn:E2; [done|].
    pose proof (lstrip_l_head _ _ _ E2) as Hx.
    rewrite (E x) in Hx; [done|]. apply in_rev. rewrite rev_involutive. by left. }
  apply lstrip_l_nil in H1. rewrite forallb_forall in H1.
  assert (forallb is_space s = true); [|congruence].
  apply forallb_forall. intros y Hy. apply H1. by apply in_rev in Hy.
Qed.

(** A line whose first non-blank character is visible is neither blank nor
    a comment. *)
Lemma visible_not_blank (line : string) (x : ascii) (t : list ascii) :
  lstrip_l (list_ascii_of_string line) = x :: t → visible x = true →
  blank_or_comment line = false.
Proof.
  intros Hl Hx. apply andb_true_iff in Hx as [Hsp Hc].
  apply negb_true_iff in Hsp. apply negb_true_iff in Hc.
  unfold blank_or_comment. apply orb_false_iff. split.
  - apply negb_false_iff. unfold strip, lstrip, rstrip.
    rewrite list_ascii_of_string_of_list_ascii.
    destruct (lstrip_l (rstrip_l (list_ascii_of_string line))) eqn:E; [|done].
    apply lstrip_l_nil in E.
    rewrite rstrip_l_nonblank in E; [done|].
    destruct (forallb is_space (list_ascii_of_string line)) eqn:E2; [|done].
    apply lstrip_l_nil in E2. congruence.
  - unfold startswith, lstrip. rewrite Hl. cbn [string_of_list_ascii String.prefix].
    destruct (ascii_dec "#" x) as [<-|]; [|done].
    by rewrite Ascii.eqb_refl in Hc.
Qed.

(** A successful [p*] consumed some characters of the class and went on. *)
Lemma star_inv g p pos s c k res :
  star g p pos s c k = Some res →
  ∃ w s', s = w ++ s' ∧ forallb p w = true
          ∧ k (pos + length w)%nat s' c = Some res.
Proof.
  revert pos. induction s as [|x s IH]; intros pos; simpl.
  - intros H. exists [], []. by rewrite Nat.add_0_r.
  - destruct (p x) eqn:Hx.
    + assert (Hrec : star g p (S pos) s c k = Some res →
                ∃ w s', x :: s = w ++ s' ∧ forallb p w = true
                        ∧ k (pos + length w)%nat s' c = Some res).
      { intros (w & s' & -> & Hw & Hk)%IH. exists (x :: w), s'. simpl.
        rewrite Hx, Hw. split_and!; [done..|].
        by rewrite <- Nat.add_succ_comm. }
      assert (Hhere : k pos (x :: s) c = Some res →
                ∃ w s', x :: s = w ++ s' ∧ forallb p w = true
                        ∧ k (pos + length w)%nat s' c = Some res).
      { intros H. exists [], (x :: s). by rewrite Nat.add_0_r. }
      destruct g; unfold or_else.
      * destruct (star true p (S pos) s c k) eqn:E; [intros [= <-]; auto|auto].
      * destruct (k pos (x :: s) c) eqn:E; [intros [= <-]; auto|auto].
    + intros H. exists [], (x :: s). by rewrite Nat.add_0_r.
Qed.

Lemma first_char_intro (P : ascii → bool) (line : string)
    (k : nat → list ascii → ascii → list ascii → caps → option caps) c res :
  (∀ x, P x = true → is_space x = false) →
  star true is_space 0 (list_ascii_of_string line) c
    (fun pos s c => match s with
                    | x :: s' => if P x then k pos s x s' c else None
                    | [] => None
                    end) = Some res →
  first_char P line.
Proof.
  intros HP (w & s' & Hs & Hw & Hk)%star_inv.
  destruct s' as [|x t]; [done|]. destruct (P x) eqn:Hx; [|done].
  exists x, t. split; [|done]. rewrite Hs. apply lstrip_l_skip; auto.
Qed.

Lemma visible_not_space (x : ascii) : visible x = true → is_space x = false.
Proof. intros [H _]%andb_true_iff. by apply negb_true_iff. Qed.

Ltac first_char_tac :=
  let E := fresh "E" in
  let x := fresh "x" in
  let Hx := fresh "Hx" in
  unfold pmatch; destruct (rmatch _ _ _ _ _ _) eqn:E; [|done]; intros _;
  cbn in E; eapply first_char_intro; [|exact E];
  intros x Hx; apply visible_not_space;
  first [ exact (ident_start_visible x Hx)
        | apply keyword_char_visible; rewrite Hx;
          rewrite ?orb_true_r; reflexivity ].

Lemma RX_END_first line :
  RX_END line = true → first_char (char_eqb true "e") line.
Proof. unfold RX_END. first_char_tac. Qed.

Lemma RX_FOR_COUNTER_first line :
  matched (RX_FOR_COUNTER line) = true → first_char (char_eqb true "f") line.
Proof. unfold RX_FOR_COUNTER, matched. first_char_tac. Qed.

Lemma RX_FOR_ITER_first line :
  matched (RX_FOR_ITER line) = true → first_char (char_eqb true "f") line.
Proof. unfold RX_FOR_ITER, matched. first_char_tac. Qed.

Lemma RX_FOR_CSTYLE_first line :
  matched (RX_FOR_CSTYLE line) = true → first_char (char_eqb true "f") line.
Proof. unfold RX_FOR_CSTYLE, matched. first_char_tac. Qed.

Lemma RX_PRINT_first line :
  matched (RX_PRINT line) = true → first_char (char_eqb true "p") line.
Proof. unfold RX_PRINT, matched. first_char_tac. Qed.

Lemma RX_ASSIGN_first line :
  matched (RX_ASSIGN line) = true → first_char is_ident_start line.
Proof. unfold RX_ASSIGN, matched. first_char_tac. Qed.

Lemma is_header_first line :
  is_header line = true → first_char (char_eqb true "f") line.
Proof.
  unfold is_header. intros [[H|H]%orb_true_iff|H]%orb_true_iff.
  - by apply RX_FOR_COUNTER_first.
  - by apply RX_FOR_ITER_first.
  - by apply RX_FOR_CSTYLE_first.
Qed.

(** No line is both a terminator and a header. *)
Lemma end_not_header line : RX_END line = true → is_header line = false.
Proof.
  intros (x & t & Hl & Hx)%RX_END_first.
  destruct (is_header line) eqn:Hh; [|done].
  apply is_header_first in Hh as (y & u & Hl' & Hy).
  rewrite Hl in Hl'. injection Hl' as <- <-.
  apply char_eqb_e_f in Hx. congruence.
Qed.

(** *** The three header patterns exclude one another *)

Lemma space_not_word (x : ascii) : is_space x = true → is_word x = false.
Proof.
  revert x.
  assert (H : ∀ x, implb (is_space x) (negb (is_word x)) = true)
    by (apply forall_ascii; vm_compute; reflexivity).
  intros x Hx. specialize (H x). rewrite Hx in H. by apply negb_true_iff.
Qed.

Lemma char_facts (x : ascii) :
  (char_eqb true "=" x = true → is_word x = false ∧ is_space x = false
                                 ∧ char_eqb true "i" x = false)
  ∧ (char_eqb true "i" x = true → is_space x = false)
  ∧ (char_eqb true "(" x = true → is_space x = false ∧ is_ident_start x = false)
  ∧ (is_ident_start x = true → is_space x = false).
Proof.
  revert x.
  assert (H : ∀ x,
    implb (char_eqb true "=" x)
      (negb (is_word x) && negb (is_space x) && negb (char_eqb true "i" x))
    && implb (char_eqb true "i" x) (negb (is_space x))
    && implb (char_eqb true "(" x) (negb (is_space x) && negb (is_ident_start x))
    && implb (is_ident_start x) (negb (is_space x)) = true)
    by (apply forall_ascii; vm_compute; reflexivity).
  intros x. specialize (H x).
  apply andb_true_iff in H as [[[H1 H2]%andb_true_iff H3]%andb_true_iff H4].
  split_and!.
  - intros Hx. rewrite Hx in H1. simpl in H1.
    apply andb_true_iff in H1 as [[Ha Hb]%andb_true_iff Hc].
    by rewrite !negb_true_iff in *.
  - intros Hx. rewrite Hx in H2. by apply negb_true_iff.
  - intros Hx. rewrite Hx in H3. simpl in H3.
    apply andb_true_iff in H3 as [Ha Hb]. by rewrite !negb_true_iff in *.
  - intros Hx. rewrite Hx in H4. by apply negb_true_iff.
Qed.

Lemma skip_word_skip (w rest : list ascii) :
  forallb is_word w = true →
  match rest with x :: _ => is_word x = false | [] => True end →
  skip_word (w ++ rest) = rest.
Proof.
  intros Hw Hrest. induction w as [|a w IH]; simpl in *.
  - destruct rest as [|x t]; [done|]. simpl. by rewrite Hrest.
  - apply andb_true_iff in Hw as [-> Hw]. auto.
Qed.

Ltac inv_star E w s Hs Hw :=
  apply star_inv in E as (w & s & Hs & Hw & E).

Ltac inv_char E s x t Hb :=
  destruct s as [|x t]; [discriminate E|];
  match type of E with
  | (if ?b then _ else None) = Some _ => destruct b eqn:Hb; [|discriminate E]
  end.

Lemma after_for_intro (line : string) (w0 w1 : list ascii) (x0 x1 x2 x : ascii)
    (rest : list ascii) :
  list_ascii_of_string line = w0 ++ x0 :: x1 :: x2 :: w1 ++ x :: rest →
  forallb is_space w0 = true → char_eqb true "f" x0 = true →
  forallb is_space w1 = true → is_space x = false →
  after_for line = x :: rest.
Proof.
  intros Hl Hw0 Hx0 Hw1 Hx. unfold after_for. rewrite Hl.
  rewrite lstrip_l_skip; [|done|].
  2: { apply visible_not_space, keyword_char_visible. by rewrite Hx0. }
  simpl. by apply lstrip_l_skip.
Qed.

Lemma counter_after line :
  matched (RX_FOR_COUNTER line) = true →
  (∃ z t, after_for line = z :: t ∧ is_ident_start z = true)
  ∧ ∃ x t, after_ident line = x :: t ∧ char_eqb true "=" x = true.
Proof.
  unfold RX_FOR_COUNTER, matched, pmatch.
  destruct (rmatch _ _ _ _ _ _) eqn:E; [|done]. intros _. cbn in E.
  inv_star E w0 s0 Hs0 Hw0.
  inv_char E s0 c1 s1 Hc1. inv_char E s1 c2 s2 Hc2. inv_char E s2 c3 s3 Hc3.
  inv_char E s3 c4 s4 Hc4.
  inv_star E w1 s5 Hs5 Hw1. inv_char E s5 z s6 Hz.
  inv_star E w2 s7 Hs7 Hw2. inv_star E w3 s8 Hs8 Hw3.
  inv_char E s8 x s9 Hx. clear E. subst s4 s6 s7.
  destruct (char_facts z) as (_ & _ & _ & Hid).
  destruct (char_facts x) as (Heq & _).
  destruct (Heq Hx) as (Hnw & Hns & _).
  assert (Hfor : after_for line = z :: w2 ++ w3 ++ x :: s9).
  { eapply (after_for_intro line w0 (c4 :: w1)); eauto.
    simpl. by rewrite Hc4. }
  split; [by eexists _, _|].
  exists x, s9. split; [|done]. unfold after_ident. rewrite Hfor. simpl. rewrite drop_0.
  rewrite skip_word_skip; [by apply lstrip_l_skip|done|].
  destruct w3 as [|y w3]; simpl; [done|].
  simpl in Hw3. apply andb_true_iff in Hw3 as [Hy _]. by apply space_not_word.
Qed.

Lemma iter_after line :
  matched (RX_FOR_ITER line) = true →
  ∃ x t, after_ident line = x :: t ∧ char_eqb true "i" x = true.
Proof.
  unfold RX_FOR_ITER, matched, pmatch.
  destruct (rmatch _ _ _ _ _ _) eqn:E; [|done]. intros _. cbn in E.
  inv_star E w0 s0 Hs0 Hw0.
  inv_char E s0 c1 s1 Hc1. inv_char E s1 c2 s2 Hc2. inv_char E s2 c3 s3 Hc3.
  inv_char E s3 c4 s4 Hc4.
  inv_star E w1 s5 Hs5 Hw1. inv_char E s5 z s6 Hz.
  inv_star E w2 s7 Hs7 Hw2. inv_char E s7 c5 s8 Hc5.
  inv_star E w3 s9 Hs9 Hw3. inv_char E s9 x s10 Hx. clear E. subst s4 s6 s8.
  destruct (char_facts z) as (_ & _ & _ & Hid).
  destruct (char_facts x) as (_ & Hi & _).
  assert (Hfor : after_for line = z :: w2 ++ c5 :: w3 ++ x :: s10).
  { eapply (after_for_intro line w0 (c4 :: w1)); eauto.
    simpl. by rewrite Hc4. }
  exists x, s10. split; [|done]. unfold after_ident. rewrite Hfor. simpl. rewrite drop_0.
  rewrite skip_word_skip; [|done|by apply space_not_word].
  apply (lstrip_l_skip (c5 :: w3)); [|by apply Hi]. simpl. by rewrite Hc5.
Qed.

Lemma cstyle_after line :
  matched (RX_FOR_CSTYLE line) = true →
  ∃ x t, after_for line = x :: t ∧ char_eqb true "(" x = true.
Proof.
  unfold RX_FOR_CSTYLE, matched, pmatch.
  destruct (rmatch _ _ _ _ _ _) eqn:E; [|done]. intros _. cbn in E.
  inv_star E w0 s0 Hs0 Hw0.
  inv_char E s0 c1 s1 Hc1. inv_char E s1 c2 s2 Hc2. inv_char E s2 c3 s3 Hc3.
  inv_star E w1 s4 Hs4 Hw1. inv_char E s4 x s5 Hx. clear E. subst s3.
  destruct (char_facts x) as (_ & _ & Hp & _). destruct (Hp Hx) as [Hns _].
  exists x, s5. split; [|done]. unfold after_for. rewrite Hs0.
  rewrite lstrip_l_skip; [|done|].
  2: { apply visible_not_space, keyword_char_visible.
       change (char_eqb true "f" c1 = true) in Hc1. by rewrite Hc1. }
  simpl. by apply lstrip_l_skip.
Qed.

(** The order in which the three header patterns are tried does not matter:
    no line matches two of them. *)
Lemma headers_exclusive line :
  (matched (RX_FOR_COUNTER line) = true → matched (RX_FOR_ITER line) = false)
  ∧ (matched (RX_FOR_COUNTER line) = true → matched (RX_FOR_CSTYLE line) = false)
  ∧ (matched (RX_FOR_ITER line) = true → matched (RX_FOR_CSTYLE line) = false).
Proof.
  split_and!.
  - intros [_ (x & t & Hx & Heq)]%counter_after.
    destruct (matched (RX_FOR_ITER line)) eqn:E; [|done].
    apply iter_after in E as (y & u & Hy & Hi). rewrite Hx in Hy.
    injection Hy as <- <-. destruct (char_facts x) as (H & _).
    destruct (H Heq) as (_ & _ & Hni). congruence.
  - intros [(z & t & Hz & Hid) _]%counter_after.
    destruct (matched (RX_FOR_CSTYLE line)) eqn:E; [|done].
    apply cstyle_after in E as (y & u & Hy & Hp). rewrite Hz in Hy.
    injection Hy as <- <-. destruct (char_facts z) as (_ & _ & H & _).
    destruct (H Hp) as [_ Hn]. congruence.
  - intros Hi.
    destruct (matched (RX_FOR_CSTYLE line)) eqn:E; [|done].
    apply cstyle_after in E as (y & u & Hy & Hp).
    assert (Hz : ∃ z t, after_for line = z :: t ∧ is_ident_start z = true).
    { revert Hi. unfold RX_FOR_ITER, matched, pmatch.
      destruct (rmatch _ _ _ _ _ _) eqn:E; [|done]. intros _. cbn in E.
      inv_star E w0 s0 Hs0 Hw0.
      inv_char E s0 c1 s1 Hc1. inv_char E s1 c2 s2 Hc2. inv_char E s2 c3 s3 Hc3.
      inv_char E s3 c4 s4 Hc4.
      inv_star E w1 s5 Hs5 Hw1. inv_char E s5 z s6 Hz. clear E. subst s4.
      destruct (char_facts z) as (_ & _ & _ & Hid).
      exists z, s6. split; [|done].
      eapply (after_for_intro line w0 (c4 :: w1)); eauto.
      simpl. by rewrite Hc4. }
    destruct Hz as (z & t & Hz & Hid). rewrite Hz in Hy.
    injection Hy as <- <-. destruct (char_facts z) as (_ & _ & H & _).
    destruct (H Hp) as [_ Hn]. congruence.
Qed.

(** The blank-or-comment test, which comes first, takes no line that one
    of the six patterns matches. *)
Lemma pattern_not_blank line :
  is_header line || RX_END line || matched (RX_PRINT line)
  || matched (RX_ASSIGN line) = true →
  blank_or_comment line = false.
Proof.
  intros [[[H|H]%orb_true_iff|H]%orb_true_iff|H]%orb_true_iff.
  - apply is_header_first in H as (x & t & Hl & Hx).
    eapply visible_not_blank; [done|]. apply keyword_char_visible. by rewrite Hx.
  - apply RX_END_first in H as (x & t & Hl & Hx).
    eapply visible_not_blank; [done|]. apply keyword_char_visible.
    rewrite Hx. by rewrite orb_true_r.
  - apply RX_PRINT_first in H as (x & t & Hl & Hx).
    eapply visible_not_blank; [done|]. apply keyword_char_visible.
    rewrite Hx. by rewrite !orb_true_r.
  - apply RX_ASSIGN_first in H as (x & t & Hl & Hx).
    eapply visible_not_blank; [done|]. by apply ident_start_visible.
Qed.

Lemma header_not_blank line : is_header line = true → blank_or_comment line = false.
Proof. intros H. apply pattern_not_blank. by rewrite H. Qed.

Lemma end_not_blank line : RX_END line = true → blank_or_comment line = false.
Proof. intros H. apply pattern_not_blank. rewrite H. by rewrite orb_true_r. Qed.
End Chars.

(** ** Fuel: more fuel never changes a result *)

Lemma refines_refl {A} (m : M A) : refines m m.
Proof. intros st; by right. Qed.

Lemma refines_oof {A} (m : M A) : refines out_of_fuel m.
Proof. intros st; by left. Qed.

Lemma refines_bind {A B} (m m' : M A) (k k' : A → M B) :
  refines m m' → (∀ a, refines (k a) (k' a)) →
  refines (m ≫= k) (m' ≫= k').
Proof.
  intros Hm Hk st. unfold mbind, M_bind, bind.
  destruct (Hm st) as [-> | <-]; [by left|].
  destruct (m st); auto. apply Hk.
Qed.

Lemma refines_for_each {A} (b b' : A → M unit) (l : list A) :
  (∀ a, refines (b a) (b' a)) → refines (for_each b l) (for_each b' l).
Proof.
  intros Hb. induction l as [|x l IH]; simpl; [apply refines_refl|].
  apply refines_bind; auto.
Qed.

Lemma refines_result {A} (m m' : M A) st r :
  refines m m' → m st = r → r ≠ OutOfFuel → m' st = r.
Proof. intros H Hm Hr. destruct (H st) as [E|E]; congruence. Qed.

Ltac mono_tac IH :=
  repeat first
    [ apply refines_refl
    | apply refines_oof
    | apply IH
    | apply refines_for_each; intros ?
    | apply refines_bind; [|intros ?]
    | match goal with
      | |- refines (match ?x with _ => _ end) (match ?x with _ => _ end) =>
          destruct x
      end ].

Section Fuel.
Variable _eval : string → M value.

Lemma fuel_mono_all (f f' : nat) : (f ≤ f')%nat → mono_at _eval f f'.
Proof.
  revert f'. induction f as [|f IH]; intros f' Hle.
  - repeat split; intros; apply refines_oof.
  - destruct f' as [|f']; [lia|].
    destruct (IH f' ltac:(lia)) as (IH1 & IH2 & IH3 & IH4 & IH5).
    repeat split; intros; simpl.
    + mono_tac IH1. all: mono_tac IH2. all: mono_tac IH3.
      all: mono_tac IH4. all: mono_tac IH5.
    + mono_tac IH2. all: mono_tac IH5.
    + mono_tac IH3. all: mono_tac IH5.
    + mono_tac IH4. all: mono_tac IH5.
    + mono_tac IH5. all: mono_tac IH1.
Qed.

Lemma exec_lines_mono lines i : fuel_monotone (fun f => exec_lines _eval f lines i).
Proof. intros f f' H. apply (fuel_mono_all f f' H). Qed.

Lemma counter_up_mono var block n e s :
  fuel_monotone (fun f => counter_up _eval f var block n e s).
Proof. intros f f' H. apply (fuel_mono_all f f' H). Qed.

Lemma counter_down_mono var block n e s :
  fuel_monotone (fun f => counter_down _eval f var block n e s).
Proof. intros f f' H. apply (fuel_mono_all f f' H). Qed.

Lemma cstyle_loop_mono cond step block :
  fuel_monotone (fun f => cstyle_loop _eval f cond step block).
Proof. intros f f' H. apply (fuel_mono_all f f' H). Qed.

Lemma drive_mono lines j : fuel_monotone (fun f => drive _eval f lines j).
Proof. intros f f' H. apply (fuel_mono_all f f' H). Qed.

Lemma run_block_mono block : fuel_monotone (fun f => run_block _eval f block).
Proof. apply drive_mono. Qed.

End Fuel.

Lemma fuel_monotone_const {A} (m : M A) : fuel_monotone (fun _ => m).
Proof. intros f f' _. apply refines_refl. Qed.

Lemma fuel_monotone_bind {A B} (c : nat → M A) (k : nat → A → M B) :
  fuel_monotone c → (∀ a, fuel_monotone (fun f => k f a)) →
  fuel_monotone (fun f => c f ≫= k f).
Proof. intros Hc Hk f f' H. apply refines_bind; [by apply Hc|]. intros a. by apply Hk. Qed.

Lemma fuel_monotone_for_each {A} (body : nat → A → M unit) (l : list A) :
  (∀ a, fuel_monotone (fun f => body f a)) →
  fuel_monotone (fun f => for_each (body f) l).
Proof. intros Hb f f' H. apply refines_for_each. intros a. by apply Hb. Qed.

(** ** Results that some amount of fuel gives *)

Lemma evaluates_fuel {A} (c : nat → M A) st r f f' :
  fuel_monotone c → c f st = r → r ≠ OutOfFuel → (f ≤ f')%nat → c f' st = r.
Proof. intros Hc Hr Hne Hle. eapply refines_result; eauto. Qed.

Lemma evaluates_det {A} (c : nat → M A) st r r' :
  fuel_monotone c → evaluates c st r → evaluates c st r' → r = r'.
Proof.
  intros Hc [Hr [f Hf]] [Hr' [f' Hf']].
  pose proof (evaluates_fuel c st r f (f + f')%nat Hc Hf Hr ltac:(lia)).
  pose proof (evaluates_fuel c st r' f' (f + f')%nat Hc Hf' Hr' ltac:(lia)).
  congruence.
Qed.

Lemma evaluates_S {A} (c : nat → M A) st r :
  fuel_monotone c → evaluates (fun f => c (S f)) st r ↔ evaluates c st r.
Proof.
  intros Hc. split; intros [Hr [f Hf]]; split; auto.
  - by exists (S f).
  - exists f. eapply evaluates_fuel; eauto.
Qed.

Lemma evaluates_bind {A B} (c : nat → M A) (k : nat → A → M B) st r :
  fuel_monotone c → (∀ a, fuel_monotone (fun f => k f a)) →
  evaluates (fun f => c f ≫= k f) st r
  ↔ and_then (evaluates c) (fun a => evaluates (fun f => k f a)) st r.
Proof.
  intros Hc Hk. split.
  - intros [Hr [f Hf]]. unfold mbind, M_bind, bind in Hf.
    destruct (c f st) as [a st'|e st'|] eqn:E.
    + left. exists a, st'. split; split; eauto.
    + right. exists e, st'. split; [split; eauto|done].
    + congruence.
  - intros [(a & st' & [_ [f1 H1]] & [Hr [f2 H2]]) | (e & st' & [_ [f1 H1]] & ->)].
    + split; [done|]. exists (f1 + f2)%nat. unfold mbind, M_bind, bind.
      rewrite (evaluates_fuel c st _ f1 (f1 + f2)%nat Hc H1 ltac:(done) ltac:(lia)).
      apply (evaluates_fuel (fun f => k f a) st' r f2); auto. lia.
    + split; [done|]. exists f1. unfold mbind, M_bind, bind. by rewrite H1.
Qed.

Lemma evaluates_once_bind {A B} (m : M A) (k : nat → A → M B) st r :
  evaluates (fun f => m ≫= k f) st r
  ↔ and_then (once m) (fun a => evaluates (fun f => k f a)) st r.
Proof.
  unfold and_then, once, evaluates, mbind, M_bind, bind. split.
  - intros [Hr [f Hf]]. destruct (m st) as [a st'|e st'|] eqn:E.
    + left. exists a, st'. eauto.
    + right. exists e, st'. eauto.
    + congruence.
  - intros [(a & st' & [-> _] & [Hr [f2 H2]]) | (e & st' & [-> _] & ->)].
    + eauto.
    + split; [done|]. by exists 0%nat.
Qed.

Lemma evaluates_const {A} (m : M A) st r :
  evaluates (fun _ => m) st r ↔ once m st r.
Proof.
  unfold evaluates, once. split.
  - intros [Hr [_ H]]. done.
  - intros [H Hr]. split; [done|]. by exists 0%nat.
Qed.

Lemma evaluates_for_each var (body : nat → M unit) l st r :
  fuel_monotone body →
  evaluates (fun f => for_each (fun v => set_env var v;; body f) l) st r
  ↔ foreach_spec var (evaluates body) l st r.
Proof.
  intros Hb. revert st r. induction l as [|v l IH]; intros st r; simpl.
  - rewrite evaluates_const. unfold once. split.
    + intros [<- _]. constructor.
    + inversion 1; subst. done.
  - rewrite (evaluates_bind (fun f => set_env var v;; body f)
               (fun f _ => for_each (fun v => set_env var v;; body f) l)).
    2: { apply (fuel_monotone_bind (fun _ => set_env var v) (fun f _ => body f));
         [apply fuel_monotone_const|done]. }
    2: { intros _. apply (fuel_monotone_for_each (fun f v => set_env var v;; body f)).
         intros a. apply (fuel_monotone_bind (fun _ => set_env var a) (fun f _ => body f));
         [apply fuel_monotone_const|done]. }
    assert (Hset : ∀ r', evaluates (fun f => set_env var v;; body f) st r'
                     ↔ evaluates body (bound var v st) r').
    { intros r'. split; intros [Hr [f Hf]]; (split; [done|by exists f]). }
    split.
    + intros [(a & st' & H1 & H2) | (e & st' & H1 & ->)].
      * destruct a. eapply foreach_next; [by apply Hset|by apply IH].
      * apply foreach_raise. by apply Hset.
    + inversion 1; subst.
      * right. eexists _, _. split; [by apply Hset|done].
      * left. exists tt, st'. split; [by apply Hset|by apply IH].
Qed.

(** ** The block matcher *)

Lemma depth_delta_cases l :
  (is_header l = true ∧ RX_END l = false ∧ depth_delta l = 1)
  ∨ (is_header l = false ∧ RX_END l = true ∧ depth_delta l = -1)
  ∨ (is_header l = false ∧ RX_END l = false ∧ depth_delta l = 0).
Proof.
  unfold depth_delta. destruct (RX_END l) eqn:He.
  - rewrite (end_not_header l He). auto.
  - destruct (is_header l); auto.
Qed.

Lemma depth_after_shift d ls : depth_after d ls = d + depth_after 0 ls.
Proof.
  unfold depth_after. revert d. induction ls as [|l ls IH]; intros d; simpl; [lia|].
  rewrite (IH (d + _)), (IH (0 + _)). lia.
Qed.

Lemma depth_after_app d ls ls' :
  depth_after d (ls ++ ls') = depth_after (depth_after d ls) ls'.
Proof. unfold depth_after. apply fold_left_app. Qed.

Lemma depth_after_cons d l ls :
  depth_after d (l :: ls) = depth_after (d + depth_delta l) ls.
Proof. done. Qed.

(** One step of the scan, with the counter written as in the specification. *)
Lemma collect_scan_cons l rest i block d :
  collect_scan (l :: rest) i block d =
    if RX_END l && (d + depth_delta l =? 0) then Some (block, (i + 1)%nat)
    else collect_scan rest (i + 1)%nat (block ++ [l]) (d + depth_delta l).
Proof.
  simpl. destruct (depth_delta_cases l) as [(-> & -> & ->)|[(-> & -> & ->)|(-> & -> & ->)]];
    simpl; rewrite ?Z.add_0_r; done.
Qed.

Lemma collect_scan_spec rest i block d b k :
  1 ≤ d →
  collect_scan rest i block d = Some (b, k)
  ↔ ∃ n, k = (i + n + 1)%nat ∧ (n < length rest)%nat
         ∧ b = block ++ take n rest
         ∧ depth_after d (take (S n) rest) = 0
         ∧ ∀ m, (m < n)%nat → 0 < depth_after d (take (S m) rest).
Proof.
  revert i block d. induction rest as [|l rest IH]; intros i block d Hd.
  - simpl. split; [done|]. intros (n & _ & Hn & _). simpl in Hn. lia.
  - rewrite collect_scan_cons.
    assert (Hstep : 0 ≤ d + depth_delta l ∧
              (d + depth_delta l = 0 → RX_END l = true)).
    { destruct (depth_delta_cases l) as [(_ & -> & ->)|[(_ & -> & ->)|(_ & -> & ->)]];
        split; try lia; done. }
    destruct Hstep as [Hge Hz].
    destruct (RX_END l && (d + depth_delta l =? 0)) eqn:E.
    + apply andb_true_iff in E as [_ E%Z.eqb_eq]. split.
      * intros [= <- <-]. exists 0%nat. simpl.
        rewrite app_nil_r. split_and!; try done; try lia.
      * intros (n & -> & _ & -> & Hn & Hpos). destruct n as [|n].
        -- simpl. rewrite app_nil_r. do 2 f_equal. lia.
        -- specialize (Hpos 0%nat ltac:(lia)). simpl in Hpos.
           unfold depth_after in Hpos. simpl in Hpos. lia.
    + assert (Hne : d + depth_delta l ≠ 0).
      { intros H0. rewrite (Hz H0) in E. simpl in E. apply Z.eqb_neq in E. done. }
      rewrite IH by lia. split.
      * intros (n & -> & Hn & -> & H0 & Hpos). exists (S n).
        split_and!; simpl; try lia.
        -- by rewrite <- app_assoc.
        -- intros m Hm. destruct m as [|m].
           ++ unfold depth_after. simpl. lia.
           ++ apply (Hpos m). lia.
      * intros (n & -> & Hn & -> & H0 & Hpos). destruct n as [|n].
        -- unfold depth_after in H0. simpl in H0. lia.
        -- exists n. simpl in Hn. split_and!; try lia.
           ++ simpl. by rewrite <- app_assoc.
           ++ done.
           ++ intros m Hm. apply (Hpos (S m)). lia.
Qed.

Lemma collect_scan_none rest i block d :
  1 ≤ d → collect_scan rest i block d = None →
  ∀ n, (n ≤ length rest)%nat → 0 < depth_after d (take n rest).
Proof.
  revert i block d. induction rest as [|l rest IH]; intros i block d Hd.
  - intros _ n Hn. simpl in Hn. replace n with 0%nat by lia. simpl.
    unfold depth_after. simpl. lia.
  - rewrite collect_scan_cons.
    destruct (RX_END l && (d + depth_delta l =? 0)) eqn:E; [done|].
    intros Hnone n Hn. destruct n as [|n]; [unfold depth_after; simpl; lia|].
    rewrite firstn_cons, depth_after_cons. eapply IH; [|done|simpl in Hn; lia].
    destruct (depth_delta_cases l) as [(_ & He & Hdl)|[(_ & He & Hdl)|(_ & He & Hdl)]];
      rewrite Hdl; try lia.
    rewrite He, Hdl in E. simpl in E. apply Z.eqb_neq in E. lia.
Qed.

Lemma collect_block_done lines i st block k :
  collect_block lines i st = Done (block, k) st
  ↔ collect_scan (drop i lines) i [] 1 = Some (block, k).
Proof.
  unfold collect_block. destruct (collect_scan _ _ _ _) as [[b' k']|]; simpl.
  - unfold mret, M_ret, ret. split; [by intros [= -> ->]|by intros [= -> ->]].
  - unfold raise. split; discriminate.
Qed.

Lemma collect_block_raise lines i st :
  collect_scan (drop i lines) i [] 1 = None →
  collect_block lines i st = Raise (SyntaxError "missing 'end'") st.
Proof. unfold collect_block. by intros ->. Qed.

Lemma collect_scan_matching lines i block k :
  collect_scan (drop i lines) i [] 1 = Some (block, k)
  ↔ ∃ j, matching_end lines i j ∧ k = (j + 1)%nat
         ∧ block = take (j - i) (drop i lines).
Proof.
  rewrite collect_scan_spec by lia. unfold matching_end. split.
  - intros (n & -> & Hn & -> & H0 & Hpos). rewrite length_drop in Hn.
    exists (i + n)%nat. replace (S (i + n) - i)%nat with (S n) by lia.
    replace (i + n - i)%nat with n by lia. split_and!; try done; try lia.
    intros j' Hj'. replace (S j' - i)%nat with (S (j' - i)) by lia.
    apply Hpos. lia.
  - intros (j & ((Hij & Hj) & H0 & Hpos) & -> & ->).
    exists (j - i)%nat. rewrite length_drop.
    replace (S j - i)%nat with (S (j - i)) in H0 by lia.
    split_and!; try done; try lia.
    intros m Hm. specialize (Hpos (i + m)%nat ltac:(lia)).
    by replace (S (i + m) - i)%nat with (S m) in Hpos by lia.
Qed.

Lemma matching_end_unique lines i j j' :
  matching_end lines i j → matching_end lines i j' → j = j'.
Proof.
  intros (Hj & H0 & Hpos) (Hj' & H0' & Hpos').
  destruct (Nat.lt_trichotomy j j') as [Hlt|[->|Hlt]]; [|done|].
  - specialize (Hpos' j ltac:(lia)). lia.
  - specialize (Hpos j' ltac:(lia)). lia.
Qed.

(** The line at a matching end is a terminator. *)
Lemma matching_end_is_end lines i j :
  matching_end lines i j → ∃ e, lines !! j = Some e ∧ RX_END e = true.
Proof.
  intros ((Hij & Hj) & H0 & Hpos).
  destruct (lookup_lt_is_Some_2 lines j Hj) as [e He]. exists e. split; [done|].
  assert (Hsplit : take (S j - i) (drop i lines) = take (j - i) (drop i lines) ++ [e]).
  { replace (S j - i)%nat with (S (j - i)) by lia.
    erewrite take_S_r; [done|]. rewrite lookup_drop.
    by replace (i + (j - i))%nat with j by lia. }
  rewrite Hsplit, depth_after_app in H0. unfold depth_after at 1 in H0. simpl in H0.
  assert (Hprev : 1 ≤ depth_after 1 (take (j - i) (drop i lines))).
  { destruct (decide (j = i)) as [->|Hne].
    - rewrite Nat.sub_diag. unfold depth_after. simpl. lia.
    - specialize (Hpos (j - 1)%nat ltac:(lia)).
      replace (S (j - 1) - i)%nat with (j - i)%nat in Hpos by lia. lia. }
  destruct (depth_delta_cases e) as [(_ & _ & Hd)|[(_ & He' & _)|(_ & _ & Hd)]];
    [lia|done|lia].
Qed.

(** A header inside a matched body has its own terminator inside that body,
    and matching it within the extracted body gives the same lines. *)
Lemma nested_match lines i j p h :
  matching_end lines i j → (i ≤ p < j)%nat →
  lines !! p = Some h → is_header h = true →
  ∃ q, (p < q < j)%nat ∧ matching_end lines (p + 1) q
       ∧ collect_scan (drop (p - i + 1) (take (j - i) (drop i lines)))
           (p - i + 1) [] 1
         = Some (take (q - (p + 1)) (drop (p + 1) lines), (q - i + 1)%nat).
Proof.
  intros ((Hij & Hj) & H0 & Hpos) Hp Hh Hhead.
  remember (drop i lines) as rest eqn:Erest.
  remember (p - i)%nat as a eqn:Ea.
  remember (drop (p + 1) lines) as rest' eqn:Erest'.
  assert (Hrest' : rest' = drop (S a) rest).
  { rewrite Erest', Erest, drop_drop. f_equal. lia. }
  assert (Hlen' : length rest' = (length lines - (p + 1))%nat)
    by (rewrite Erest'; by rewrite length_drop).
  (* depth just after the nested header *)
  assert (Ha : take (S a) rest = take a rest ++ [h]).
  { erewrite take_S_r; [done|]. rewrite Erest, lookup_drop.
    by replace (i + a)%nat with p by lia. }
  assert (HDp : 2 ≤ depth_after 1 (take (S a) rest)).
  { rewrite Ha, depth_after_app. unfold depth_after at 1. simpl.
    assert (1 ≤ depth_after 1 (take a rest)).
    { destruct (decide (a = 0%nat)) as [->|Hne].
      - unfold depth_after. simpl. lia.
      - specialize (Hpos (p - 1)%nat ltac:(lia)).
        replace (S (p - 1) - i)%nat with a in Hpos by lia. lia. }
    destruct (depth_delta_cases h) as [(_ & _ & Hd)|[(Hc & _)|(Hc & _)]];
      [lia|congruence|congruence]. }
  assert (Hsplit : ∀ m, take (S a + m) rest = take (S a) rest ++ take m rest').
  { intros m. rewrite Hrest'. by rewrite take_take_drop. }
  assert (Hrel : ∀ m, depth_after 1 (take (S a + m) rest)
                      = depth_after 1 (take (S a) rest) - 1
                        + depth_after 1 (take m rest')).
  { intros m. rewrite Hsplit, depth_after_app.
    rewrite (depth_after_shift (depth_after _ _)), (depth_after_shift 1 (take m _)). lia. }
  assert (Hneg : depth_after 1 (take (j - p) rest') ≤ -1).
  { specialize (Hrel (j - p)%nat).
    assert (Hx : (S a + (j - p))%nat = (S j - i)%nat) by lia.
    rewrite Hx in Hrel. lia. }
  destruct (collect_scan rest' (p + 1) [] 1) as [[b k]|] eqn:E.
  2: { pose proof (collect_scan_none rest' (p + 1)%nat [] 1 ltac:(lia) E (j - p)%nat) as Hc.
       rewrite Hlen' in Hc. specialize (Hc ltac:(lia)). lia. }
  apply collect_scan_spec in E as (n' & -> & Hn' & -> & Hz & Hp'); [|lia].
  assert (Hq : (S n' < j - p)%nat).
  { destruct (Nat.lt_trichotomy (S n') (j - p)) as [Hlt|[Heq|Hgt]]; [done| |].
    - rewrite <- Heq in Hneg. lia.
    - specialize (Hp' (j - p - 1)%nat ltac:(lia)).
      replace (S (j - p - 1)) with (j - p)%nat in Hp' by lia. lia. }
  exists (p + 1 + n')%nat. split; [lia|]. split.
  - unfold matching_end. rewrite <- Erest'. rewrite Hlen' in Hn'.
    replace (S (p + 1 + n') - (p + 1))%nat with (S n') by lia.
    split_and!; try lia; try done.
    intros j' Hj'. replace (S j' - (p + 1))%nat with (S (j' - (p + 1))) by lia.
    apply Hp'. lia.
  - replace (p + 1 + n' - (p + 1))%nat with n' by lia.
    replace (a + 1)%nat with (S a) by lia.
    apply collect_scan_spec; [lia|]. exists n'.
    assert (Hdrop : drop (S a) (take (j - i) rest) = take (j - i - S a) rest').
    { rewrite Hrest'. by rewrite skipn_firstn_comm. }
    rewrite Hdrop.
    assert (Hle : (S n' ≤ j - i - S a)%nat) by lia.
    split_and!.
    + lia.
    + rewrite length_take, Hlen'. lia.
    + simpl. rewrite take_take. f_equal. lia.
    + rewrite take_take. by replace (S n' `min` (j - i - S a))%nat with (S n') by lia.
    + intros m Hm. rewrite take_take.
      replace (S m `min` (j - i - S a))%nat with (S m) by lia. by apply Hp'.
Qed.

(** ** One step of the statement executor, by kind of line *)

Section Steps.
Variable _eval : string → M value.

Ltac step_tac Hl Hc :=
  simpl; rewrite Hl; unfold classify in Hc;
  repeat match type of Hc with
         | context [match ?x with _ => _ end] => destruct x eqn:?
         end;
  try discriminate Hc; inversion Hc; subst; reflexivity.

Lemma exec_lines_past_end f lines i :
  lines !! i = None → exec_lines _eval (S f) lines i = mret i.
Proof. intros Hl. simpl. by rewrite Hl. Qed.

Lemma exec_lines_blank f lines i raw :
  lines !! i = Some raw → classify (rstrip raw) = KBlank →
  exec_lines _eval (S f) lines i = exec_lines _eval f lines (i + 1)%nat.
Proof. intros Hl Hc. step_tac Hl Hc. Qed.

Lemma exec_lines_counter f lines i raw var start_s end_s step_s :
  lines !! i = Some raw →
  classify (rstrip raw) = KCounter var start_s end_s step_s →
  exec_lines _eval (S f) lines i =
    (start ← _eval start_s;
     end_ ← _eval end_s;
     step ← eval_step _eval step_s;
     if py_eq step (VInt 0)
     then raise (ValueError "by step cannot be 0")
     else
       '(block, i') ← collect_block lines (i + 1)%nat;
       up ← host (py_gt step (VInt 0));
       (if up : bool
        then counter_up _eval f var block start end_ step
        else counter_down _eval f var block start end_ step);;
       exec_lines _eval f lines i').
Proof. intros Hl Hc. step_tac Hl Hc. Qed.

Lemma exec_lines_iter f lines i raw var expr :
  lines !! i = Some raw → classify (rstrip raw) = KIter var expr →
  exec_lines _eval (S f) lines i =
    (it ← _eval expr;
     '(block, i') ← collect_block lines (i + 1)%nat;
     items ← host (py_iter it);
     for_each (fun v => set_env var v;; run_block _eval f block) items;;
     exec_lines _eval f lines i').
Proof. intros Hl Hc. step_tac Hl Hc. Qed.

Lemma exec_lines_cstyle f lines i raw init_s cond_s step_s :
  lines !! i = Some raw → classify (rstrip raw) = KCStyle init_s cond_s step_s →
  exec_lines _eval (S f) lines i =
    ('(block, i') ← collect_block lines (i + 1)%nat;
     run_clause _eval (do_assign init_s);;
     cstyle_loop _eval f (strip cond_s) (do_assign step_s) block;;
     exec_lines _eval f lines i').
Proof. intros Hl Hc. step_tac Hl Hc. Qed.

Lemma exec_lines_end f lines i raw :
  lines !! i = Some raw → classify (rstrip raw) = KEnd →
  exec_lines _eval (S f) lines i = mret i.
Proof. intros Hl Hc. step_tac Hl Hc. Qed.

Lemma exec_lines_print f lines i raw e :
  lines !! i = Some raw → classify (rstrip raw) = KPrint e →
  exec_lines _eval (S f) lines i =
    (val ← _eval e; print val;; exec_lines _eval f lines (i + 1)%nat).
Proof. intros Hl Hc. step_tac Hl Hc. Qed.

Lemma exec_lines_assign f lines i raw name rhs :
  lines !! i = Some raw → classify (rstrip raw) = KAssign name rhs →
  exec_lines _eval (S f) lines i =
    (v ← _eval rhs; set_env name v;; exec_lines _eval f lines (i + 1)%nat).
Proof. intros Hl Hc. step_tac Hl Hc. Qed.

Lemma exec_lines_unrecognized f lines i raw :
  lines !! i = Some raw → classify (rstrip raw) = KUnrecognized →
  exec_lines _eval (S f) lines i =
    raise (SyntaxError (unrecognized_msg i (rstrip raw))).
Proof. intros Hl Hc. step_tac Hl Hc. Qed.

End Steps.

(** Terminators and headers are classified as such. *)
Lemma classify_end line : RX_END line = true → classify line = KEnd.
Proof.
  intros He. unfold classify. rewrite (end_not_blank line He).
  pose proof (end_not_header line He) as Hh. unfold is_header in Hh.
  apply orb_false_iff in Hh as [[H1 H2]%orb_false_iff H3].
  destruct (RX_FOR_COUNTER line); [done|].
  destruct (RX_FOR_ITER line); [done|].
  destruct (RX_FOR_CSTYLE line); [done|]. by rewrite He.
Qed.

Lemma classify_counter line var start_s end_s step_s :
  RX_FOR_COUNTER line = Some (var, start_s, end_s, step_s) →
  classify line = KCounter var start_s end_s step_s.
Proof.
  intros Hc. unfold classify. rewrite header_not_blank, Hc; [done|].
  unfold is_header. by rewrite Hc.
Qed.

Lemma classify_iter line var expr :
  RX_FOR_ITER line = Some (var, expr) → classify line = KIter var expr.
Proof.
  intros Hi. unfold classify. rewrite header_not_blank.
  2: { unfold is_header. rewrite Hi. by rewrite orb_true_r. }
  destruct (headers_exclusive line) as (Hci & _).
  destruct (RX_FOR_COUNTER line) as [c|]; [|by rewrite Hi].
  specialize (Hci eq_refl). by rewrite Hi in Hci.
Qed.

Lemma classify_cstyle line init_s cond_s step_s :
  RX_FOR_CSTYLE line = Some (init_s, cond_s, step_s) →
  classify line = KCStyle init_s cond_s step_s.
Proof.
  intros Hc. unfold classify. rewrite header_not_blank.
  2: { unfold is_header. rewrite Hc. by rewrite orb_true_r. }
  destruct (headers_exclusive line) as (_ & Hcc & Hic).
  destruct (RX_FOR_COUNTER line) as [c|].
  { specialize (Hcc eq_refl). by rewrite Hc in Hcc. }
  destruct (RX_FOR_ITER line) as [c|]; [|by rewrite Hc].
  specialize (Hic eq_refl). by rewrite Hc in Hic.
Qed.

(** ** The values of a counter loop *)

Lemma count_step (x c : Z) :
  0 ≤ x → 0 < c →
  Z.to_nat (x / c + 1)
  = S (if c <=? x then Z.to_nat ((x - c) / c + 1) else 0%nat).
Proof.
  intros Hx Hc. destruct (c <=? x) eqn:E.
  - apply Z.leb_le in E.
    replace x with ((x - c) + 1 * c) at 1 by lia.
    rewrite Z.div_add by lia.
    pose proof (Z.div_pos (x - c) c ltac:(lia) ltac:(lia)). lia.
  - apply Z.leb_gt in E. rewrite Z.div_small by lia. done.
Qed.

Lemma counter_values_shift (A K : Z) (c : nat) :
  map (fun k => A + Z.of_nat k * K) (seq 0 (S c))
  = A :: map (fun k => (A + K) + Z.of_nat k * K) (seq 0 c).
Proof.
  simpl. f_equal; [lia|]. rewrite <- seq_shift, map_map.
  apply map_ext. intros k. lia.
Qed.

Lemma counter_values_up_nil (A B K : Z) :
  0 < K → B < A → counter_values A B K = [].
Proof.
  intros HS HB. unfold counter_values, counter_count.
  rewrite (proj2 (Z.ltb_lt 0 K) HS), (proj2 (Z.leb_gt A B) HB). done.
Qed.

Lemma counter_values_up_cons (A B K : Z) :
  0 < K → A ≤ B →
  counter_values A B K = A :: counter_values (A + K) B K.
Proof.
  intros HS HB. unfold counter_values, counter_count.
  rewrite (proj2 (Z.ltb_lt 0 K) HS), (proj2 (Z.leb_le A B) HB).
  rewrite count_step by lia. rewrite counter_values_shift. do 2 f_equal.
  destruct (K <=? B - A) eqn:E.
  - apply Z.leb_le in E. rewrite (proj2 (Z.leb_le (A + K) B)) by lia.
    by replace (B - (A + K)) with (B - A - K) by lia.
  - apply Z.leb_gt in E. by rewrite (proj2 (Z.leb_gt (A + K) B)) by lia.
Qed.

Lemma counter_values_down_nil (A B K : Z) :
  K < 0 → A < B → counter_values A B K = [].
Proof.
  intros HS HB. unfold counter_values, counter_count.
  rewrite (proj2 (Z.ltb_ge 0 K)) by lia.
  rewrite (proj2 (Z.ltb_lt K 0) HS), (proj2 (Z.leb_gt B A) HB). done.
Qed.

Lemma counter_values_down_cons (A B K : Z) :
  K < 0 → B ≤ A →
  counter_values A B K = A :: counter_values (A + K) B K.
Proof.
  intros HS HB. unfold counter_values, counter_count.
  rewrite (proj2 (Z.ltb_ge 0 K)) by lia.
  rewrite (proj2 (Z.ltb_lt K 0) HS), (proj2 (Z.leb_le B A) HB).
  rewrite count_step by lia. rewrite counter_values_shift. do 2 f_equal.
  destruct (- K <=? A - B) eqn:E.
  - apply Z.leb_le in E. rewrite (proj2 (Z.leb_le B (A + K))) by lia.
    by replace (A + K - B) with (A - B - - K) by lia.
  - apply Z.leb_gt in E. by rewrite (proj2 (Z.leb_gt B (A + K))) by lia.
Qed.

(** The values are [A + k * K] for [k = 0, 1, ...], and exactly those that
    have not passed [B]. *)
Lemma counter_values_lookup (A B K : Z) (k : nat) (z : Z) :
  counter_values A B K !! k = Some z → z = A + Z.of_nat k * K.
Proof.
  unfold counter_values. rewrite list_lookup_fmap.
  intros [j [Hj ->]]%fmap_Some. apply lookup_seq in Hj as [-> _]. done.
Qed.

Lemma counter_values_length_up (A B K : Z) (k : nat) :
  0 < K → (k < length (counter_values A B K))%nat ↔ A + Z.of_nat k * K ≤ B.
Proof.
  intros HS. unfold counter_values, counter_count.
  rewrite length_map, length_seq, (proj2 (Z.ltb_lt 0 K) HS).
  destruct (A <=? B) eqn:E.
  - apply Z.leb_le in E.
    pose proof (Z.div_pos (B - A) K ltac:(lia) ltac:(lia)) as Hq.
    pose proof (Z.mul_div_le (B - A) K HS).
    pose proof (Z.mul_succ_div_gt (B - A) K HS).
    split; intros Hk; nia.
  - apply Z.leb_gt in E. split; [lia|nia].
Qed.

Lemma counter_values_length_down (A B K : Z) (k : nat) :
  K < 0 → (k < length (counter_values A B K))%nat ↔ B ≤ A + Z.of_nat k * K.
Proof.
  intros HS. unfold counter_values, counter_count.
  rewrite length_map, length_seq, (proj2 (Z.ltb_ge 0 K)) by lia.
  rewrite (proj2 (Z.ltb_lt K 0) HS).
  destruct (B <=? A) eqn:E.
  - apply Z.leb_le in E.
    pose proof (Z.div_pos (A - B) (- K) ltac:(lia) ltac:(lia)) as Hq.
    pose proof (Z.mul_div_le (A - B) (- K) ltac:(lia)).
    pose proof (Z.mul_succ_div_gt (A - B) (- K) ltac:(lia)).
    split; intros Hk; nia.
  - apply Z.leb_gt in E. split; [lia|nia].
Qed.

(** ** The counter loop *)

Lemma py_le_int a b : py_le (VInt a) (VInt b) = Some (a <=? b).
Proof. unfold py_le, Z.leb. simpl. by destruct (a ?= b). Qed.

Lemma py_ge_int a b : py_ge (VInt a) (VInt b) = Some (b <=? a).
Proof.
  unfold py_ge. simpl. rewrite <- Z.geb_leb. unfold Z.geb. by destruct (a ?= b).
Qed.

Lemma py_gt_int a b : py_gt (VInt a) (VInt b) = Some (b <? a).
Proof.
  unfold py_gt. simpl. rewrite <- Z.gtb_ltb. unfold Z.gtb. by destruct (a ?= b).
Qed.

Lemma py_eq_int a b : py_eq (VInt a) (VInt b) = (a =? b).
Proof. done. Qed.

Section CounterLoop.
Variable _eval : string → M value.
Variables (var : string) (block : list string).

Lemma counter_up_S f n B K st :
  counter_up _eval (S f) var block (VInt n) (VInt B) (VInt K) st =
    if n <=? B then
      match run_block _eval f block (bound var (VInt n) st) with
      | Done _ st' => counter_up _eval f var block (VInt (n + K)) (VInt B) (VInt K) st'
      | Raise e st' => Raise e st'
      | OutOfFuel => OutOfFuel
      end
    else Done tt st.
Proof.
  simpl. unfold mbind, M_bind, bind. rewrite py_le_int. simpl.
  destruct (n <=? B); [|done]. unfold set_env, bound, run_block.
  by destruct (drive _ _ _ _ _).
Qed.

Lemma counter_down_S f n B K st :
  counter_down _eval (S f) var block (VInt n) (VInt B) (VInt K) st =
    if B <=? n then
      match run_block _eval f block (bound var (VInt n) st) with
      | Done _ st' => counter_down _eval f var block (VInt (n + K)) (VInt B) (VInt K) st'
      | Raise e st' => Raise e st'
      | OutOfFuel => OutOfFuel
      end
    else Done tt st.
Proof.
  simpl. unfold mbind, M_bind, bind. rewrite py_ge_int. simpl.
  destruct (B <=? n); [|done]. unfold set_env, bound, run_block.
  by destruct (drive _ _ _ _ _).
Qed.

Lemma counter_up_sound f : ∀ n B K st r,
  0 < K → r ≠ OutOfFuel →
  counter_up _eval f var block (VInt n) (VInt B) (VInt K) st = r →
  foreach_spec var (runs_block _eval block) (map VInt (counter_values n B K)) st r.
Proof.
  induction f as [|f IH]; intros n B K st r HS Hr; [by intros <-|].
  rewrite counter_up_S. destruct (n <=? B) eqn:E.
  - apply Z.leb_le in E. rewrite counter_values_up_cons by done. simpl.
    destruct (run_block _ _ _ _) as [[] st'|e st'|] eqn:Eb.
    + intros H. eapply foreach_next; [|by eapply IH].
      split; [done|by exists f].
    + intros <-. apply foreach_raise. split; [done|by exists f].
    + by intros <-.
  - apply Z.leb_gt in E. rewrite counter_values_up_nil by done.
    intros <-. constructor.
Qed.

Lemma counter_down_sound f : ∀ n B K st r,
  K < 0 → r ≠ OutOfFuel →
  counter_down _eval f var block (VInt n) (VInt B) (VInt K) st = r →
  foreach_spec var (runs_block _eval block) (map VInt (counter_values n B K)) st r.
Proof.
  induction f as [|f IH]; intros n B K st r HS Hr; [by intros <-|].
  rewrite counter_down_S. destruct (B <=? n) eqn:E.
  - apply Z.leb_le in E. rewrite counter_values_down_cons by done. simpl.
    destruct (run_block _ _ _ _) as [[] st'|e st'|] eqn:Eb.
    + intros H. eapply foreach_next; [|by eapply IH].
      split; [done|by exists f].
    + intros <-. apply foreach_raise. split; [done|by exists f].
    + by intros <-.
  - apply Z.leb_gt in E. rewrite counter_values_down_nil by done.
    intros <-. constructor.
Qed.

Lemma counter_up_complete (c : nat) : ∀ n B K st r,
  0 < K → length (counter_values n B K) = c →
  foreach_spec var (runs_block _eval block) (map VInt (counter_values n B K)) st r →
  evaluates (fun f => counter_up _eval f var block (VInt n) (VInt B) (VInt K)) st r.
Proof.
  induction c as [|c IH]; intros n B K st r HS Hlen.
  - destruct (Z.le_gt_cases n B) as [Hle|Hgt].
    { rewrite counter_values_up_cons in Hlen by done. done. }
    rewrite counter_values_up_nil by done. inversion 1; subst.
    split; [done|]. exists 1%nat. rewrite counter_up_S.
    by rewrite (proj2 (Z.leb_gt n B)).
  - destruct (Z.le_gt_cases n B) as [Hle|Hgt].
    2: { rewrite counter_values_up_nil in Hlen by done. done. }
    rewrite counter_values_up_cons in * by done. simpl in Hlen. simpl.
    inversion 1 as [|v l st0 e st' [_ [f1 Hb]]|v l st0 st' r0 [_ [f1 Hb]] Hrest]; subst.
    + split; [done|]. exists (S f1). rewrite counter_up_S.
      rewrite (proj2 (Z.leb_le n B)) by done. by rewrite Hb.
    + apply IH in Hrest as [Hr [f2 H2]]; [|done|lia].
      split; [done|]. exists (S (f1 + f2)). rewrite counter_up_S.
      rewrite (proj2 (Z.leb_le n B)) by done.
      rewrite (evaluates_fuel _ _ _ f1 (f1 + f2)%nat
                 (run_block_mono _eval block) Hb ltac:(done) ltac:(lia)).
      apply (evaluates_fuel _ _ _ f2 (f1 + f2)%nat
               (counter_up_mono _eval var block _ _ _) H2 Hr ltac:(lia)).
Qed.

Lemma counter_down_complete (c : nat) : ∀ n B K st r,
  K < 0 → length (counter_values n B K) = c →
  foreach_spec var (runs_block _eval block) (map VInt (counter_values n B K)) st r →
  evaluates (fun f => counter_down _eval f var block (VInt n) (VInt B) (VInt K)) st r.
Proof.
  induction c as [|c IH]; intros n B K st r HS Hlen.
  - destruct (Z.le_gt_cases B n) as [Hle|Hgt].
    { rewrite counter_values_down_cons in Hlen by done. done. }
    rewrite counter_values_down_nil by done. inversion 1; subst.
    split; [done|]. exists 1%nat. rewrite counter_down_S.
    by rewrite (proj2 (Z.leb_gt B n)).
  - destruct (Z.le_gt_cases B n) as [Hle|Hgt].
    2: { rewrite counter_values_down_nil in Hlen by done. done. }
    rewrite counter_values_down_cons in * by done. simpl in Hlen. simpl.
    inversion 1 as [|v l st0 e st' [_ [f1 Hb]]|v l st0 st' r0 [_ [f1 Hb]] Hrest]; subst.
    + split; [done|]. exists (S f1). rewrite counter_down_S.
      rewrite (proj2 (Z.leb_le B n)) by done. by rewrite Hb.
    + apply IH in Hrest as [Hr [f2 H2]]; [|done|lia].
      split; [done|]. exists (S (f1 + f2)). rewrite counter_down_S.
      rewrite (proj2 (Z.leb_le B n)) by done.
      rewrite (evaluates_fuel _ _ _ f1 (f1 + f2)%nat
                 (run_block_mono _eval block) Hb ltac:(done) ltac:(lia)).
      apply (evaluates_fuel _ _ _ f2 (f1 + f2)%nat
               (counter_down_mono _eval var block _ _ _) H2 Hr ltac:(lia)).
Qed.

(** The counter loop of the source runs the body once for each counter
    value, in order. *)
Lemma counter_loop_spec n B K st r :
  K ≠ 0 →
  evaluates (fun f => if 0 <? K
                      then counter_up _eval f var block (VInt n) (VInt B) (VInt K)
                      else counter_down _eval f var block (VInt n) (VInt B) (VInt K))
            st r
  ↔ foreach_spec var (runs_block _eval block) (map VInt (counter_values n B K)) st r.
Proof.
  intros HS. destruct (0 <? K) eqn:E.
  - apply Z.ltb_lt in E. split.
    + intros [Hr [f Hf]]. by eapply counter_up_sound.
    + by eapply counter_up_complete.
  - apply Z.ltb_ge in E. split.
    + intros [Hr [f Hf]]. eapply counter_down_sound; [lia|done..].
    + eapply counter_down_complete; [lia|done].
Qed.

End CounterLoop.

Lemma evaluates_change {A} (c c' : nat → M A) st st' r :
  (∀ f, c f st = c' f st') → evaluates c st r ↔ evaluates c' st' r.
Proof.
  intros H. split; intros [Hr [f Hf]]; split; auto; exists f; by rewrite <- Hf, H.
Qed.

Lemma and_then_iff {A B} (R R' : state → result A → Prop)
    (K K' : A → state → result B → Prop) st r :
  (∀ st r, R st r ↔ R' st r) → (∀ a st r, K a st r ↔ K' a st r) →
  and_then R K st r ↔ and_then R' K' st r.
Proof.
  intros HR HK. unfold and_then. split.
  - intros [(a & st' & H1 & H2)|(e & st' & H1 & ->)].
    + left. exists a, st'. split; [by apply HR|by apply HK].
    + right. exists e, st'. split; [by apply HR|done].
  - intros [(a & st' & H1 & H2)|(e & st' & H1 & ->)].
    + left. exists a, st'. split; [by apply HR|by apply HK].
    + right. exists e, st'. split; [by apply HR|done].
Qed.

(** A loop over no element goes straight on. *)
Lemma and_then_skip {B} var (body : state → result unit → Prop)
    (K : unit → state → result B → Prop) st r :
  and_then (foreach_spec var body []) K st r ↔ K tt st r.
Proof.
  unfold and_then. split.
  - intros [(a & st' & Hf & Hk)|(e & st' & Hf & ->)]; inversion Hf; by subst.
  - intros Hk. left. exists tt, st. split; [constructor|done].
Qed.

(** ** The three loop forms at their header line *)

Section Headers.
Variable _eval : string → M value.

Lemma continues_S lines i st r :
  evaluates (fun f => exec_lines _eval (S f) lines i) st r
  ↔ continues _eval lines i st r.
Proof. apply (evaluates_S (fun f => exec_lines _eval f lines i)), exec_lines_mono. Qed.

Lemma counter_header lines i raw var start_s end_s step_s A B K st st1 st2 st3
    block i' r :
  lines !! i = Some raw →
  classify (rstrip raw) = KCounter var start_s end_s step_s →
  _eval start_s st = Done (VInt A) st1 →
  _eval end_s st1 = Done (VInt B) st2 →
  eval_step _eval step_s st2 = Done (VInt K) st3 →
  K ≠ 0 →
  collect_block lines (i + 1) st3 = Done (block, i') st3 →
  continues _eval lines i st r
  ↔ and_then
      (foreach_spec var (runs_block _eval block) (map VInt (counter_values A B K)))
      (fun _ => continues _eval lines i') st3 r.
Proof.
  intros Hl Hc H1 H2 H3 HS Hb.
  rewrite <- continues_S.
  rewrite (evaluates_change _
             (fun f => (if 0 <? K
                        then counter_up _eval f var block (VInt A) (VInt B) (VInt K)
                        else counter_down _eval f var block (VInt A) (VInt B) (VInt K))
                       ≫= fun _ => exec_lines _eval f lines i') st st3).
  2: { intros f. rewrite (exec_lines_counter _ _ _ _ _ _ _ _ _ Hl Hc).
       unfold mbind, M_bind, bind. rewrite H1, H2, H3, py_eq_int.
       rewrite (proj2 (Z.eqb_neq K 0) HS), Hb, py_gt_int. simpl.
       by destruct (0 <? K). }
  rewrite (evaluates_bind _ (fun f _ => exec_lines _eval f lines i')).
  2: { destruct (0 <? K); [apply counter_up_mono|apply counter_down_mono]. }
  2: { intros _. apply exec_lines_mono. }
  apply and_then_iff; [|done].
  intros st' r'. by apply counter_loop_spec.
Qed.

Lemma iter_header lines i raw var expr it items st st1 block i' r :
  lines !! i = Some raw →
  classify (rstrip raw) = KIter var expr →
  _eval expr st = Done it st1 →
  py_iter it = Some items →
  collect_block lines (i + 1) st1 = Done (block, i') st1 →
  continues _eval lines i st r
  ↔ and_then (foreach_spec var (runs_block _eval block) items)
      (fun _ => continues _eval lines i') st1 r.
Proof.
  intros Hl Hc H1 Hit Hb.
  rewrite <- continues_S.
  rewrite (evaluates_change _
             (fun f => for_each (fun v => set_env var v;; run_block _eval f block) items
                       ≫= fun _ => exec_lines _eval f lines i') st st1).
  2: { intros f. rewrite (exec_lines_iter _ _ _ _ _ _ _ Hl Hc).
       unfold mbind at 1 2 3, M_bind at 1 2 3, bind at 1 2 3.
       rewrite H1, Hb, Hit. done. }
  rewrite (evaluates_bind _ (fun f _ => exec_lines _eval f lines i')).
  2: { apply (fuel_monotone_for_each
                (fun f v => set_env var v;; run_block _eval f block)).
       intros v. apply (fuel_monotone_bind (fun _ => set_env var v)
                          (fun f _ => run_block _eval f block));
         [apply fuel_monotone_const|intros _; apply run_block_mono]. }
  2: { intros _. apply exec_lines_mono. }
  apply and_then_iff; [|done].
  intros st' r'. apply evaluates_for_each, run_block_mono.
Qed.

End Headers.

(** ** The C-style loop *)

Section CStyleLoop.
Variable _eval : string → M value.
Variables (cond : string) (step : option clause) (block : list string).

Lemma cstyle_loop_S f st :
  cstyle_loop _eval (S f) cond step block st =
    match eval_cond _eval cond st with
    | Done true st1 =>
        match run_block _eval f block st1 with
        | Done _ st2 =>
            match run_clause _eval step st2 with
            | Done _ st3 => cstyle_loop _eval f cond step block st3
            | Raise e st3 => Raise e st3
            | OutOfFuel => OutOfFuel
            end
        | Raise e st2 => Raise e st2
        | OutOfFuel => OutOfFuel
        end
    | Done false st1 => Done tt st1
    | Raise e st1 => Raise e st1
    | OutOfFuel => OutOfFuel
    end.
Proof.
  simpl. unfold mbind, M_bind, bind, run_block.
  by destruct (eval_cond _ _ _) as [[] st1|e st1|].
Qed.

Lemma cstyle_loop_sound f : ∀ st r,
  r ≠ OutOfFuel → cstyle_loop _eval f cond step block st = r →
  pretest_spec (eval_cond _eval cond) (runs_block _eval block)
    (run_clause _eval step) st r.
Proof.
  induction f as [|f IH]; intros st r Hr; [by intros <-|].
  rewrite cstyle_loop_S.
  destruct (eval_cond _ _ _) as [[] st1|e st1|] eqn:Ec.
  - destruct (run_block _ _ _ _) as [[] st2|e st2|] eqn:Eb.
    + destruct (run_clause _ _ _) as [[] st3|e st3|] eqn:Es.
      * intros H. eapply pretest_again; eauto. split; [done|by exists f].
      * intros <-. eapply pretest_step_raise; eauto. split; [done|by exists f].
      * by intros <-.
    + intros <-. eapply pretest_body_raise; eauto. split; [done|by exists f].
    + by intros <-.
  - intros <-. by apply pretest_exit.
  - intros <-. by apply pretest_cond_raise.
  - by intros <-.
Qed.

Lemma cstyle_loop_complete st r :
  pretest_spec (eval_cond _eval cond) (runs_block _eval block)
    (run_clause _eval step) st r →
  evaluates (fun f => cstyle_loop _eval f cond step block) st r.
Proof.
  induction 1 as [st st' Hc|st e st' Hc|st st1 e st2 Hc [_ [f1 Hb]]
                 |st st1 st2 e st3 Hc [_ [f1 Hb]] Hs
                 |st st1 st2 st3 r Hc [_ [f1 Hb]] Hs _ [Hr [f2 IH]]].
  - split; [done|]. exists 1%nat. by rewrite cstyle_loop_S, Hc.
  - split; [done|]. exists 1%nat. by rewrite cstyle_loop_S, Hc.
  - split; [done|]. exists (S f1). by rewrite cstyle_loop_S, Hc, Hb.
  - split; [done|]. exists (S f1). by rewrite cstyle_loop_S, Hc, Hb, Hs.
  - split; [done|]. exists (S (f1 + f2)). rewrite cstyle_loop_S, Hc.
    rewrite (evaluates_fuel _ _ _ f1 (f1 + f2)%nat
               (run_block_mono _eval block) Hb ltac:(done) ltac:(lia)).
    rewrite Hs.
    apply (evaluates_fuel _ _ _ f2 (f1 + f2)%nat
             (cstyle_loop_mono _eval cond step block) IH Hr ltac:(lia)).
Qed.

Lemma cstyle_loop_spec st r :
  evaluates (fun f => cstyle_loop _eval f cond step block) st r
  ↔ pretest_spec (eval_cond _eval cond) (runs_block _eval block)
      (run_clause _eval step) st r.
Proof.
  split.
  - intros [Hr [f Hf]]. by eapply cstyle_loop_sound.
  - apply cstyle_loop_complete.
Qed.

End CStyleLoop.

Section CStyleHeader.
Variable _eval : string → M value.

Lemma cstyle_header lines i raw init_s cond_s step_s st block i' r :
  lines !! i = Some raw →
  classify (rstrip raw) = KCStyle init_s cond_s step_s →
  collect_block lines (i + 1) st = Done (block, i') st →
  continues _eval lines i st r
  ↔ and_then (once (run_clause _eval (do_assign init_s)))
      (fun _ =>
         and_then
           (pretest_spec (eval_cond _eval (strip cond_s))
              (runs_block _eval block) (run_clause _eval (do_assign step_s)))
           (fun _ => continues _eval lines i')) st r.
Proof.
  intros Hl Hc Hb.
  rewrite <- continues_S.
  rewrite (evaluates_change _
             (fun f => run_clause _eval (do_assign init_s)
                       ≫= fun _ => cstyle_loop _eval f (strip cond_s)
                                     (do_assign step_s) block
                                   ≫= fun _ => exec_lines _eval f lines i') st st).
  2: { intros f. rewrite (exec_lines_cstyle _ _ _ _ _ _ _ _ Hl Hc).
       unfold mbind at 1, M_bind at 1, bind at 1. by rewrite Hb. }
  rewrite (evaluates_once_bind _
             (fun f _ => cstyle_loop _eval f (strip cond_s) (do_assign step_s) block
                         ≫= fun _ => exec_lines _eval f lines i')).
  apply and_then_iff; [done|]. intros _ st' r'.
  rewrite (evaluates_bind _ (fun f _ => exec_lines _eval f lines i')).
  2: { apply cstyle_loop_mono. }
  2: { intros _. apply exec_lines_mono. }
  apply and_then_iff; [|done].
  intros st'' r''. apply cstyle_loop_spec.
Qed.

End CStyleHeader.

(** ** The evaluator only matters on the expressions of the program *)

Lemma agree_bind {A B} (m m' : M A) (k k' : A → M B) :
  (∀ st, m st = m' st) → (∀ a st, k a st = k' a st) →
  ∀ st, (m ≫= k) st = (m' ≫= k') st.
Proof.
  intros Hm Hk st. unfold mbind, M_bind, bind. rewrite Hm.
  destruct (m' st); auto.
Qed.

Lemma agree_bind_dep {A B} (m : M A) (k k' : A → M B) st :
  (∀ a st', m st = Done a st' → k a st' = k' a st') →
  (m ≫= k) st = (m ≫= k') st.
Proof.
  intros Hk. unfold mbind, M_bind, bind. destruct (m st); auto.
Qed.

Lemma agree_for_each {A} (b b' : A → M unit) (l : list A) :
  (∀ a st, b a st = b' a st) → ∀ st, for_each b l st = for_each b' l st.
Proof.
  intros Hb. induction l as [|x l IH]; intros st; simpl; [done|].
  by apply agree_bind.
Qed.

Lemma agree_on_block ev ev' lines i st st' block k :
  agree_on ev ev' lines →
  collect_block lines i st = Done (block, k) st' →
  agree_on ev ev' block.
Proof.
  intros Hl Hb.
  assert (st' = st) as ->.
  { unfold collect_block in Hb. destruct (collect_scan _ _ _ _); by inversion Hb. }
  apply collect_block_done, collect_scan_matching in Hb as [j [_ [_ ->]]].
  by apply Forall_take, Forall_drop.
Qed.

Section Agree.
Variables ev ev' : string → M value.

Lemma agree_run_clause c :
  (∀ e, In e (clause_exprs c) → ∀ st, ev e st = ev' e st) →
  ∀ st, run_clause ev c st = run_clause ev' c st.
Proof.
  intros H st. destruct c as [[s|name rhs]|]; simpl; [| |done].
  - apply agree_bind; [|done]. apply H. by left.
  - apply agree_bind; [|done]. apply H. by left.
Qed.

Lemma agree_eval_cond c :
  (∀ e, In e (cond_exprs c) → ∀ st, ev e st = ev' e st) →
  ∀ st, eval_cond ev c st = eval_cond ev' c st.
Proof.
  intros H st. unfold eval_cond, cond_exprs in *.
  destruct (nonempty c); simpl; [|done].
  apply agree_bind; [|done]. apply H. by left.
Qed.

Lemma agree_eval_step s :
  (∀ e, In e (step_exprs s) → ∀ st, ev e st = ev' e st) →
  ∀ st, eval_step ev s st = eval_step ev' s st.
Proof.
  intros H st. unfold eval_step, step_exprs in *.
  destruct s as [s|]; [|done]. destruct (nonempty s); [|done].
  apply H. by left.
Qed.

Lemma agree_all (f : nat) : agree_at ev ev' f.
Proof.
  induction f as [|f (IH1 & IH2 & IH3 & IH4 & IH5)].
  - repeat split; intros; reflexivity.
  - split_and!.
    + intros lines i Hl st.
      destruct (lines !! i) as [raw|] eqn:El.
      2: { by rewrite !exec_lines_past_end. }
      assert (Hraw : ∀ e, In e (exprs_of_line raw) → ∀ st, ev e st = ev' e st).
      { eapply Forall_lookup_1 in Hl; [|exact El]. exact Hl. }
      unfold exprs_of_line in Hraw.
      destruct (classify (rstrip raw)) eqn:Ec.
      * rewrite !(exec_lines_blank _ _ _ _ _ El Ec). by apply IH1.
      * rewrite !(exec_lines_counter _ _ _ _ _ _ _ _ _ El Ec).
        apply agree_bind; [apply Hraw; simpl; auto|]. intros start st1.
        apply agree_bind; [apply Hraw; simpl; auto|]. intros end_ st2.
        apply agree_bind.
        { apply agree_eval_step. intros e He. apply Hraw. simpl. auto. }
        intros step st3. destruct (py_eq step (VInt 0)); [done|].
        apply agree_bind_dep. intros [block i'] st4 Eb.
        pose proof (agree_on_block _ _ _ _ _ _ _ _ Hl Eb) as Hblock.
        apply agree_bind; [done|]. intros up st5.
        apply agree_bind; [|intros [] st6; by apply IH1].
        destruct up; [by apply IH2|by apply IH3].
      * rewrite !(exec_lines_iter _ _ _ _ _ _ _ El Ec).
        apply agree_bind; [apply Hraw; simpl; auto|]. intros it st1.
        apply agree_bind_dep. intros [block i'] st4 Eb.
        pose proof (agree_on_block _ _ _ _ _ _ _ _ Hl Eb) as Hblock.
        apply agree_bind; [done|]. intros items st5.
        apply agree_bind; [|intros [] st6; by apply IH1].
        apply agree_for_each. intros v st6. apply agree_bind; [done|].
        intros [] st7. by apply IH5.
      * rewrite !(exec_lines_cstyle _ _ _ _ _ _ _ _ El Ec).
        apply agree_bind_dep. intros [block i'] st4 Eb.
        pose proof (agree_on_block _ _ _ _ _ _ _ _ Hl Eb) as Hblock.
        apply agree_bind.
        { apply agree_run_clause. intros e He. apply Hraw.
          rewrite !in_app_iff. auto. }
        intros [] st1. apply agree_bind; [|intros [] st6; by apply IH1].
        apply IH4; [done|]. intros e He. apply Hraw.
        rewrite !in_app_iff in *. tauto.
      * by rewrite !(exec_lines_end _ _ _ _ _ El Ec).
      * rewrite !(exec_lines_print _ _ _ _ _ _ El Ec).
        apply agree_bind; [apply Hraw; simpl; auto|]. intros v st1.
        apply agree_bind; [done|]. intros [] st2. by apply IH1.
      * rewrite !(exec_lines_assign _ _ _ _ _ _ _ El Ec).
        apply agree_bind; [apply Hraw; simpl; auto|]. intros v st1.
        apply agree_bind; [done|]. intros [] st2. by apply IH1.
      * by rewrite !(exec_lines_unrecognized _ _ _ _ _ El Ec).
    + intros var block n e s Hb st. simpl.
      apply agree_bind; [done|]. intros go st1. destruct go; [|done].
      apply agree_bind; [done|]. intros [] st2.
      apply agree_bind; [by apply IH5|]. intros [] st3.
      apply agree_bind; [done|]. intros n' st4. by apply IH2.
    + intros var block n e s Hb st. simpl.
      apply agree_bind; [done|]. intros go st1. destruct go; [|done].
      apply agree_bind; [done|]. intros [] st2.
      apply agree_bind; [by apply IH5|]. intros [] st3.
      apply agree_bind; [done|]. intros n' st4. by apply IH3.
    + intros cond step block Hb He st. simpl.
      apply agree_bind.
      { apply agree_eval_cond. intros e Hin. apply He. rewrite in_app_iff. auto. }
      intros ok st1. destruct ok; [|done].
      apply agree_bind; [by apply IH5|]. intros [] st2.
      apply agree_bind.
      { apply agree_run_clause. intros e Hin. apply He. rewrite in_app_iff. auto. }
      intros [] st3. by apply IH4.
    + intros lines j Hl st. simpl. destruct (j <? length lines)%nat; [|done].
      apply agree_bind; [by apply IH1|]. intros j' st1. by apply IH5.
Qed.

(** Two evaluators that agree on the expressions of a program run it alike. *)
Lemma run_agree fuel src :
  agree_on ev ev' (splitlines src) → ∀ st, run ev fuel src st = run ev' fuel src st.
Proof. intros H st. by apply (agree_all fuel). Qed.

End Agree.

(** Agreement on the lines of a given text, from agreement on a list of
    expression texts. *)
Ltac agree_tac H :=
  unfold agree_on;
  match goal with
  | |- Forall _ ?l => let l' := eval vm_compute in l in change l with l'
  end;
  repeat (apply Forall_cons_2;
          [ let e := fresh "e" in
            let He := fresh "He" in
            intros e He; vm_compute in He; apply H; simpl; tauto | ]);
  apply Forall_nil_2.

(** * The claims *)

(** C1.  A counter loop [for v = A to B [by K] do ... end] whose start, end
    and step evaluate to the integers [A], [B] and [K], [K] not zero, binds
    [v] to [A], [A + K], [A + 2K], ... in turn and executes the body once for
    each of these values, namely for exactly those that are at most [B] when
    [K > 0] and at least [B] when [K < 0]; so the body is not executed when
    [A > B] with [K > 0] or [A < B] with [K < 0].  Without [by] the step is
    1.  The loop [for i = 1 to 5 by 2 do print i end] prints 1, 3, 5. *)
Theorem counter_loop_inclusive (_eval : string → M value)
    (lines : list string) (i : nat) (raw : string)
    (var start_s end_s : string) (step_s : option string) (A B K : Z)
    (st st1 st2 st3 : state) (block : list string) (i' : nat) :
  lines !! i = Some raw →
  RX_FOR_COUNTER (rstrip raw) = Some (var, start_s, end_s, step_s) →
  _eval start_s st = Done (VInt A) st1 →
  _eval end_s st1 = Done (VInt B) st2 →
  eval_step _eval step_s st2 = Done (VInt K) st3 →
  K ≠ 0 →
  collect_block lines (i + 1) st3 = Done (block, i') st3 →
  (∀ r, continues _eval lines i st r
        ↔ and_then
            (foreach_spec var (runs_block _eval block)
               (map VInt (counter_values A B K)))
            (fun _ => continues _eval lines i') st3 r)
  ∧ (∀ (k : nat) z, counter_values A B K !! k = Some z → z = A + Z.of_nat k * K)
  ∧ (0 < K → ∀ k : nat,
       (k < length (counter_values A B K))%nat ↔ A + Z.of_nat k * K ≤ B)
  ∧ (K < 0 → ∀ k : nat,
       (k < length (counter_values A B K))%nat ↔ B ≤ A + Z.of_nat k * K)
  ∧ ((0 < K ∧ B < A) ∨ (K < 0 ∧ A < B) →
     counter_values A B K = []
     ∧ ∀ r, continues _eval lines i st r ↔ continues _eval lines i' st3 r)
  ∧ (step_s = None → K = 1 ∧ st3 = st2)
  ∧ ((∀ e, In e ["1"; "5"; "2"; "i"] → ∀ s, _eval e s = Demo.demo_eval e s) →
     run _eval 12 demo_counter init_state
     = Done tt (mkState {[ "i" := VInt 5 ]} [VInt 1; VInt 3; VInt 5])).
Proof.
  intros Hl Hc H1 H2 H3 HK Hb.
  assert (Hmain : ∀ r, continues _eval lines i st r
            ↔ and_then
                (foreach_spec var (runs_block _eval block)
                   (map VInt (counter_values A B K)))
                (fun _ => continues _eval lines i') st3 r).
  { intros r. eapply counter_header; eauto. by apply classify_counter. }
  split_and!.
  - exact Hmain.
  - apply counter_values_lookup.
  - intros HK' k. by apply counter_values_length_up.
  - intros HK' k. by apply counter_values_length_down.
  - intros Hempty.
    assert (Hnil : counter_values A B K = []).
    { destruct Hempty as [[? ?]|[? ?]];
        [by apply counter_values_up_nil|by apply counter_values_down_nil]. }
    split; [done|]. intros r. rewrite Hmain, Hnil. apply and_then_skip.
  - intros ->. simpl in H3. by injection H3 as <- <-.
  - intros Hag. rewrite (run_agree _eval Demo.demo_eval); [by vm_compute|].
    agree_tac Hag.
Qed.

(** The demonstration loop of the source, run from its header line: by the
    theorem, the run that computation finds is a run of the protocol. *)
Lemma counter_loop_inclusive_witness :
  and_then
    (foreach_spec "i"
       (runs_block Demo.demo_eval ["    print i"]) [VInt 1; VInt 3; VInt 5])
    (fun _ => continues Demo.demo_eval (splitlines demo_counter) 3)
    init_state
    (Done 3%nat (mkState {[ "i" := VInt 5 ]} [VInt 1; VInt 3; VInt 5])).
Proof.
  refine (proj1 (proj1 (counter_loop_inclusive Demo.demo_eval
                          (splitlines demo_counter)
                          0 "for i = 1 to 5 by 2 do" "i" "1" "5" (Some "2") 1 5 2
                          init_state init_state init_state init_state
                          ["    print i"] 3%nat _ _ _ _ _ _ _) _) _);
    [ reflexivity | vm_compute; reflexivity | vm_compute; reflexivity | vm_compute; reflexivity | vm_compute; reflexivity | lia | vm_compute; reflexivity | ].
  split; [discriminate|]. exists 12%nat. vm_compute. reflexivity.
Defined.

(** C6.  When the step expression of a counter loop evaluates to zero, the
    statement executor raises the configuration error [by step cannot be 0],
    whatever the start and end values are.  The error is raised in the state
    left by evaluating the three header expressions: the loop variable has
    not been bound and the body has not run. *)
Theorem zero_step_rejected (_eval : string → M value)
    (lines : list string) (i : nat) (raw : string)
    (var start_s end_s : string) (step_s : option string) (a b s : value)
    (st st1 st2 st3 : state) :
  lines !! i = Some raw →
  RX_FOR_COUNTER (rstrip raw) = Some (var, start_s, end_s, step_s) →
  _eval start_s st = Done a st1 →
  _eval end_s st1 = Done b st2 →
  eval_step _eval step_s st2 = Done s st3 →
  py_eq s (VInt 0) = true →
  (∀ fuel, exec_lines _eval (S fuel) lines i st
           = Raise (ValueError "by step cannot be 0") st3)
  ∧ (∀ r, continues _eval lines i st r
          ↔ r = Raise (ValueError "by step cannot be 0") st3).
Proof.
  intros Hl Hc H1 H2 H3 Hz.
  assert (Hrun : ∀ fuel, exec_lines _eval (S fuel) lines i st
                         = Raise (ValueError "by step cannot be 0") st3).
  { intros fuel.
    rewrite (exec_lines_counter _ _ _ _ _ _ _ _ _ Hl (classify_counter _ _ _ _ _ Hc)).
    unfold mbind, M_bind, bind. by rewrite H1, H2, H3, Hz. }
  split; [done|]. intros r. split.
  - intros Hr. eapply evaluates_det; [apply exec_lines_mono|exact Hr|].
    split; [done|]. by exists 1%nat.
  - intros ->. split; [done|]. by exists 1%nat.
Qed.

Lemma zero_step_rejected_witness :
  exec_lines Demo.demo_eval 1 ["for i = 7 to 2 by 0 do"; "print i"; "end"] 0
    init_state
  = Raise (ValueError "by step cannot be 0") init_state.
Proof.
  refine (proj1 (zero_step_rejected Demo.demo_eval
                   ["for i = 7 to 2 by 0 do"; "print i"; "end"] 0
                   "for i = 7 to 2 by 0 do" "i" "7" "2" (Some "0")
                   (VInt 7) (VInt 2) (VInt 0)
                   init_state init_state init_state init_state _ _ _ _ _ _)
            0%nat);
    vm_compute; reflexivity.
Defined.

(** C4.  An iterator loop [for v in EXPR do ... end] whose expression
    evaluates to a collection with the elements [items] binds [v] to each
    element in turn, in the order of the collection, and executes the body
    once for it; the elements of a list are its entries from first to last.
    For an empty collection the body is not executed and execution goes on
    after the terminator, with no error. *)
Theorem iterator_loop_each_element (_eval : string → M value)
    (lines : list string) (i : nat) (raw var expr : string) (it : value)
    (items : list value) (st st1 : state) (block : list string) (i' : nat) :
  lines !! i = Some raw →
  RX_FOR_ITER (rstrip raw) = Some (var, expr) →
  _eval expr st = Done it st1 →
  py_iter it = Some items →
  collect_block lines (i + 1) st1 = Done (block, i') st1 →
  (∀ r, continues _eval lines i st r
        ↔ and_then (foreach_spec var (runs_block _eval block) items)
            (fun _ => continues _eval lines i') st1 r)
  ∧ (items = [] → ∀ r, continues _eval lines i st r ↔ continues _eval lines i' st1 r)
  ∧ (∀ l, it = VList l → items = l).
Proof.
  intros Hl Hc%classify_iter H1 Hit Hb.
  assert (Hmain : ∀ r, continues _eval lines i st r
        ↔ and_then (foreach_spec var (runs_block _eval block) items)
            (fun _ => continues _eval lines i') st1 r).
  { intros r. eapply iter_header; eauto. }
  split_and!; [done| |].
  - intros -> r. rewrite Hmain. apply and_then_skip.
  - intros l ->. simpl in Hit. by injection Hit as <-.
Qed.

Lemma iterator_loop_each_element_witness :
  and_then
    (foreach_spec "w" (runs_block Demo.demo_eval ["print w"])
       [VInt 4; VStr "a"])
    (fun _ => continues Demo.demo_eval ["for w in xs do"; "print w"; "end"] 3)
    (mkState {[ "xs" := VList [VInt 4; VStr "a"] ]} [])
    (Done 3%nat
       (mkState {[ "xs" := VList [VInt 4; VStr "a"]; "w" := VStr "a" ]}
          [VInt 4; VStr "a"])).
Proof.
  refine (proj1 (proj1 (iterator_loop_each_element Demo.demo_eval
                          ["for w in xs do"; "print w"; "end"] 0 "for w in xs do"
                          "w" "xs" (VList [VInt 4; VStr "a"]) [VInt 4; VStr "a"]
                          (mkState {[ "xs" := VList [VInt 4; VStr "a"] ]} [])
                          (mkState {[ "xs" := VList [VInt 4; VStr "a"] ]} [])
                          ["print w"] 3%nat _ _ _ _ _) _) _);
    [ reflexivity | vm_compute; reflexivity | vm_compute; reflexivity | vm_compute; reflexivity | vm_compute; reflexivity | ].
  split; [discriminate|]. exists 12%nat. vm_compute. reflexivity.
Defined.

(** C3.  A C-style loop [for (init; cond; step) do ... end] runs its init
    clause once, before the first check of the condition; then it is a
    pre-test loop: the condition is checked before every execution of the
    body, and the step clause is run after every execution of the body and
    before the next check.  A clause of the form [name = expr] binds [name]
    to the value of [expr]; any other non-empty clause is evaluated and its
    value dropped; an empty clause does nothing.  An empty condition is true;
    a non-empty one is the host's truth value of its result.  The loop
    [for (j = 0; j < 3; j = j + 1) do print j end] prints 0, 1, 2. *)
Theorem cstyle_loop_protocol (_eval : string → M value)
    (lines : list string) (i : nat) (raw init_s cond_s step_s : string)
    (st : state) (block : list string) (i' : nat) :
  lines !! i = Some raw →
  RX_FOR_CSTYLE (rstrip raw) = Some (init_s, cond_s, step_s) →
  collect_block lines (i + 1) st = Done (block, i') st →
  (∀ r, continues _eval lines i st r
        ↔ and_then (once (run_clause _eval (do_assign init_s)))
            (fun _ =>
               and_then
                 (pretest_spec (eval_cond _eval (strip cond_s))
                    (runs_block _eval block)
                    (run_clause _eval (do_assign step_s)))
                 (fun _ => continues _eval lines i')) st r)
  ∧ (∀ c, nonempty (strip c) = false → ∀ s, run_clause _eval (do_assign c) s = Done tt s)
  ∧ (∀ c name rhs v s s',
       nonempty (strip c) = true → RX_ASSIGN (strip c) = Some (name, rhs) →
       _eval rhs s = Done v s' →
       run_clause _eval (do_assign c) s = Done tt (bound name v s'))
  ∧ (∀ c v s s',
       nonempty (strip c) = true → RX_ASSIGN (strip c) = None →
       _eval (strip c) s = Done v s' →
       run_clause _eval (do_assign c) s = Done tt s')
  ∧ (∀ c s, nonempty c = false → eval_cond _eval c s = Done true s)
  ∧ (∀ c v s s', nonempty c = true → _eval c s = Done v s' →
       eval_cond _eval c s = Done (py_bool v) s')
  ∧ ((∀ e, In e ["0"; "j < 3"; "j + 1"; "j"] →
            ∀ s, _eval e s = Demo.demo_eval e s) →
     run _eval 16 demo_cstyle init_state
     = Done tt (mkState {[ "j" := VInt 3 ]} [VInt 0; VInt 1; VInt 2])).
Proof.
  intros Hl Hc%classify_cstyle Hb. split_and!.
  - intros r. by eapply cstyle_header.
  - intros c Hc' s. unfold do_assign. by rewrite Hc'.
  - intros c name rhs v s s' Hc' Ha He. unfold do_assign. rewrite Hc', Ha. simpl.
    unfold mbind, M_bind, bind. by rewrite He.
  - intros c v s s' Hc' Ha He. unfold do_assign. rewrite Hc', Ha. simpl.
    unfold mbind, M_bind, bind. by rewrite He.
  - intros c s Hc'. unfold eval_cond. by rewrite Hc'.
  - intros c v s s' Hc' He. unfold eval_cond. rewrite Hc'. simpl.
    unfold mbind, M_bind, bind. by rewrite He.
  - intros Hag. rewrite (run_agree _eval Demo.demo_eval); [by vm_compute|].
    agree_tac Hag.
Qed.

Lemma cstyle_loop_protocol_witness :
  and_then (once (run_clause Demo.demo_eval (Some (CAssign "j" "0"))))
    (fun _ =>
       and_then
         (pretest_spec (eval_cond Demo.demo_eval "j < 3")
            (runs_block Demo.demo_eval ["    print j"])
            (run_clause Demo.demo_eval (Some (CAssign "j" "j + 1"))))
         (fun _ => continues Demo.demo_eval (splitlines demo_cstyle) 3))
    init_state
    (Done 3%nat (mkState {[ "j" := VInt 3 ]} [VInt 0; VInt 1; VInt 2])).
Proof.
  refine (proj1 (proj1 (cstyle_loop_protocol Demo.demo_eval
                          (splitlines demo_cstyle) 0
                          "for (j = 0; j < 3; j = j + 1) do"
                          "j = 0" "j < 3" "j = j + 1"
                          init_state ["    print j"] 3%nat _ _ _) _) _);
    [ reflexivity | vm_compute; reflexivity | vm_compute; reflexivity | ].
  split; [discriminate|]. exists 16%nat. vm_compute. reflexivity.
Defined.

(** ** Headers without a terminator, stray terminators, unrecognized lines *)

Lemma no_matching_end_raise lines i st :
  (∀ j, ¬ matching_end lines i j) →
  collect_block lines i st = Raise (SyntaxError "missing 'end'") st.
Proof.
  intros Hno. apply collect_block_raise.
  destruct (collect_scan _ _ _ _) as [[b k]|] eqn:E; [|done].
  apply collect_scan_matching in E as (j & Hj & _). by destruct (Hno j).
Qed.

Lemma drive_S_S (_eval : string → M value) f lines i raw st :
  lines !! i = Some raw →
  drive _eval (S (S f)) lines i st =
    match exec_lines _eval (S f) lines i st with
    | Done j st' => drive _eval (S f) lines (j + 1) st'
    | Raise e st' => Raise e st'
    | OutOfFuel => OutOfFuel
    end.
Proof.
  intros Hl. change (drive _eval (S (S f)) lines i st) with
    ((if (i <? length lines)%nat
      then j' ← exec_lines _eval (S f) lines i; drive _eval (S f) lines (j' + 1)%nat
      else mret tt) st).
  apply lookup_lt_Some in Hl. by rewrite (proj2 (Nat.ltb_lt _ _) Hl).
Qed.

Section Unterminated.
Variable _eval : string → M value.
Variables (lines : list string) (i : nat) (raw : string).
Hypothesis at_line : lines !! i = Some raw.
Hypothesis no_end : ∀ j, ¬ matching_end lines (i + 1) j.

Lemma unterminated_counter var start_s end_s step_s a b s st st1 st2 st3 fuel :
  classify (rstrip raw) = KCounter var start_s end_s step_s →
  _eval start_s st = Done a st1 → _eval end_s st1 = Done b st2 →
  eval_step _eval step_s st2 = Done s st3 →
  exec_lines _eval (S fuel) lines i st
  = if py_eq s (VInt 0)
    then Raise (ValueError "by step cannot be 0") st3
    else Raise (SyntaxError "missing 'end'") st3.
Proof.
  intros Hc H1 H2 H3. rewrite (exec_lines_counter _ _ _ _ _ _ _ _ _ at_line Hc).
  unfold mbind, M_bind, bind. rewrite H1, H2, H3.
  destruct (py_eq s (VInt 0)); [done|].
  by rewrite (no_matching_end_raise _ _ _ no_end).
Qed.

Lemma unterminated_iter var expr it st st1 fuel :
  classify (rstrip raw) = KIter var expr →
  _eval expr st = Done it st1 →
  exec_lines _eval (S fuel) lines i st = Raise (SyntaxError "missing 'end'") st1.
Proof.
  intros Hc H1. rewrite (exec_lines_iter _ _ _ _ _ _ _ at_line Hc).
  unfold mbind, M_bind, bind.
  by rewrite H1, (no_matching_end_raise _ _ _ no_end).
Qed.

Lemma unterminated_cstyle init_s cond_s step_s st fuel :
  classify (rstrip raw) = KCStyle init_s cond_s step_s →
  exec_lines _eval (S fuel) lines i st = Raise (SyntaxError "missing 'end'") st.
Proof.
  intros Hc. rewrite (exec_lines_cstyle _ _ _ _ _ _ _ _ at_line Hc).
  unfold mbind, M_bind, bind.
  by rewrite (no_matching_end_raise _ _ _ no_end).
Qed.

End Unterminated.

Lemma no_end_in_short_text (lines : list string) (i : nat) :
  collect_scan (drop i lines) i [] 1 = None → ∀ j, ¬ matching_end lines i j.
Proof.
  intros Hnone j Hj.
  assert (H : collect_scan (drop i lines) i [] 1
              = Some (take (j - i) (drop i lines), (j + 1)%nat)).
  { apply collect_scan_matching. by exists j. }
  congruence.
Qed.

(** C5, as the code has it.  When the run reaches a loop header that has no
    matching terminator, it ends with the missing-terminator syntax error
    once the header is through: at once for a C-style header, and for a
    counter or an iterator header after the header's expressions are
    evaluated without an exception (and the step found not to be zero).  The
    error is raised in the state left by the header's expressions: the body
    has not run and no later statement has. *)
Theorem missing_end_detected (_eval : string → M value)
    (lines : list string) (i : nat) (raw : string) (st : state) (fuel : nat) :
  lines !! i = Some raw →
  (∀ j, ¬ matching_end lines (i + 1) j) →
  (∀ init_s cond_s step_s,
     RX_FOR_CSTYLE (rstrip raw) = Some (init_s, cond_s, step_s) →
     drive _eval (S (S fuel)) lines i st = Raise (SyntaxError "missing 'end'") st)
  ∧ (∀ var expr it st1,
       RX_FOR_ITER (rstrip raw) = Some (var, expr) →
       _eval expr st = Done it st1 →
       drive _eval (S (S fuel)) lines i st
       = Raise (SyntaxError "missing 'end'") st1)
  ∧ (∀ var start_s end_s step_s a st1 b st2 s st3,
       RX_FOR_COUNTER (rstrip raw) = Some (var, start_s, end_s, step_s) →
       _eval start_s st = Done a st1 → _eval end_s st1 = Done b st2 →
       eval_step _eval step_s st2 = Done s st3 →
       py_eq s (VInt 0) = false →
       drive _eval (S (S fuel)) lines i st
       = Raise (SyntaxError "missing 'end'") st3).
Proof.
  intros Hl Hno. split_and!.
  - intros init_s cond_s step_s Hc%classify_cstyle. rewrite (drive_S_S _ _ _ _ _ _ Hl).
    by erewrite unterminated_cstyle.
  - intros var expr it st1 Hc%classify_iter H1. rewrite (drive_S_S _ _ _ _ _ _ Hl).
    by erewrite unterminated_iter.
  - intros var start_s end_s step_s a st1 b st2 s st3 Hc%classify_counter H1 H2 H3 Hz.
    rewrite (drive_S_S _ _ _ _ _ _ Hl).
    erewrite unterminated_counter by done. by rewrite Hz.
Qed.

Lemma missing_end_detected_witness :
  drive Demo.demo_eval 2 ["print 1"; "for (;;) do"; "print 2"] 1
    (mkState ∅ [VInt 1])
  = Raise (SyntaxError "missing 'end'") (mkState ∅ [VInt 1]).
Proof.
  refine (proj1 (missing_end_detected Demo.demo_eval
            ["print 1"; "for (;;) do"; "print 2"] 1 "for (;;) do"
            (mkState ∅ [VInt 1]) 0 _ _) "" "" "" _).
  - reflexivity.
  - apply no_end_in_short_text. vm_compute. reflexivity.
  - vm_compute. reflexivity.
Defined.

(** C5 as stated fails: an unterminated counter loop with a zero step ends
    the run with the configuration error, not with the missing-terminator
    error. *)
Lemma missing_end_not_always_reported :
  run_lines Demo.demo_eval 5 ["for i = 1 to 3 by 0 do"; "print i"] init_state
  = Raise (ValueError "by step cannot be 0") init_state
  ∧ collect_block ["for i = 1 to 3 by 0 do"; "print i"] 1 init_state
    = Raise (SyntaxError "missing 'end'") init_state.
Proof. vm_compute. split; reflexivity. Qed.

(** C7 on the code.  An unrecognized line that execution reaches ends the run
    with a syntax error that cites an index and the text of the line without
    its trailing blanks.  The index is the 1-based position in the list of
    lines being executed: for a line of a loop body that is the position in
    the body, not in the program text.  Here the offending line is line 3 of
    the program and the report says line 1. *)
Theorem unrecognized_line_in_body :
  run_lines Demo.demo_eval 6
    ["print 1"; "for i = 1 to 1 do"; "bogus  "; "end"] init_state
  = Raise (SyntaxError "Unrecognized line 1: bogus")
      (mkState {[ "i" := VInt 1 ]} [VInt 1])
  ∧ run_lines Demo.demo_eval 6 ["print 1"; "x = 2"; "bogus  "] init_state
    = Raise (SyntaxError "Unrecognized line 3: bogus")
        (mkState {[ "x" := VInt 2 ]} [VInt 1]).
Proof. vm_compute. split; reflexivity. Qed.

(** At the top level the report cites the position in the program text. *)
Lemma unrecognized_line_top_level (_eval : string → M value)
    (lines : list string) (i : nat) (raw : string) (st : state) (fuel : nat) :
  lines !! i = Some raw → classify (rstrip raw) = KUnrecognized →
  drive _eval (S (S fuel)) lines i st
  = Raise (SyntaxError ("Unrecognized line " +:+ pretty (i + 1)%nat +:+ ": "
                        +:+ rstrip raw)) st.
Proof.
  intros Hl Hc.
  by rewrite (drive_S_S _ _ _ _ _ _ Hl), (exec_lines_unrecognized _ _ _ _ _ Hl Hc).
Qed.

(** C8, as the code has it.  A terminator line that the statement executor
    reaches is no error: the executor returns the index of that line with the
    state unchanged, and the driving loop of [run] or of a body goes on with
    the line after it. *)
Theorem stray_end_skipped (_eval : string → M value)
    (lines : list string) (i : nat) (raw : string) (st : state) :
  lines !! i = Some raw →
  RX_END (rstrip raw) = true →
  (∀ fuel, exec_lines _eval (S fuel) lines i st = Done i st)
  ∧ (∀ r, evaluates (fun f => drive _eval f lines i) st r
          ↔ evaluates (fun f => drive _eval f lines (i + 1)) st r).
Proof.
  intros Hl He.
  assert (Hx : ∀ fuel, exec_lines _eval (S fuel) lines i st = Done i st).
  { intros fuel. by rewrite (exec_lines_end _ _ _ _ _ Hl (classify_end _ He)). }
  split; [done|]. intros r.
  rewrite <- (evaluates_S (fun f => drive _eval f lines i)) by apply drive_mono.
  rewrite <- (evaluates_S (fun f => drive _eval (S f) lines i)).
  2: { intros f f' Hf. apply drive_mono. lia. }
  rewrite <- (evaluates_S (fun f => drive _eval f lines (i + 1))) by apply drive_mono.
  apply evaluates_change. intros f.
  by rewrite (drive_S_S _ _ _ _ _ _ Hl), Hx.
Qed.

Lemma stray_end_skipped_witness :
  exec_lines Demo.demo_eval 1 ["end"; "print 1"] 0 init_state
  = Done 0%nat init_state.
Proof.
  refine (proj1 (stray_end_skipped Demo.demo_eval ["end"; "print 1"] 0 "end"
                   init_state _ _) 0%nat);
    vm_compute; reflexivity.
Defined.

(** C8 as stated fails: a program that begins with a stray terminator runs
    to its end and executes the statement after it. *)
Lemma stray_end_is_silent :
  run_lines Demo.demo_eval 4 ["end"; "print 1"] init_state
  = Done tt (mkState ∅ [VInt 1]).
Proof. vm_compute. reflexivity. Qed.

(** ** Loop variables after the loop *)

Lemma keeps_ret {A} (a : A) : keeps_bindings (mret a).
Proof. intros st. simpl. done. Qed.

Lemma keeps_raise {A} e : keeps_bindings (@raise A e).
Proof. intros st. simpl. done. Qed.

Lemma keeps_oof {A} : keeps_bindings (@out_of_fuel A).
Proof. intros st. done. Qed.

Lemma keeps_bind {A B} (m : M A) (k : A → M B) :
  keeps_bindings m → (∀ a, keeps_bindings (k a)) → keeps_bindings (m ≫= k).
Proof.
  intros Hm Hk st. unfold mbind, M_bind, bind. specialize (Hm st).
  destruct (m st) as [a st1|e st1|]; [|done|done].
  specialize (Hk a st1). destruct (k a st1); [|  |done]; set_solver.
Qed.

Lemma keeps_set_env name v : keeps_bindings (set_env name v).
Proof. intros st. simpl. rewrite dom_insert_L. set_solver. Qed.

Lemma keeps_print v : keeps_bindings (print v).
Proof. intros st. simpl. done. Qed.

Lemma keeps_host {A} (o : option A) : keeps_bindings (host o).
Proof. destruct o; [apply keeps_ret|apply keeps_raise]. Qed.

Lemma keeps_collect_block lines i : keeps_bindings (collect_block lines i).
Proof.
  unfold collect_block. destruct (collect_scan _ _ _ _); [apply keeps_ret|apply keeps_raise].
Qed.

Lemma keeps_for_each {A} (body : A → M unit) l :
  (∀ a, keeps_bindings (body a)) → keeps_bindings (for_each body l).
Proof.
  intros Hb. induction l as [|x l IH]; simpl; [apply keeps_ret|].
  apply keeps_bind; auto.
Qed.

Ltac keeps_tac :=
  repeat first
    [ apply keeps_ret | apply keeps_raise | apply keeps_oof
    | apply keeps_set_env | apply keeps_print | apply keeps_host
    | apply keeps_collect_block
    | assumption
    | match goal with H : _ |- _ => apply H end
    | apply keeps_for_each; intros ?
    | apply keeps_bind; [|intros ?]
    | match goal with
      | |- keeps_bindings (match ?x with _ => _ end) => destruct x
      end ].

Section Bindings.
Variable _eval : string → M value.
Hypothesis eval_keeps : ∀ e, keeps_bindings (_eval e).

Lemma keeps_run_clause c : keeps_bindings (run_clause _eval c).
Proof. destruct c as [[s|name rhs]|]; simpl; keeps_tac. Qed.

Lemma keeps_eval_step s : keeps_bindings (eval_step _eval s).
Proof. unfold eval_step. keeps_tac. Qed.

Lemma keeps_eval_cond c : keeps_bindings (eval_cond _eval c).
Proof. unfold eval_cond. keeps_tac. Qed.

Lemma keeps_all (f : nat) :
  (∀ lines i, keeps_bindings (exec_lines _eval f lines i))
  ∧ (∀ var block n e s, keeps_bindings (counter_up _eval f var block n e s))
  ∧ (∀ var block n e s, keeps_bindings (counter_down _eval f var block n e s))
  ∧ (∀ cond step block, keeps_bindings (cstyle_loop _eval f cond step block))
  ∧ (∀ lines j, keeps_bindings (drive _eval f lines j)).
Proof.
  induction f as [|f (IH1 & IH2 & IH3 & IH4 & IH5)].
  - repeat split; intros; apply keeps_oof.
  - pose proof keeps_run_clause. pose proof keeps_eval_step.
    pose proof keeps_eval_cond.
    repeat split; intros; simpl; keeps_tac.
Qed.

End Bindings.

(** A name bound when the body starts is bound when it ends, and likewise
    for the evaluation of the condition. *)
Lemma runs_block_keeps (_eval : string → M value) block name s s' :
  (∀ e, keeps_bindings (_eval e)) →
  runs_block _eval block s (Done tt s') →
  is_Some (env s !! name) → is_Some (env s' !! name).
Proof.
  intros Hk [_ [f Hf]]. rewrite <- !elem_of_dom.
  pose proof (proj2 (proj2 (proj2 (proj2 (keeps_all _eval Hk f)))) block 0%nat s)
    as H.
  unfold run_block in Hf. rewrite Hf in H. apply H.
Qed.

Lemma eval_cond_keeps (_eval : string → M value) cond name s b s' :
  (∀ e, keeps_bindings (_eval e)) →
  eval_cond _eval cond s = Done b s' →
  is_Some (env s !! name) → is_Some (env s' !! name).
Proof.
  intros Hk Hc. rewrite <- !elem_of_dom.
  pose proof (keeps_eval_cond _eval Hk cond s) as H. rewrite Hc in H. apply H.
Qed.

Lemma bound_is_Some name v s : is_Some (env (bound name v s) !! name).
Proof. simpl. rewrite lookup_insert_eq. by eexists. Qed.

(** The last iteration of a loop over a list. *)
Lemma foreach_snoc var (body : state → result unit → Prop) items v st st' :
  foreach_spec var body (items ++ [v]) st (Done tt st')
  ↔ ∃ s, foreach_spec var body items st (Done tt s)
         ∧ body (bound var v s) (Done tt st').
Proof.
  revert st. induction items as [|x items IH]; intros st; simpl.
  - split.
    + inversion 1 as [| |v0 l0 st0 st1 r0 Hb Hrest]; subst.
      inversion Hrest; subst. exists st. split; [constructor|done].
    + intros (s & Hs & Hb). inversion Hs; subst.
      eapply foreach_next; [done|constructor].
  - split.
    + inversion 1 as [| |v0 l0 st0 st1 r0 Hb Hrest]; subst.
      apply IH in Hrest as (s & Hs & Hlast). exists s.
      split; [by eapply foreach_next|done].
    + intros (s & Hs & Hlast).
      inversion Hs as [| |v0 l0 st0 st1 r0 Hb Hrest]; subst.
      eapply foreach_next; [done|]. apply IH. by exists s.
Qed.

Lemma foreach_last_round var (body : state → result unit → Prop) items v st st' :
  last items = Some v →
  foreach_spec var body items st (Done tt st') →
  ∃ s, foreach_spec var body (removelast items) st (Done tt s)
       ∧ body (bound var v s) (Done tt st')
       ∧ (left_alone var (bound var v s) st' → env st' !! var = Some v).
Proof.
  intros [l ->]%last_Some Hrun. rewrite removelast_last.
  apply foreach_snoc in Hrun as (s & Hs & Hb). exists s.
  split_and!; [done..|]. unfold left_alone. intros ->. simpl.
  apply lookup_insert_eq.
Qed.

Lemma foreach_last_bound (_eval : string → M value) var block items v st st' :
  last items = Some v →
  foreach_spec var (runs_block _eval block) items st (Done tt st') →
  ∃ s, foreach_spec var (runs_block _eval block) (removelast items) st (Done tt s)
       ∧ runs_block _eval block (bound var v s) (Done tt st')
       ∧ ((∀ e, keeps_bindings (_eval e)) → is_Some (env st' !! var))
       ∧ (left_alone var (bound var v s) st' → env st' !! var = Some v).
Proof.
  intros Hlast Hrun.
  destruct (foreach_last_round _ _ _ _ _ _ Hlast Hrun) as (s & Hs & Hb & Hv).
  exists s. split_and!; [done..| |done].
  intros Hk. eapply runs_block_keeps; [done..|]. apply bound_is_Some.
Qed.

(** The last round of a pre-test loop that ends normally. *)
Lemma pretest_last_round (cond : M bool) (body : state → result unit → Prop)
    (step : M unit) st r :
  pretest_spec cond body step st r → ∀ st', r = Done tt st' →
  cond st = Done false st'
  ∨ ∃ s1 s2 s3, enters_body cond body step st s1 ∧ body s1 (Done tt s2)
                ∧ step s2 = Done tt s3 ∧ cond s3 = Done false st'.
Proof.
  induction 1 as [st st1 Hc|st e st1 Hc|st st1 e st2 Hc Hb
                 |st st1 st2 e st3 Hc Hb Hs
                 |st st1 st2 st3 r Hc Hb Hs Hrest IH]; intros st' Hr;
    try discriminate.
  - injection Hr as <-. by left.
  - right. destruct (IH st' Hr) as [Hlast|(s1 & s2' & s3' & He & Hb' & Hs' & Hc')].
    + exists st1, st2, st3. split_and!; [by apply enters_first|done..].
    + exists s1, s2', s3'. split_and!; [|done..]. by eapply enters_later.
Qed.

(** C9, as the code has it.  A counter loop or an iterator loop that ends
    normally after at least one iteration ends in the state in which the last
    execution of its body ended, and that execution began with the loop
    variable bound to the last value, after the earlier iterations; so the
    loop variable is bound after the loop, as long as the evaluator unbinds no
    name, and it holds the last value if this last execution of the body
    left it as the loop set it.  A C-style loop with a step clause
    [name = expr] that ends normally after at least one iteration ends thus:
    the body is executed for the last time, the step clause evaluates [expr]
    to a value [v] and binds [name] to it, the condition is evaluated and is
    false; so [name] is bound after the loop, as long as the evaluator unbinds
    no name, and it holds [v], the value given by the step clause after the
    last execution of the body, if this evaluation of the condition left
    [name] alone.  No statement and no loop unbinds a name, as long as the
    evaluator unbinds none. *)
Theorem loop_variable_persists (_eval : string → M value) :
  (∀ var block A B K z st st',
     K ≠ 0 → last (counter_values A B K) = Some z →
     evaluates
       (fun f => if 0 <? K
                 then counter_up _eval f var block (VInt A) (VInt B) (VInt K)
                 else counter_down _eval f var block (VInt A) (VInt B) (VInt K))
       st (Done tt st') →
     ∃ s,
       foreach_spec var (runs_block _eval block)
         (removelast (map VInt (counter_values A B K))) st (Done tt s)
       ∧ runs_block _eval block (bound var (VInt z) s) (Done tt st')
       ∧ ((∀ e, keeps_bindings (_eval e)) → is_Some (env st' !! var))
       ∧ (left_alone var (bound var (VInt z) s) st' →
          env st' !! var = Some (VInt z)))
  ∧ (∀ var block items v st st',
       last items = Some v →
       evaluates
         (fun f => for_each (fun x => set_env var x;; run_block _eval f block) items)
         st (Done tt st') →
       ∃ s,
         foreach_spec var (runs_block _eval block) (removelast items) st (Done tt s)
         ∧ runs_block _eval block (bound var v s) (Done tt st')
         ∧ ((∀ e, keeps_bindings (_eval e)) → is_Some (env st' !! var))
         ∧ (left_alone var (bound var v s) st' → env st' !! var = Some v))
  ∧ (∀ cond name rhs block st st1 st',
       eval_cond _eval cond st = Done true st1 →
       evaluates
         (fun f => cstyle_loop _eval f cond (Some (CAssign name rhs)) block)
         st (Done tt st') →
       ∃ s1 s2 v s3,
         enters_body (eval_cond _eval cond) (runs_block _eval block)
           (run_clause _eval (Some (CAssign name rhs))) st s1
         ∧ runs_block _eval block s1 (Done tt s2)
         ∧ _eval rhs s2 = Done v s3
         ∧ eval_cond _eval cond (bound name v s3) = Done false st'
         ∧ ((∀ e, keeps_bindings (_eval e)) → is_Some (env st' !! name))
         ∧ (left_alone name (bound name v s3) st' → env st' !! name = Some v))
  ∧ ((∀ e, keeps_bindings (_eval e)) →
     ∀ fuel lines, keeps_bindings (run_lines _eval fuel lines)).
Proof.
  split_and!.
  - intros var block A B K z st st' HK Hlast Hrun.
    apply counter_loop_spec in Hrun; [|done].
    eapply foreach_last_bound; [|done].
    apply last_Some in Hlast as [l ->]. rewrite map_app. simpl.
    apply last_Some. by eexists.
  - intros var block items v st st' Hlast Hrun.
    apply evaluates_for_each in Hrun; [|apply run_block_mono].
    by eapply foreach_last_bound.
  - intros cond name rhs block st st1 st' Hfirst Hrun.
    apply cstyle_loop_spec in Hrun.
    destruct (pretest_last_round _ _ _ _ _ Hrun st' eq_refl)
      as [Hlast|(s1 & s2 & s3 & He & Hb & Hs & Hc)]; [congruence|].
    simpl in Hs. unfold mbind, M_bind, bind in Hs.
    destruct (_eval rhs s2) as [v s3'|e s3'|] eqn:Ev; [|done|done].
    injection Hs as <-. exists s1, s2, v, s3'. split_and!; [done..| |].
    + intros Hk. eapply eval_cond_keeps; [done..|]. apply bound_is_Some.
    + unfold left_alone. intros ->. simpl. apply lookup_insert_eq.
  - intros Hkeeps fuel lines. apply (keeps_all _eval Hkeeps fuel).
Qed.

(** The loops [for i = 1 to 5 by 2 do print i end] and
    [for (j = 0; j < 3; j = j + 1) do print j end]. *)
Lemma loop_variable_persists_witness :
  (∃ s,
     foreach_spec "i" (runs_block Demo.demo_eval ["print i"])
       (removelast (map VInt (counter_values 1 5 2))) init_state (Done tt s)
     ∧ runs_block Demo.demo_eval ["print i"] (bound "i" (VInt 5) s)
         (Done tt (mkState {[ "i" := VInt 5 ]} [VInt 1; VInt 3; VInt 5]))
     ∧ ((∀ e, keeps_bindings (Demo.demo_eval e)) →
        is_Some
          (env (mkState {[ "i" := VInt 5 ]} [VInt 1; VInt 3; VInt 5]) !! "i"))
     ∧ (left_alone "i" (bound "i" (VInt 5) s)
          (mkState {[ "i" := VInt 5 ]} [VInt 1; VInt 3; VInt 5]) →
        env (mkState {[ "i" := VInt 5 ]} [VInt 1; VInt 3; VInt 5]) !! "i"
        = Some (VInt 5)))
  ∧ (∃ s1 s2 v s3,
       enters_body (eval_cond Demo.demo_eval "j < 3")
         (runs_block Demo.demo_eval ["print j"])
         (run_clause Demo.demo_eval (Some (CAssign "j" "j + 1")))
         (mkState {[ "j" := VInt 0 ]} []) s1
       ∧ runs_block Demo.demo_eval ["print j"] s1 (Done tt s2)
       ∧ Demo.demo_eval "j + 1" s2 = Done v s3
       ∧ eval_cond Demo.demo_eval "j < 3" (bound "j" v s3)
         = Done false (mkState {[ "j" := VInt 3 ]} [VInt 0; VInt 1; VInt 2])
       ∧ ((∀ e, keeps_bindings (Demo.demo_eval e)) →
          is_Some
            (env (mkState {[ "j" := VInt 3 ]} [VInt 0; VInt 1; VInt 2]) !! "j"))
       ∧ (left_alone "j" (bound "j" v s3)
            (mkState {[ "j" := VInt 3 ]} [VInt 0; VInt 1; VInt 2]) →
          env (mkState {[ "j" := VInt 3 ]} [VInt 0; VInt 1; VInt 2]) !! "j"
          = Some v)).
Proof.
  split.
  - apply (proj1 (loop_variable_persists Demo.demo_eval)
             "i" ["print i"] 1 5 2 5 init_state
             (mkState {[ "i" := VInt 5 ]} [VInt 1; VInt 3; VInt 5])).
    + lia.
    + vm_compute. reflexivity.
    + split; [discriminate|]. exists 9%nat. vm_compute. reflexivity.
  - apply (proj1 (proj2 (proj2 (loop_variable_persists Demo.demo_eval)))
             "j < 3" "j" "j + 1" ["print j"] (mkState {[ "j" := VInt 0 ]} [])
             (mkState {[ "j" := VInt 0 ]} [])
             (mkState {[ "j" := VInt 3 ]} [VInt 0; VInt 1; VInt 2])).
    + vm_compute. reflexivity.
    + split; [discriminate|]. exists 9%nat. vm_compute. reflexivity.
Defined.

(** C9 as stated fails.  For the C-style form: the body ran last with [j]
    bound to 2, which it printed, and the loop leaves [j] bound to 3.  For
    the counter form with a body that assigns to the loop variable: the last
    iteration bound [i] to 2, which the body printed, and the loop leaves [i]
    bound to 7. *)
Lemma cstyle_variable_after_last_step :
  run Demo.demo_eval 16 demo_cstyle init_state
  = Done tt (mkState {[ "j" := VInt 3 ]} [VInt 0; VInt 1; VInt 2])
  ∧ env (mkState {[ "j" := VInt 3 ]} [VInt 0; VInt 1; VInt 2]) !! "j"
    = Some (VInt 3)
  ∧ run_lines Demo.demo_eval 16
      ["for i = 1 to 2 do"; "print i"; "i = 7"; "end"] init_state
    = Done tt (mkState {[ "i" := VInt 7 ]} [VInt 1; VInt 2])
  ∧ env (mkState {[ "i" := VInt 7 ]} [VInt 1; VInt 2]) !! "i"
    = Some (VInt 7).
Proof. vm_compute. repeat split. Qed.

(** * Further properties of the code *)

Lemma or_else_is_Some (a b : option caps) :
  is_Some (or_else a b) ↔ is_Some a ∨ is_Some b.
Proof.
  destruct a as [x|]; simpl.
  - split; [by left|by eauto].
  - split; [by right|]. intros [[? [=]]|H]; done.
Qed.

Lemma star_lang g p k :
  caps_indep k → ∀ s pos c,
  is_Some (star g p pos s c k)
  ↔ ∃ w rest, s = w ++ rest ∧ forallb p w = true
              ∧ accepts k (pos + length w)%nat rest.
Proof.
  intros Hk. induction s as [|x s IH]; intros pos c.
  - simpl. split.
    + intros H. exists [], []. simpl. rewrite Nat.add_0_r.
      split_and!; [done..|]. by exists c.
    + intros (w & rest & Hs & Hw & c' & Hc).
      symmetry in Hs. apply app_eq_nil in Hs as [-> ->].
      simpl in Hc. rewrite Nat.add_0_r in Hc. by eapply Hk.
  - assert (Hhere : is_Some (k pos (x :: s) c)
       → ∃ w rest, x :: s = w ++ rest ∧ forallb p w = true
                   ∧ accepts k (pos + length w)%nat rest).
    { intros H. exists [], (x :: s). simpl. rewrite Nat.add_0_r.
      split_and!; [done..|]. by exists c. }
    cbn [star]. destruct (p x) eqn:Hx.
    + assert (Hiff : is_Some (star g p (S pos) s c k) ∨ is_Some (k pos (x :: s) c)
         ↔ ∃ w rest, x :: s = w ++ rest ∧ forallb p w = true
                     ∧ accepts k (pos + length w)%nat rest).
      { split.
        - intros [H|H]; [|auto].
          apply IH in H as (w & rest & -> & Hw & Ha).
          exists (x :: w), rest. simpl. rewrite Hx, Hw.
          split_and!; [done..|]. by rewrite <- Nat.add_succ_comm.
        - intros (w & rest & Hs & Hw & Ha). destruct w as [|y w].
          + right. simpl in *. subst rest. rewrite Nat.add_0_r in Ha.
            destruct Ha as [c' Hc']. by eapply Hk.
          + left. simpl in Hs. injection Hs as <- ->.
            apply IH. exists w, rest. simpl in Hw.
            apply andb_true_iff in Hw as [_ Hw]. split_and!; [done..|].
            simpl in Ha. by rewrite <- Nat.add_succ_comm in Ha. }
      destruct g; rewrite or_else_is_Some, <- Hiff; tauto.
    + split; [auto|].
      intros (w & rest & Hs & Hw & c' & Hc'). destruct w as [|y w].
      * simpl in *. subst rest. rewrite Nat.add_0_r in Hc'. by eapply Hk.
      * simpl in Hs. injection Hs as <- ->. simpl in Hw. by rewrite Hx in Hw.
Qed.

(** The matcher succeeds exactly on the texts of the language: backtracking
    loses no match, and greedy and lazy repetition accept the same texts. *)
Lemma rmatch_lang icase r :
  ∀ k, caps_indep k → ∀ pos s c,
  is_Some (rmatch icase r pos s c k)
  ↔ ∃ w rest, s = w ++ rest ∧ lang icase r pos w rest
              ∧ accepts k (pos + length w)%nat rest.
Proof.
  induction r as [| | |a|p|g p|g p|r1 IH1 r2 IH2|n r IH|r IH];
    intros k Hk pos s c; cbn [rmatch lang].
  - (* Eps *) split.
    + intros H. exists [], s. rewrite Nat.add_0_r. split_and!; [done..|by exists c].
    + intros (w & rest & -> & -> & c' & Hc'). simpl in *.
      rewrite Nat.add_0_r in Hc'. by eapply Hk.
  - (* Bos *) destruct (Nat.eqb_spec pos 0) as [->|Hne].
    + split.
      * intros H. exists [], s. split_and!; [done..|by exists c].
      * intros (w & rest & -> & [-> _] & c' & Hc'). simpl in *. by eapply Hk.
    + split; [by intros [? [=]]|]. by intros (w & rest & _ & [_ ?] & _).
  - (* Eos *) split.
    + intros H. exists [], s. rewrite Nat.add_0_r.
      destruct s as [|x [|y s]].
      * split; [done|]. split; [split; [done|by left]|by exists c].
      * destruct (Nat.eqb_spec (code x) 10) as [Hx|Hx]; [|by destruct H].
        split; [done|]. split; [|by exists c]. split; [done|]. right. by exists x.
      * by destruct H.
    + intros (w & rest & -> & [-> Hr] & c' & Hc'). simpl in *.
      rewrite Nat.add_0_r in Hc'.
      destruct Hr as [->|(x & -> & Hx)]; [by eapply Hk|].
      rewrite (proj2 (Nat.eqb_eq _ _) Hx). by eapply Hk.
  - (* Lit *) destruct s as [|x s].
    + split; [by intros [? [=]]|].
      intros (w & rest & Hs & (y & -> & _) & _). done.
    + destruct (char_eqb icase a x) eqn:Hx.
      * split.
        -- intros H. exists [x], s. split_and!; [done|by exists x|].
           exists c. simpl. by rewrite Nat.add_1_r.
        -- intros (w & rest & Hs & (y & -> & _) & c' & Hc').
           injection Hs as <- <-. simpl in Hc'. rewrite Nat.add_1_r in Hc'.
           by eapply Hk.
      * split; [by intros [? [=]]|].
        intros (w & rest & Hs & (y & -> & Hy) & _). injection Hs as <- <-.
        congruence.
  - (* Cls *) destruct s as [|x s].
    + split; [by intros [? [=]]|].
      intros (w & rest & Hs & (y & -> & _) & _). done.
    + destruct (p x) eqn:Hx.
      * split.
        -- intros H. exists [x], s. split_and!; [done|by exists x|].
           exists c. simpl. by rewrite Nat.add_1_r.
        -- intros (w & rest & Hs & (y & -> & _) & c' & Hc').
           injection Hs as <- <-. simpl in Hc'. rewrite Nat.add_1_r in Hc'.
           by eapply Hk.
      * split; [by intros [? [=]]|].
        intros (w & rest & Hs & (y & -> & Hy) & _). injection Hs as <- <-.
        congruence.
  - (* Star *) by apply star_lang.
  - (* Plus *) destruct s as [|x s].
    + split; [by intros [? [=]]|].
      intros (w & rest & Hs & [Hne _] & _). symmetry in Hs.
      by apply app_eq_nil in Hs as [-> _].
    + destruct (p x) eqn:Hx.
      * rewrite (star_lang g p k Hk). split.
        -- intros (w & rest & -> & Hw & Ha). exists (x :: w), rest. simpl.
           rewrite Hx, Hw. split_and!; [done..|].
           by rewrite <- Nat.add_succ_comm.
        -- intros (w & rest & Hs & [Hne Hw] & Ha). destruct w as [|y w]; [done|].
           simpl in Hs. injection Hs as <- ->. simpl in Hw.
           apply andb_true_iff in Hw as [_ Hw]. exists w, rest.
           split_and!; [done..|]. simpl in Ha.
           by rewrite <- Nat.add_succ_comm in Ha.
      * split; [by intros [? [=]]|].
        intros (w & rest & Hs & [Hne Hw] & _). destruct w as [|y w]; [done|].
        simpl in Hs. injection Hs as <- ->. simpl in Hw. by rewrite Hx in Hw.
  - (* Seq *)
    assert (Hk2 : caps_indep (fun pos' s' c' => rmatch icase r2 pos' s' c' k)).
    { intros pos' s' c1 c2 H. apply (IH2 k Hk). by apply (IH2 k Hk) in H. }
    rewrite (IH1 _ Hk2). split.
    + intros (w1 & rest1 & -> & H1 & c' & Hc').
      apply (IH2 k Hk) in Hc' as (w2 & rest & -> & H2 & Ha).
      exists (w1 ++ w2), rest. rewrite <- app_assoc. split_and!; [done| |].
      * by exists w1, w2.
      * by rewrite length_app, Nat.add_assoc.
    + intros (w & rest & -> & (w1 & w2 & -> & H1 & H2) & Ha).
      exists w1, (w2 ++ rest). rewrite <- app_assoc. split_and!; [done..|].
      exists c. apply (IH2 k Hk). exists w2, rest. split_and!; [done..|].
      by rewrite length_app, Nat.add_assoc in Ha.
  - (* Grp *)
    assert (Hk' : caps_indep
              (fun pos' s' c' => k pos' s' (set_cap n (take (pos' - pos) s) c'))).
    { intros pos' s' c1 c2 H. by eapply Hk. }
    rewrite (IH _ Hk'). split.
    + intros (w & rest & -> & Hl & c' & Hc'). exists w, rest.
      split_and!; [done..|]. by eexists.
    + intros (w & rest & -> & Hl & c' & Hc'). exists w, rest.
      split_and!; [done..|]. exists c'. by eapply Hk.
  - (* Opt *) rewrite or_else_is_Some, (IH k Hk). split.
    + intros [(w & rest & -> & Hl & Ha)|H].
      * exists w, rest. split_and!; [done|by right|done].
      * exists [], s. rewrite Nat.add_0_r. split_and!; [done|by left|by exists c].
    + intros (w & rest & -> & [->|Hl] & Ha).
      * right. simpl in *. rewrite Nat.add_0_r in Ha. destruct Ha as [c' Hc'].
        by eapply Hk.
      * left. by exists w, rest.
Qed.

Lemma pmatch_matches icase n r text :
  matched (pmatch icase n r text) = true ↔ matches icase r text.
Proof.
  unfold pmatch, matches.
  assert (Hk : caps_indep (fun _ _ c => Some c)) by (intros ? ? ? ? _; eauto).
  pose proof (rmatch_lang icase r _ Hk 0%nat (list_ascii_of_string text)
                (replicate (S n) None)) as H.
  destruct (rmatch _ _ _ _ _ _) eqn:E; simpl.
  - split; [intros _|done]. destruct H as [H _].
    destruct (H (mk_is_Some _ _ eq_refl)) as (w & rest & Hs & Hl & _). eauto.
  - split; [done|]. intros (w & rest & Hs & Hl). destruct H as [_ H].
    destruct H as [? [=]]. exists w, rest. split_and!; [done..|]. by exists [].
Qed.

(** ** Patterns that end with [\s* $] *)

Lemma lang_rest_indep icase r :
  eos_free r = true →
  ∀ pos w rest rest', lang icase r pos w rest → lang icase r pos w rest'.
Proof.
  induction r as [| | |a|p|g p|g p|r1 IH1 r2 IH2|n r IH|r IH];
    intros Hf pos w rest rest'; cbn [lang]; try done.
  - simpl in Hf. apply andb_true_iff in Hf as [Hf1 Hf2].
    intros (w1 & w2 & -> & H1 & H2). exists w1, w2. split_and!; eauto.
  - simpl in Hf. eauto.
  - simpl in Hf. intros [->|H]; [by left|right; eauto].
Qed.

Lemma eos_free_cat rs : forallb eos_free rs = true → eos_free (cat rs) = true.
Proof.
  induction rs as [|r rs IH]; simpl; [done|].
  intros [-> H]%andb_true_iff. auto.
Qed.

Lemma lang_cat_app icase l1 l2 pos w rest :
  lang icase (cat (l1 ++ l2)) pos w rest
  ↔ ∃ w1 w2, w = w1 ++ w2 ∧ lang icase (cat l1) pos w1 (w2 ++ rest)
             ∧ lang icase (cat l2) (pos + length w1)%nat w2 rest.
Proof.
  revert pos w. induction l1 as [|r l1 IH]; intros pos w; simpl.
  - split.
    + intros H. exists [], w. rewrite Nat.add_0_r. done.
    + intros (w1 & w2 & -> & -> & H). by rewrite Nat.add_0_r in H.
  - split.
    + intros (wa & wb & -> & Ha & Hb).
      apply IH in Hb as (w1 & w2 & -> & H1 & H2).
      exists (wa ++ w1), w2. split_and!.
      * by rewrite app_assoc.
      * exists wa, w1. rewrite <- app_assoc in Ha. done.
      * by rewrite length_app, Nat.add_assoc.
    + intros (w1 & w2 & -> & (wa & wb & -> & Ha & Hb) & H2).
      exists wa, (wb ++ w2). split_and!.
      { by rewrite app_assoc. } { by rewrite <- app_assoc. }
      apply IH. exists wb, w2. split_and!; [done..|].
      by rewrite length_app, Nat.add_assoc in H2.
Qed.

Lemma newline_is_space (x : ascii) : code x = 10%nat → is_space x = true.
Proof. intros H. unfold is_space, in_range. by rewrite H. Qed.

(** A pattern [body \s* $] accepts a text exactly when the text is a match
    of [body] followed by blanks only. *)
Lemma matches_tail icase body text :
  forallb eos_free body = true →
  matches icase (cat (body ++ [ws_star; Eos])) text
  ↔ ∃ b t, list_ascii_of_string text = b ++ t
           ∧ lang icase (cat body) 0 b [] ∧ forallb is_space t = true.
Proof.
  intros Hf. apply eos_free_cat in Hf. unfold matches. split.
  - intros (w & rest & Hs & Hl).
    apply lang_cat_app in Hl as (b & t & -> & Hb & Ht).
    simpl in Ht. destruct Ht as (t1 & t2 & -> & Ht1 & (t3 & t4 & -> & [-> Hr] & ->)).
    rewrite !app_nil_r in *.
    exists b, (t1 ++ rest). rewrite <- app_assoc in Hs. split_and!; [done| |].
    + by eapply lang_rest_indep.
    + rewrite forallb_app, Ht1. simpl in *.
      destruct Hr as [->|(x & -> & Hx)]; [done|]. simpl.
      by rewrite (newline_is_space x Hx).
  - intros (b & t & Hs & Hb & Ht). exists (b ++ t), [].
    rewrite app_nil_r. split; [done|]. apply lang_cat_app.
    exists b, t. split_and!; [done|by eapply lang_rest_indep|].
    simpl. exists t, []. rewrite app_nil_r. split_and!; [done..|].
    exists [], []. split_and!; try done. by left.
Qed.

(** *** Stripping *)

Lemma lstrip_l_split (s : list ascii) :
  ∃ w, s = w ++ lstrip_l s ∧ forallb is_space w = true.
Proof.
  induction s as [|a s (w & IH & Hw)]; simpl.
  - by exists [].
  - destruct (is_space a) eqn:Ha.
    + exists (a :: w). simpl. rewrite Ha, Hw. split; [|done]. by f_equal.
    + by exists [].
Qed.

Lemma lstrip_l_spaces (w s : list ascii) :
  forallb is_space w = true → lstrip_l (w ++ s) = lstrip_l s.
Proof.
  induction w as [|a w IH]; simpl; [done|].
  intros [-> Hw]%andb_true_iff. auto.
Qed.

Lemma lstrip_l_idem (s : list ascii) : lstrip_l (lstrip_l s) = lstrip_l s.
Proof.
  induction s as [|a s IH]; simpl; [done|].
  destruct (is_space a) eqn:Ha; [done|]. simpl. by rewrite Ha.
Qed.

Lemma forallb_rev {A} (p : A → bool) (l : list A) :
  forallb p (rev l) = forallb p l.
Proof.
  induction l as [|a l IH]; simpl; [done|].
  rewrite forallb_app, IH. simpl. rewrite andb_true_r. apply andb_comm.
Qed.

Lemma rstrip_l_split (s : list ascii) :
  ∃ t, s = rstrip_l s ++ t ∧ forallb is_space t = true.
Proof.
  unfold rstrip_l. destruct (lstrip_l_split (rev s)) as (w & Hs & Hw).
  exists (rev w). split; [|by rewrite forallb_rev].
  rewrite <- rev_app_distr, <- Hs. by rewrite rev_involutive.
Qed.

Lemma rstrip_l_spaces (b t : list ascii) :
  forallb is_space t = true → rstrip_l (b ++ t) = rstrip_l b.
Proof.
  intros Ht. unfold rstrip_l. rewrite rev_app_distr.
  rewrite lstrip_l_spaces; [done|]. by rewrite forallb_rev.
Qed.

Lemma rstrip_l_visible (b : list ascii) (x : ascii) :
  is_space x = false → rstrip_l (b ++ [x]) = b ++ [x].
Proof.
  intros Hx. unfold rstrip_l. rewrite rev_app_distr. simpl. rewrite Hx.
  simpl. by rewrite rev_involutive.
Qed.

Lemma rstrip_l_idem (s : list ascii) : rstrip_l (rstrip_l s) = rstrip_l s.
Proof.
  unfold rstrip_l. rewrite rev_involutive. by rewrite lstrip_l_idem.
Qed.

Lemma chars_rstrip (s : string) :
  list_ascii_of_string (rstrip s) = rstrip_l (list_ascii_of_string s).
Proof. unfold rstrip. apply list_ascii_of_string_of_list_ascii. Qed.

Lemma chars_lstrip (s : string) :
  list_ascii_of_string (lstrip s) = lstrip_l (list_ascii_of_string s).
Proof. unfold lstrip. apply list_ascii_of_string_of_list_ascii. Qed.

Lemma chars_strip (s : string) :
  list_ascii_of_string (strip s)
  = lstrip_l (rstrip_l (list_ascii_of_string s)).
Proof. unfold strip. by rewrite chars_lstrip, chars_rstrip. Qed.

(** A pattern [body \s* $] whose [body] ends with a visible character
    accepts a line exactly when it accepts the line without its trailing
    blanks. *)
Lemma matches_rstrip icase body raw :
  forallb eos_free body = true →
  (∀ b, lang icase (cat body) 0 b [] →
        ∃ b' x, b = b' ++ [x] ∧ is_space x = false) →
  matches icase (cat (body ++ [ws_star; Eos])) (rstrip raw)
  ↔ matches icase (cat (body ++ [ws_star; Eos])) raw.
Proof.
  intros Hf Hend. rewrite !matches_tail by done. rewrite chars_rstrip.
  destruct (rstrip_l_split (list_ascii_of_string raw)) as (t0 & Hs & Ht0).
  split.
  - intros (b & t & Hr & Hb & Ht). exists b, (t ++ t0).
    rewrite Hs, Hr, <- app_assoc. split_and!; [done..|].
    by rewrite forallb_app, Ht, Ht0.
  - intros (b & t & Hr & Hb & Ht). exists b, []. rewrite app_nil_r.
    split_and!; [|done..]. rewrite Hr, rstrip_l_spaces by done.
    destruct (Hend b Hb) as (b' & x & -> & Hx). by apply rstrip_l_visible.
Qed.

Lemma lang_last_end icase (pre : list regex) (r : regex) b :
  (∀ pos w rest, lang icase r pos w rest →
                 ∃ w' x, w = w' ++ [x] ∧ is_space x = false) →
  lang icase (cat (pre ++ [r])) 0 b [] →
  ∃ b' x, b = b' ++ [x] ∧ is_space x = false.
Proof.
  intros Hr (w1 & w2 & -> & _ & H2)%lang_cat_app. simpl in H2.
  destruct H2 as (wa & wb & -> & Ha & ->). rewrite app_nil_r.
  apply Hr in Ha as (w' & x & -> & Hx). exists (w1 ++ w'), x.
  by rewrite app_assoc.
Qed.

Lemma keyword_end_visible (x : ascii) :
  char_eqb true "o" x || char_eqb true "d" x = true → is_space x = false.
Proof.
  revert x.
  assert (H : ∀ x, implb (char_eqb true "o" x || char_eqb true "d" x)
                     (negb (is_space x)) = true)
    by (apply forall_ascii; vm_compute; reflexivity).
  intros x Hx. specialize (H x). rewrite Hx in H. by apply negb_true_iff.
Qed.

Lemma matched_bool {A} (o : option A) : matched o = true ↔ is_Some o.
Proof. destruct o; simpl; split; try done; by intros [? [=]]. Qed.

Lemma RX_FOR_COUNTER_matches line :
  matched (RX_FOR_COUNTER line) = true ↔ matches true rx_for_counter line.
Proof.
  rewrite <- (pmatch_matches true 4). unfold RX_FOR_COUNTER. by destruct (pmatch _ _ _ _).
Qed.

Lemma RX_FOR_ITER_matches line :
  matched (RX_FOR_ITER line) = true ↔ matches true rx_for_iter line.
Proof.
  rewrite <- (pmatch_matches true 2). unfold RX_FOR_ITER. by destruct (pmatch _ _ _ _).
Qed.

Lemma RX_FOR_CSTYLE_matches line :
  matched (RX_FOR_CSTYLE line) = true ↔ matches true rx_for_cstyle line.
Proof.
  rewrite <- (pmatch_matches true 3). unfold RX_FOR_CSTYLE. by destruct (pmatch _ _ _ _).
Qed.

Lemma RX_END_matches line : RX_END line = true ↔ matches true rx_end line.
Proof.
  rewrite <- (pmatch_matches true 0). unfold RX_END. by destruct (pmatch _ _ _ _).
Qed.

Lemma RX_PRINT_matches line :
  matched (RX_PRINT line) = true ↔ matches true rx_print line.
Proof.
  rewrite <- (pmatch_matches true 1). unfold RX_PRINT. by destruct (pmatch _ _ _ _).
Qed.

Lemma RX_ASSIGN_matches line :
  matched (RX_ASSIGN line) = true ↔ matches false rx_assign line.
Proof.
  rewrite <- (pmatch_matches false 2). unfold RX_ASSIGN. by destruct (pmatch _ _ _ _).
Qed.

Lemma bool_iff (a b : bool) : (a = true ↔ b = true) → a = b.
Proof. destruct a, b; intros [H1 H2]; auto. by symmetry; auto. Qed.

Lemma lang_do_end pos w rest :
  lang true (lit "do") pos w rest → ∃ w' x, w = w' ++ [x] ∧ is_space x = false.
Proof.
  cbn -[char_eqb]. intros (w1 & w2 & -> & (d & -> & Hd) & (w3 & w4 & -> & (o & -> & Ho) & ->)).
  exists [d], o. split; [done|]. apply keyword_end_visible. by rewrite Ho.
Qed.

Lemma lang_end_end pos w rest :
  lang true (lit "end") pos w rest → ∃ w' x, w = w' ++ [x] ∧ is_space x = false.
Proof.
  cbn -[char_eqb]. intros (w1 & w2 & -> & (e & -> & He) & (w3 & w4 & -> & (n & -> & Hn)
               & (w5 & w6 & -> & (d & -> & Hd) & ->))).
  exists [e; n], d. split; [done|]. apply keyword_end_visible. rewrite Hd.
  by rewrite orb_true_r.
Qed.

Lemma RX_FOR_COUNTER_rstrip raw :
  matched (RX_FOR_COUNTER (rstrip raw)) = matched (RX_FOR_COUNTER raw).
Proof.
  apply bool_iff. rewrite !RX_FOR_COUNTER_matches.
  apply (matches_rstrip true
    [Bos; ws_star; lit "for"; ws_plus; Grp 1 ident; ws_star; Lit "=";
     ws_star; Grp 2 (Plus false is_dot); ws_plus; lit "to"; ws_plus;
     Grp 3 (Plus false is_dot);
     Opt (cat [ws_plus; lit "by"; ws_plus; Grp 4 (Plus false is_dot)]);
     ws_plus; lit "do"]); [done|].
  intros b Hb.
  apply (lang_last_end true
    [Bos; ws_star; lit "for"; ws_plus; Grp 1 ident; ws_star; Lit "=";
     ws_star; Grp 2 (Plus false is_dot); ws_plus; lit "to"; ws_plus;
     Grp 3 (Plus false is_dot);
     Opt (cat [ws_plus; lit "by"; ws_plus; Grp 4 (Plus false is_dot)]);
     ws_plus] (lit "do") b lang_do_end Hb).
Qed.

Lemma RX_FOR_ITER_rstrip raw :
  matched (RX_FOR_ITER (rstrip raw)) = matched (RX_FOR_ITER raw).
Proof.
  apply bool_iff. rewrite !RX_FOR_ITER_matches.
  apply (matches_rstrip true
    [Bos; ws_star; lit "for"; ws_plus; Grp 1 ident; ws_plus; lit "in";
     ws_plus; Grp 2 (Plus false is_dot); ws_plus; lit "do"]); [done|].
  intros b Hb.
  apply (lang_last_end true
    [Bos; ws_star; lit "for"; ws_plus; Grp 1 ident; ws_plus; lit "in";
     ws_plus; Grp 2 (Plus false is_dot); ws_plus] (lit "do") b lang_do_end Hb).
Qed.

Lemma RX_FOR_CSTYLE_rstrip raw :
  matched (RX_FOR_CSTYLE (rstrip raw)) = matched (RX_FOR_CSTYLE raw).
Proof.
  apply bool_iff. rewrite !RX_FOR_CSTYLE_matches.
  apply (matches_rstrip true
    [Bos; ws_star; lit "for"; ws_star; Lit "("; ws_star;
     Grp 1 (Star false is_dot); ws_star; Lit ";"; ws_star;
     Grp 2 (Star false is_dot); ws_star; Lit ";"; ws_star;
     Grp 3 (Star false is_dot); ws_star; Lit ")"; ws_plus; lit "do"]); [done|].
  intros b Hb.
  apply (lang_last_end true
    [Bos; ws_star; lit "for"; ws_star; Lit "("; ws_star;
     Grp 1 (Star false is_dot); ws_star; Lit ";"; ws_star;
     Grp 2 (Star false is_dot); ws_star; Lit ";"; ws_star;
     Grp 3 (Star false is_dot); ws_star; Lit ")"; ws_plus] (lit "do") b lang_do_end Hb).
Qed.

Lemma is_header_rstrip raw : is_header (rstrip raw) = is_header raw.
Proof.
  unfold is_header.
  by rewrite RX_FOR_COUNTER_rstrip, RX_FOR_ITER_rstrip, RX_FOR_CSTYLE_rstrip.
Qed.

Lemma RX_END_rstrip raw : RX_END (rstrip raw) = RX_END raw.
Proof.
  apply bool_iff. rewrite !RX_END_matches.
  apply (matches_rstrip true [Bos; ws_star; lit "end"]); [done|].
  intros b Hb.
  apply (lang_last_end true
    [Bos; ws_star] (lit "end") b lang_end_end Hb).
Qed.

Lemma RX_END_shape line :
  RX_END line = true →
  ∃ w e n d t, list_ascii_of_string line = w ++ [e; n; d] ++ t
     ∧ forallb is_space w = true ∧ forallb is_space t = true
     ∧ char_eqb true "e" e = true ∧ char_eqb true "n" n = true
     ∧ char_eqb true "d" d = true.
Proof.
  rewrite RX_END_matches.
  rewrite (matches_tail true [Bos; ws_star; lit "end"]) by done.
  intros (b & t & Hs & Hb & Ht). cbn -[char_eqb] in Hb.
  destruct Hb as (w1 & w2 & -> & [-> _] & (w3 & w4 & -> & Hw3
    & (w5 & w6 & -> & (w7 & w8 & -> & (e & -> & He) & (w9 & w10 & -> & (n & -> & Hn)
    & (w11 & w12 & -> & (d & -> & Hd) & ->))) & ->))).
  exists w3, e, n, d, t. split_and!; try done.
  rewrite Hs. simpl. by rewrite <- app_assoc.
Qed.

(** The terminator pattern accepts exactly the lines that read [end], in any
    letter case, between blanks. *)
Lemma RX_END_spec line :
  RX_END line = true
  ↔ ∃ e n d, list_ascii_of_string (strip line) = [e; n; d]
             ∧ char_eqb true "e" e = true ∧ char_eqb true "n" n = true
             ∧ char_eqb true "d" d = true.
Proof.
  split.
  - intros (w & e & n & d & t & Hs & Hw & Ht & He & Hn & Hd)%RX_END_shape.
    exists e, n, d. split; [|done]. rewrite chars_strip, Hs.
    rewrite app_assoc, rstrip_l_spaces by done.
    change (w ++ [e; n; d]) with (w ++ [e; n] ++ [d]).
    rewrite app_assoc, rstrip_l_visible.
    2: { apply keyword_end_visible. rewrite Hd. by rewrite orb_true_r. }
    rewrite <- app_assoc. simpl. apply lstrip_l_skip; [done|].
    apply visible_not_space, keyword_char_visible. rewrite He.
    by rewrite orb_true_r.
  - rewrite RX_END_matches, chars_strip.
    rewrite (matches_tail true [Bos; ws_star; lit "end"]) by done.
    intros (e & n & d & Hs & He & Hn & Hd).
    destruct (rstrip_l_split (list_ascii_of_string line)) as (t & Hr & Ht).
    destruct (lstrip_l_split (rstrip_l (list_ascii_of_string line)))
      as (w & Hl & Hw).
    exists (w ++ [e; n; d]), t. split_and!; [|  |done].
    + rewrite Hr at 1. rewrite Hl at 1. by rewrite Hs.
    + cbn -[char_eqb]. exists [], (w ++ [e; n; d]). split_and!; try done.
      exists w, [e; n; d]. split_and!; try done.
      exists [e; n; d], []. split_and!; try done.
      exists [e], [n; d]. split_and!; try done; [by exists e|].
      exists [n], [d]. split_and!; try done; [by exists n|].
      exists [d], []. split_and!; try done. by exists d.
Qed.

(** ** The patterns of the headers and the forms of the specification *)

Lemma denotes_blanks icase g : denotes icase (Star g is_space) blanks.
Proof. intros pos w rest. reflexivity. Qed.

Lemma denotes_blanks1 icase g : denotes icase (Plus g is_space) blanks1.
Proof. intros pos w rest. reflexivity. Qed.

Lemma denotes_expr icase g : denotes icase (Plus g is_dot) expr_text.
Proof. intros pos w rest. reflexivity. Qed.

Lemma denotes_clause icase g : denotes icase (Star g is_dot) clause_text.
Proof. intros pos w rest. reflexivity. Qed.

Lemma denotes_ident icase : denotes icase ident ident_text.
Proof.
  intros pos w rest. unfold ident, ident_text. cbn [lang]. split.
  - intros (w1 & w2 & -> & (z & -> & Hz) & Hw). by exists z, w2.
  - intros (z & wd & -> & Hz & Hw). exists [z], wd. split_and!; [done| |done].
    by exists z.
Qed.

Lemma denotes_grp icase n r P : denotes icase r P → denotes icase (Grp n r) P.
Proof. intros H pos w rest. apply H. Qed.

Lemma denotes_opt icase r P :
  denotes icase r P → denotes icase (Opt r) (optional P).
Proof.
  intros H pos w rest. cbn [lang]. unfold optional. by rewrite (H pos w rest).
Qed.

Lemma denotes_cat icase rs ps :
  Forall2 (denotes icase) rs ps → denotes icase (cat rs) (sequence ps).
Proof.
  induction 1 as [|r P rs ps Hr _ IH]; intros pos w rest; simpl; [done|].
  split.
  - intros (w1 & w2 & -> & H1 & H2). exists w1, w2.
    split_and!; [done|by apply Hr in H1|by apply IH in H2].
  - intros (w1 & w2 & -> & H1 & H2). exists w1, w2.
    split_and!; [done|by apply Hr|by apply IH].
Qed.

Lemma char_eqb_lower a x :
  char_eqb true a x = true ↔ to_lower x = to_lower a.
Proof. unfold char_eqb. rewrite Ascii.eqb_eq. split; congruence. Qed.

Lemma denotes_lit a : denotes true (Lit a) (token (String a "")).
Proof.
  intros pos w rest. unfold token. cbn [lang]. simpl. split.
  - intros (x & -> & Hx%char_eqb_lower). simpl. by rewrite Hx.
  - destruct w as [|x [|y w]]; simpl; intros [= Hx]. exists x.
    split; [done|]. by apply char_eqb_lower.
Qed.

Lemma lang_lits l pos w rest :
  lang true (cat (map Lit l)) pos w rest ↔ map to_lower w = map to_lower l.
Proof.
  revert pos w. induction l as [|a l IH]; intros pos w; simpl.
  - split; [by intros ->|]. by destruct w.
  - split.
    + intros (w1 & w2 & -> & (x & -> & Hx%char_eqb_lower) & H2%IH).
      simpl. by rewrite Hx, H2.
    + destruct w as [|x w]; simpl; intros [= Hx Hw]. exists [x], w.
      split_and!; [done| |by apply IH]. exists x. split; [done|].
      by apply char_eqb_lower.
Qed.

Lemma denotes_lits k : denotes true (lit k) (token k).
Proof. intros pos w rest. apply lang_lits. Qed.

Lemma sequence_app ps qs w :
  sequence (ps ++ qs) w
  ↔ ∃ w1 w2, w = w1 ++ w2 ∧ sequence ps w1 ∧ sequence qs w2.
Proof.
  revert w. induction ps as [|P ps IH]; intros w; simpl.
  - split; [intros H; by exists [], w|]. by intros (w1 & w2 & -> & -> & H).
  - split.
    + intros (wa & wb & -> & Ha & (w1 & w2 & -> & H1 & H2)%IH).
      exists (wa ++ w1), w2. rewrite app_assoc. split_and!; [done| |done].
      by exists wa, w1.
    + intros (w1 & w2 & -> & (wa & wb & -> & Ha & Hb) & H2).
      exists wa, (wb ++ w2). rewrite app_assoc. split_and!; [done..|].
      apply IH. by exists wb, w2.
Qed.

(** A pattern [^ body \s* $] matches the lines made of the parts of [body]
    and blanks after them. *)
Lemma matches_sequence icase body ps line :
  forallb eos_free body = true → Forall2 (denotes icase) body ps →
  matches icase (cat (Bos :: body ++ [ws_star; Eos])) line
  ↔ sequence (ps ++ [blanks]) (list_ascii_of_string line).
Proof.
  intros Hf Hd.
  rewrite (matches_tail icase (Bos :: body)) by done.
  rewrite sequence_app. split.
  - intros (b & t & Hs & Hb & Ht). exists b, t. split_and!; [done| |].
    + cbn [cat fold_right lang] in Hb.
      destruct Hb as (w1 & w2 & -> & [-> _] & Hb).
      by apply (denotes_cat _ _ _ Hd) in Hb.
    + exists t, []. by rewrite app_nil_r.
  - intros (b & t & Hs & Hb & (t1 & t2 & -> & Ht1 & ->)).
    rewrite app_nil_r in Hs. exists b, t1. split_and!; [done| |done].
    cbn [cat fold_right lang]. exists [], b. split_and!; [done..|].
    by apply (denotes_cat _ _ _ Hd).
Qed.

Ltac denotes_parts :=
  repeat first
    [ apply List.Forall2_nil | apply List.Forall2_cons
    | apply denotes_blanks | apply denotes_blanks1 | apply denotes_expr
    | apply denotes_clause | apply denotes_ident | apply denotes_lits
    | apply denotes_lit | apply denotes_grp | apply denotes_opt
    | apply denotes_cat ].

Lemma RX_FOR_COUNTER_form line :
  matched (RX_FOR_COUNTER line) = true ↔ counter_form line.
Proof.
  rewrite RX_FOR_COUNTER_matches.
  apply (matches_sequence true
    [ws_star; lit "for"; ws_plus; Grp 1 ident; ws_star; Lit "=";
     ws_star; Grp 2 (Plus false is_dot); ws_plus; lit "to"; ws_plus;
     Grp 3 (Plus false is_dot);
     Opt (cat [ws_plus; lit "by"; ws_plus; Grp 4 (Plus false is_dot)]);
     ws_plus; lit "do"]
    [blanks; token "for"; blanks1; ident_text; blanks; token "="; blanks;
     expr_text; blanks1; token "to"; blanks1; expr_text;
     optional (sequence [blanks1; token "by"; blanks1; expr_text]);
     blanks1; token "do"]); [done|denotes_parts].
Qed.

Lemma RX_FOR_ITER_form line :
  matched (RX_FOR_ITER line) = true ↔ iterator_form line.
Proof.
  rewrite RX_FOR_ITER_matches.
  apply (matches_sequence true
    [ws_star; lit "for"; ws_plus; Grp 1 ident; ws_plus; lit "in";
     ws_plus; Grp 2 (Plus false is_dot); ws_plus; lit "do"]
    [blanks; token "for"; blanks1; ident_text; blanks1; token "in"; blanks1;
     expr_text; blanks1; token "do"]); [done|denotes_parts].
Qed.

Lemma RX_FOR_CSTYLE_form line :
  matched (RX_FOR_CSTYLE line) = true ↔ cstyle_form line.
Proof.
  rewrite RX_FOR_CSTYLE_matches.
  apply (matches_sequence true
    [ws_star; lit "for"; ws_star; Lit "("; ws_star;
     Grp 1 (Star false is_dot); ws_star; Lit ";"; ws_star;
     Grp 2 (Star false is_dot); ws_star; Lit ";"; ws_star;
     Grp 3 (Star false is_dot); ws_star; Lit ")"; ws_plus; lit "do"]
    [blanks; token "for"; blanks; token "("; blanks; clause_text; blanks;
     token ";"; blanks; clause_text; blanks; token ";"; blanks; clause_text;
     blanks; token ")"; blanks1; token "do"]); [done|denotes_parts].
Qed.

Lemma is_header_form line : is_header line = true ↔ header_form line.
Proof.
  unfold is_header, header_form.
  rewrite !orb_true_iff, RX_FOR_COUNTER_form, RX_FOR_ITER_form,
    RX_FOR_CSTYLE_form. tauto.
Qed.

Lemma RX_END_form line : RX_END line = true ↔ terminator_form line.
Proof.
  rewrite RX_END_matches.
  apply (matches_sequence true [ws_star; lit "end"] [blanks; token "end"]);
    [done|denotes_parts].
Qed.

Lemma depth_delta_form l :
  (header_form l → depth_delta l = 1)
  ∧ (terminator_form l → depth_delta l = -1)
  ∧ (¬ header_form l → ¬ terminator_form l → depth_delta l = 0).
Proof.
  rewrite <- is_header_form, <- RX_END_form.
  destruct (depth_delta_cases l) as [(H1 & H2 & H3)|[(H1 & H2 & H3)|(H1 & H2 & H3)]];
    rewrite H1, H2, H3; split_and!; congruence.
Qed.

(** C2.  Started just after a header, the block matcher keeps a depth counter
    that begins at 1, goes up by one on each header line, that is, on each
    line of one of the three header forms of the specification, and down by
    one on each terminator line, that is, on each line that is [end] between
    blanks; no other line changes it.  It succeeds exactly when the counter
    reaches 0, at the first such line [j]; that line is a terminator, the
    body is the lines strictly between the header and line [j], and the
    returned index is [j + 1].  A terminator right after the header gives the
    empty body.  A header nested in the body is matched to a terminator of
    its own that lies inside the body, and matching it inside the extracted
    body returns the same lines as matching it in the whole text. *)
Theorem collect_block_matching (lines : list string) (i : nat) (st : state) :
  (∀ l, (is_header l = true ↔ header_form l)
        ∧ (RX_END l = true ↔ terminator_form l)
        ∧ (header_form l → depth_delta l = 1)
        ∧ (terminator_form l → depth_delta l = -1)
        ∧ (¬ header_form l → ¬ terminator_form l → depth_delta l = 0))
  ∧ (∀ block k,
       collect_block lines i st = Done (block, k) st
       ↔ ∃ j, matching_end lines i j ∧ k = (j + 1)%nat
              ∧ block = take (j - i) (drop i lines))
  ∧ (∀ j, matching_end lines i j →
          (∃ e, lines !! j = Some e ∧ terminator_form e)
          ∧ ∀ j', matching_end lines i j' → j' = j)
  ∧ (∀ e, lines !! i = Some e → terminator_form e →
          collect_block lines i st = Done ([], (i + 1)%nat) st)
  ∧ (∀ j p h, matching_end lines i j → (i ≤ p < j)%nat →
       lines !! p = Some h → header_form h →
       ∃ q, (p < q < j)%nat ∧ matching_end lines (p + 1) q
            ∧ collect_block lines (p + 1) st
              = Done (take (q - (p + 1)) (drop (p + 1) lines), (q + 1)%nat) st
            ∧ collect_block (take (j - i) (drop i lines)) (p - i + 1) st
              = Done (take (q - (p + 1)) (drop (p + 1) lines), (q - i + 1)%nat) st).
Proof.
  split_and!.
  - intros l. split; [apply is_header_form|]. split; [apply RX_END_form|].
    apply depth_delta_form.
  - intros block k. rewrite collect_block_done. apply collect_scan_matching.
  - intros j Hj. split.
    + destruct (matching_end_is_end _ _ _ Hj) as (e & He & Hend).
      exists e. split; [done|]. by apply RX_END_form.
    + intros j' Hj'. by eapply matching_end_unique.
  - intros e He Hend%RX_END_form. apply collect_block_done.
    rewrite (drop_S lines e i He), collect_scan_cons.
    destruct (depth_delta_cases e) as [(_ & Hc & _)|[(_ & _ & ->)|(_ & Hc & _)]];
      [congruence| |congruence].
    by rewrite Hend.
  - intros j p h Hj Hp Hh Hhead%is_header_form.
    destruct (nested_match lines i j p h Hj Hp Hh Hhead) as (q & Hq & Hm & Hin).
    exists q. split; [done|]. split; [done|]. split.
    + apply collect_block_done, collect_scan_matching. by exists q.
    + by apply collect_block_done.
Qed.

(** A C-style loop nested in a counter loop: the first [end] closes the
    nested header, the second one the outer header, so the body of the outer
    loop holds the nested loop with its terminator. *)
Lemma collect_block_matching_witness :
  collect_block
    ["for a = 1 to 2 do"; "  FOR (;;) do"; "print b"; "end"; "End  "; "print 1"]
    1 init_state
  = Done (["  FOR (;;) do"; "print b"; "end"], 5%nat) init_state.
Proof.
  apply (proj1 (proj2 (collect_block_matching
           ["for a = 1 to 2 do"; "  FOR (;;) do"; "print b"; "end"; "End  ";
            "print 1"] 1 init_state))).
  exists 4%nat. split; [|split; reflexivity].
  split; [simpl; lia|]. split; [vm_compute; reflexivity|].
  intros j' Hj'.
  assert (Hc : (j' = 1 ∨ j' = 2 ∨ j' = 3)%nat) by lia.
  destruct Hc as [-> | [-> | ->]]; vm_compute; reflexivity.
Defined.

(** Two loops in sequence, each with a nested loop: every terminator goes to
    its own header. *)
Example collect_block_two_nested :
  let lines := ["for a = 1 to 2 do"; "for b in xs do"; "print b"; "end"; "end";
                "for (;;) do"; "for c = 1 to 2 do"; "end"; "end"] in
  collect_block lines 1 init_state
  = Done (["for b in xs do"; "print b"; "end"], 5%nat) init_state
  ∧ collect_block ["for b in xs do"; "print b"; "end"] 1 init_state
    = Done (["print b"], 3%nat) init_state
  ∧ collect_block lines 6 init_state
    = Done (["for c = 1 to 2 do"; "end"], 9%nat) init_state
  ∧ collect_block lines 7 init_state = Done ([], 8%nat) init_state.
Proof. vm_compute. repeat split. Qed.

(** X3.  The terminator pattern accepts exactly the lines whose text between
    leading and trailing blanks is [end] in any mix of upper and lower case. *)
Theorem terminator_lines (line : string) :
  RX_END line = true
  ↔ map to_lower (list_ascii_of_string (strip line))
    = list_ascii_of_string "end".
Proof.
  rewrite RX_END_spec. unfold char_eqb. split.
  - intros (e & n & d & -> & He & Hn & Hd).
    apply Ascii.eqb_eq in He, Hn, Hd. simpl. by rewrite <- He, <- Hn, <- Hd.
  - destruct (list_ascii_of_string (strip line)) as [|e [|n [|d [|]]]]; try done.
    simpl. intros [= He Hn Hd]. exists e, n, d. split; [done|].
    rewrite He, Hn, Hd. by vm_compute.
Qed.

(** X4.  The block matcher tests a line as it stands and the statement
    executor tests the line without its trailing blanks; both see the same
    headers, of the same form, and the same terminators. *)
Theorem matcher_and_executor_agree (raw : string) :
  matched (RX_FOR_COUNTER (rstrip raw)) = matched (RX_FOR_COUNTER raw)
  ∧ matched (RX_FOR_ITER (rstrip raw)) = matched (RX_FOR_ITER raw)
  ∧ matched (RX_FOR_CSTYLE (rstrip raw)) = matched (RX_FOR_CSTYLE raw)
  ∧ RX_END (rstrip raw) = RX_END raw.
Proof.
  split_and!; [apply RX_FOR_COUNTER_rstrip|apply RX_FOR_ITER_rstrip
              |apply RX_FOR_CSTYLE_rstrip|apply RX_END_rstrip].
Qed.

(** ** Leading blanks and the captures *)

Lemma or_else_None (a : option caps) : or_else a None = a.
Proof. by destruct a. Qed.

(** The greedy [p*] in front of a continuation that rejects every text
    beginning with a character of [p] takes the whole run. *)
Lemma star_skip p k w s c pos :
  forallb p w = true →
  (∀ pos x t c', p x = true → k pos (x :: t) c' = None) →
  star true p pos (w ++ s) c k = star true p (pos + length w) s c k.
Proof.
  intros Hw Hk. revert pos. induction w as [|x w IH]; intros pos; simpl.
  - by rewrite Nat.add_0_r.
  - apply andb_true_iff in Hw as [Hx Hw]. rewrite Hx.
    rewrite (Hk pos x _ c Hx), or_else_None, IH by done.
    by rewrite Nat.add_succ_comm.
Qed.

Lemma star_shift g p n k k' :
  (∀ pos s c, k (n + pos)%nat s c = k' pos s c) →
  ∀ s pos c, star g p (n + pos) s c k = star g p pos s c k'.
Proof.
  intros Hk. induction s as [|x s IH]; intros pos c; simpl; [done|].
  rewrite Hk. rewrite <- (IH (S pos) c). by rewrite Nat.add_succ_r.
Qed.

(** A pattern without [^] does not see how many characters came before. *)
Lemma rmatch_shift icase r n :
  bos_free r = true →
  ∀ k k', (∀ pos s c, k (n + pos)%nat s c = k' pos s c) →
  ∀ pos s c, rmatch icase r (n + pos) s c k = rmatch icase r pos s c k'.
Proof.
  induction r as [| | |a|p|g p|g p|r1 IH1 r2 IH2|m r IH|r IH];
    intros Hf k k' Hk pos s c; cbn [rmatch]; try done.
  - destruct s as [|x [|y s]]; by rewrite ?Hk.
  - destruct s as [|x s]; [done|]. by rewrite <- Hk, Nat.add_succ_r.
  - destruct s as [|x s]; [done|]. by rewrite <- Hk, Nat.add_succ_r.
  - by apply star_shift.
  - destruct s as [|x s]; [done|]. rewrite <- Nat.add_succ_r.
    by rewrite (star_shift g p n k k' Hk).
  - simpl in Hf. apply andb_true_iff in Hf as [Hf1 Hf2].
    apply IH1; [done|]. intros pos' s' c'. by apply IH2.
  - simpl in Hf. apply IH; [done|]. intros pos' s' c'. rewrite Hk.
    by replace (n + pos' - (n + pos))%nat with (pos' - pos)%nat by lia.
  - simpl in Hf. by rewrite (IH Hf k k' Hk), Hk.
Qed.

(** A pattern [^ \s* R] whose [R] cannot begin with a blank gives the same
    captures on a line and on the line without its leading blanks. *)
Lemma pmatch_lstrip icase n (R : regex) line :
  bos_free R = true →
  (∀ pos x t c k, is_space x = true → rmatch icase R pos (x :: t) c k = None) →
  pmatch icase n (Seq Bos (Seq ws_star R)) (lstrip line)
  = pmatch icase n (Seq Bos (Seq ws_star R)) line.
Proof.
  intros Hf Hsp. unfold pmatch. rewrite chars_lstrip. cbn [rmatch Nat.eqb ws_star].
  destruct (lstrip_l_split (list_ascii_of_string line)) as (w & Hs & Hw).
  rewrite Hs at 2.
  rewrite star_skip; [|done|by intros; apply Hsp].
  set (k0 := fun (_ : nat) (_ : list ascii) (c : caps) => Some c).
  simpl. symmetry.
  rewrite <- (Nat.add_0_r (length w)).
  apply star_shift. intros pos s c. by apply rmatch_shift.
Qed.

Ltac rejects_space :=
  let pos := fresh in let x := fresh "x" in let t := fresh in
  let c := fresh in let k := fresh in let Hx := fresh "Hx" in
  intros pos x t c k Hx; cbn -[char_eqb]; 
  match goal with
  | |- (if ?b then _ else None) = None =>
      let E := fresh in destruct b eqn:E; [|done]; exfalso; revert E Hx
  end.

Lemma space_facts (x : ascii) :
  is_space x = true →
  char_eqb true "f" x = false ∧ char_eqb true "e" x = false
  ∧ char_eqb true "p" x = false ∧ is_ident_start x = false.
Proof.
  revert x.
  assert (H : ∀ x, implb (is_space x)
     (negb (char_eqb true "f" x) && negb (char_eqb true "e" x)
      && negb (char_eqb true "p" x) && negb (is_ident_start x)) = true)
    by (apply forall_ascii; vm_compute; reflexivity).
  intros x Hx. specialize (H x). rewrite Hx in H. simpl in H.
  apply andb_true_iff in H as [[[H1 H2]%andb_true_iff H3]%andb_true_iff H4].
  by rewrite !negb_true_iff in *.
Qed.

Lemma RX_FOR_COUNTER_lstrip line :
  RX_FOR_COUNTER (lstrip line) = RX_FOR_COUNTER line.
Proof.
  unfold RX_FOR_COUNTER.
  change rx_for_counter with (Seq Bos (Seq ws_star (cat
      [lit "for"; ws_plus; Grp 1 ident; ws_star; Lit "=";
       ws_star; Grp 2 (Plus false is_dot); ws_plus; lit "to"; ws_plus;
       Grp 3 (Plus false is_dot);
       Opt (cat [ws_plus; lit "by"; ws_plus; Grp 4 (Plus false is_dot)]);
       ws_plus; lit "do"; ws_star; Eos]))).
  rewrite pmatch_lstrip; [done|done|].
  rejects_space. intros E Hx. destruct (space_facts _ Hx) as (Hnot & _). congruence.
Qed.

Lemma RX_FOR_ITER_lstrip line : RX_FOR_ITER (lstrip line) = RX_FOR_ITER line.
Proof.
  unfold RX_FOR_ITER.
  change rx_for_iter with (Seq Bos (Seq ws_star (cat
      [lit "for"; ws_plus; Grp 1 ident; ws_plus; lit "in";
       ws_plus; Grp 2 (Plus false is_dot); ws_plus; lit "do"; ws_star; Eos]))).
  rewrite pmatch_lstrip; [done|done|].
  rejects_space. intros E Hx. destruct (space_facts _ Hx) as (Hnot & _). congruence.
Qed.

Lemma RX_FOR_CSTYLE_lstrip line :
  RX_FOR_CSTYLE (lstrip line) = RX_FOR_CSTYLE line.
Proof.
  unfold RX_FOR_CSTYLE.
  change rx_for_cstyle with (Seq Bos (Seq ws_star (cat
      [lit "for"; ws_star; Lit "("; ws_star;
       Grp 1 (Star false is_dot); ws_star; Lit ";"; ws_star;
       Grp 2 (Star false is_dot); ws_star; Lit ";"; ws_star;
       Grp 3 (Star false is_dot); ws_star; Lit ")"; ws_plus; lit "do";
       ws_star; Eos]))).
  rewrite pmatch_lstrip; [done|done|].
  rejects_space. intros E Hx. destruct (space_facts _ Hx) as (Hnot & _). congruence.
Qed.

Lemma RX_END_lstrip line : RX_END (lstrip line) = RX_END line.
Proof.
  unfold RX_END.
  change rx_end with (Seq Bos (Seq ws_star (cat [lit "end"; ws_star; Eos]))).
  rewrite pmatch_lstrip; [done|done|].
  rejects_space. intros E Hx. destruct (space_facts _ Hx) as (_ & Hnot & _).
  congruence.
Qed.

Lemma RX_PRINT_lstrip line : RX_PRINT (lstrip line) = RX_PRINT line.
Proof.
  unfold RX_PRINT.
  change rx_print with (Seq Bos (Seq ws_star (cat
      [lit "print"; ws_plus; Grp 1 (Plus true is_dot); ws_star; Eos]))).
  rewrite pmatch_lstrip; [done|done|].
  rejects_space. intros E Hx. destruct (space_facts _ Hx) as (_ & _ & Hnot & _).
  congruence.
Qed.

Lemma RX_ASSIGN_lstrip line : RX_ASSIGN (lstrip line) = RX_ASSIGN line.
Proof.
  unfold RX_ASSIGN.
  change rx_assign with (Seq Bos (Seq ws_star (cat
      [Grp 1 ident; ws_star; Lit "="; ws_star;
       Grp 2 (Plus true is_dot); ws_star; Eos]))).
  rewrite pmatch_lstrip; [done|done|].
  rejects_space. intros E Hx. destruct (space_facts _ Hx) as (_ & _ & _ & Hnot).
  congruence.
Qed.

(** ** The line forms against one another *)

Ltac open_star E w s Hs Hw :=
  apply star_inv in E as (w & s & Hs & Hw & E).

Ltac open_char E s x t Hb :=
  destruct s as [|x t]; [discriminate E|];
  match type of E with
  | (if ?b then _ else None) = Some _ => destruct b eqn:Hb; [|discriminate E]
  end.

Lemma word_facts (x : ascii) :
  (char_eqb true "f" x || char_eqb true "o" x || char_eqb true "r" x
   || char_eqb true "e" x || char_eqb true "n" x || char_eqb true "d" x = true
   → is_word x = true ∧ is_space x = false)
  ∧ (is_ident_start x = true → is_word x = true ∧ is_space x = false)
  ∧ (char_eqb true "(" x = true → is_word x = false)
  ∧ (char_eqb false "=" x = true →
     is_word x = false ∧ is_space x = false ∧ is_ident_start x = false
     ∧ char_eqb true "(" x = false).
Proof.
  revert x.
  assert (H : ∀ x,
    implb (char_eqb true "f" x || char_eqb true "o" x || char_eqb true "r" x
           || char_eqb true "e" x || char_eqb true "n" x || char_eqb true "d" x)
      (is_word x && negb (is_space x))
    && implb (is_ident_start x) (is_word x && negb (is_space x))
    && implb (char_eqb true "(" x) (negb (is_word x))
    && implb (char_eqb false "=" x)
         (negb (is_word x) && negb (is_space x) && negb (is_ident_start x)
          && negb (char_eqb true "(" x)) = true)
    by (apply forall_ascii; vm_compute; reflexivity).
  intros x. specialize (H x).
  apply andb_true_iff in H as [[[H1 H2]%andb_true_iff H3]%andb_true_iff H4].
  split_and!.
  - intros Hx. rewrite Hx in H1. simpl in H1.
    apply andb_true_iff in H1 as [Ha Hb]. by rewrite negb_true_iff in Hb.
  - intros Hx. rewrite Hx in H2. simpl in H2.
    apply andb_true_iff in H2 as [Ha Hb]. by rewrite negb_true_iff in Hb.
  - intros Hx. rewrite Hx in H3. by apply negb_true_iff.
  - intros Hx. rewrite Hx in H4. simpl in H4.
    apply andb_true_iff in H4 as [[[Ha Hb]%andb_true_iff Hc]%andb_true_iff Hd].
    by rewrite !negb_true_iff in *.
Qed.

(** What follows the keyword [for] of a header: a name or a parenthesis. *)
Lemma after_name_intro (line : string) (w0 wd rest : list ascii) (z : ascii) :
  list_ascii_of_string line = w0 ++ z :: wd ++ rest →
  forallb is_space w0 = true → is_space z = false → is_word z = true →
  forallb is_word wd = true →
  match rest with x :: _ => is_word x = false | [] => True end →
  after_name line = lstrip_l rest.
Proof.
  intros Hs Hw0 Hz Hz' Hwd Hrest. unfold after_name. rewrite Hs.
  rewrite lstrip_l_skip by done.
  change (z :: wd ++ rest) with ((z :: wd) ++ rest).
  rewrite skip_word_skip; [done| |done]. simpl. by rewrite Hz', Hwd.
Qed.

Lemma header_after_name line :
  is_header line = true →
  ∃ x t, after_name line = x :: t
         ∧ (is_ident_start x = true ∨ char_eqb true "(" x = true).
Proof.
  unfold is_header. intros [[H|H]%orb_true_iff|H]%orb_true_iff.
  - revert H. unfold RX_FOR_COUNTER, matched, pmatch.
    destruct (rmatch _ _ _ _ _ _) eqn:E; [|done]. intros _. cbn -[char_eqb] in E.
    open_star E w0 s0 Hs0 Hw0.
    open_char E s0 c1 s1 Hc1. open_char E s1 c2 s2 Hc2. open_char E s2 c3 s3 Hc3.
    open_char E s3 c4 s4 Hc4.
    open_star E w1 s5 Hs5 Hw1. open_char E s5 z s6 Hz. clear E. subst s4.
    destruct (word_facts c1) as (F1 & _). destruct (word_facts c2) as (F2 & _).
    destruct (word_facts c3) as (F3 & _). destruct (word_facts z) as (_ & Fz & _).
    rewrite Hc1 in F1. rewrite Hc2 in F2. rewrite Hc3 in F3.
    rewrite ?orb_true_r in *. simpl in *.
    destruct (F1 eq_refl) as [G1 G1']. destruct (F2 eq_refl) as [G2 _].
    destruct (F3 eq_refl) as [G3 _]. destruct (Fz Hz) as [_ Gz].
    exists z, s6. split; [|by left].
    rewrite (after_name_intro line w0 [c2; c3] (c4 :: w1 ++ z :: s6) c1);
      try done.
    + change (c4 :: w1 ++ z :: s6) with ((c4 :: w1) ++ z :: s6).
      apply lstrip_l_skip; [|done]. simpl. by rewrite Hc4.
    + simpl. by rewrite G2, G3.
    + by apply space_not_word.
  - revert H. unfold RX_FOR_ITER, matched, pmatch.
    destruct (rmatch _ _ _ _ _ _) eqn:E; [|done]. intros _. cbn -[char_eqb] in E.
    open_star E w0 s0 Hs0 Hw0.
    open_char E s0 c1 s1 Hc1. open_char E s1 c2 s2 Hc2. open_char E s2 c3 s3 Hc3.
    open_char E s3 c4 s4 Hc4.
    open_star E w1 s5 Hs5 Hw1. open_char E s5 z s6 Hz. clear E. subst s4.
    destruct (word_facts c1) as (F1 & _). destruct (word_facts c2) as (F2 & _).
    destruct (word_facts c3) as (F3 & _). destruct (word_facts z) as (_ & Fz & _).
    rewrite Hc1 in F1. rewrite Hc2 in F2. rewrite Hc3 in F3.
    rewrite ?orb_true_r in *. simpl in *.
    destruct (F1 eq_refl) as [G1 G1']. destruct (F2 eq_refl) as [G2 _].
    destruct (F3 eq_refl) as [G3 _]. destruct (Fz Hz) as [_ Gz].
    exists z, s6. split; [|by left].
    rewrite (after_name_intro line w0 [c2; c3] (c4 :: w1 ++ z :: s6) c1);
      try done.
    + change (c4 :: w1 ++ z :: s6) with ((c4 :: w1) ++ z :: s6).
      apply lstrip_l_skip; [|done]. simpl. by rewrite Hc4.
    + simpl. by rewrite G2, G3.
    + by apply space_not_word.
  - revert H. unfold RX_FOR_CSTYLE, matched, pmatch.
    destruct (rmatch _ _ _ _ _ _) eqn:E; [|done]. intros _. cbn -[char_eqb] in E.
    open_star E w0 s0 Hs0 Hw0.
    open_char E s0 c1 s1 Hc1. open_char E s1 c2 s2 Hc2. open_char E s2 c3 s3 Hc3.
    open_star E w1 s4 Hs4 Hw1. open_char E s4 x s5 Hx. clear E. subst s3.
    destruct (word_facts c1) as (F1 & _). destruct (word_facts c2) as (F2 & _).
    destruct (word_facts c3) as (F3 & _). destruct (word_facts x) as (_ & _ & Fx & _).
    destruct (char_facts x) as (_ & _ & Fx' & _).
    rewrite Hc1 in F1. rewrite Hc2 in F2. rewrite Hc3 in F3.
    rewrite ?orb_true_r in *. simpl in *.
    destruct (F1 eq_refl) as [G1 G1']. destruct (F2 eq_refl) as [G2 _].
    destruct (F3 eq_refl) as [G3 _]. destruct (Fx' Hx) as [Gx _].
    exists x, s5. split; [|by right].
    rewrite (after_name_intro line w0 [c2; c3] (w1 ++ x :: s5) c1); try done.
    + by apply lstrip_l_skip.
    + simpl. by rewrite G2, G3.
    + destruct w1 as [|y w1]; simpl; [by apply Fx|].
      simpl in Hw1. apply andb_true_iff in Hw1 as [Hy _].
      by apply space_not_word.
Qed.

Lemma end_after_name line : RX_END line = true → after_name line = [].
Proof.
  intros (w & e & n & d & t & Hs & Hw & Ht & He & Hn & Hd)%RX_END_shape.
  destruct (word_facts e) as (F1 & _). destruct (word_facts n) as (F2 & _).
  destruct (word_facts d) as (F3 & _).
  rewrite He in F1. rewrite Hn in F2. rewrite Hd in F3.
  rewrite ?orb_true_r in *. simpl in *.
  destruct (F1 eq_refl) as [G1 G1']. destruct (F2 eq_refl) as [G2 _].
  destruct (F3 eq_refl) as [G3 _].
  rewrite (after_name_intro line w [n; d] t e); try done.
  - by apply lstrip_l_nil.
  - simpl. by rewrite G2, G3.
  - destruct t as [|y t]; [done|]. simpl in Ht.
    apply andb_true_iff in Ht as [Hy _]. by apply space_not_word.
Qed.

Lemma assign_after_name line :
  matched (RX_ASSIGN line) = true →
  ∃ x t, after_name line = x :: t ∧ char_eqb false "=" x = true.
Proof.
  unfold RX_ASSIGN, matched, pmatch.
  destruct (rmatch _ _ _ _ _ _) eqn:E; [|done]. intros _. cbn -[char_eqb] in E.
  open_star E w0 s0 Hs0 Hw0. open_char E s0 z s1 Hz.
  open_star E wd s2 Hs2 Hwd. open_star E w1 s3 Hs3 Hw1.
  open_char E s3 x s4 Hx. clear E. subst s1 s2.
  destruct (word_facts z) as (_ & Fz & _). destruct (Fz Hz) as [Gz Gz'].
  destruct (word_facts x) as (_ & _ & _ & Fx).
  destruct (Fx Hx) as (Gx & Gx' & _).
  exists x, s4. split; [|done].
  rewrite (after_name_intro line w0 wd (w1 ++ x :: s4) z); try done.
  - by apply lstrip_l_skip.
  - destruct w1 as [|y w1]; simpl; [done|]. simpl in Hw1.
    apply andb_true_iff in Hw1 as [Hy _]. by apply space_not_word.
Qed.

Lemma assign_not_header line :
  matched (RX_ASSIGN line) = true → is_header line = false.
Proof.
  intros (x & t & Hx & Heq)%assign_after_name.
  destruct (is_header line) eqn:Hh; [|done].
  apply header_after_name in Hh as (y & u & Hy & Hor).
  rewrite Hx in Hy. injection Hy as <- <-.
  destruct (word_facts x) as (_ & _ & _ & Fx).
  destruct (Fx Heq) as (_ & _ & G1 & G2). destruct Hor; congruence.
Qed.

Lemma assign_not_end line :
  matched (RX_ASSIGN line) = true → RX_END line = false.
Proof.
  intros (x & t & Hx & Heq)%assign_after_name.
  destruct (RX_END line) eqn:He; [|done].
  apply end_after_name in He. congruence.
Qed.

Lemma letter_facts (x : ascii) :
  char_eqb true "p" x = true →
  char_eqb true "f" x = false ∧ char_eqb true "e" x = false.
Proof.
  revert x.
  assert (H : ∀ x, implb (char_eqb true "p" x)
     (negb (char_eqb true "f" x) && negb (char_eqb true "e" x)) = true)
    by (apply forall_ascii; vm_compute; reflexivity).
  intros x Hx. specialize (H x). rewrite Hx in H. simpl in H.
  apply andb_true_iff in H as [H1 H2]. by rewrite !negb_true_iff in *.
Qed.

Lemma print_not_header line :
  matched (RX_PRINT line) = true → is_header line = false.
Proof.
  intros (x & t & Hl & Hx)%RX_PRINT_first.
  destruct (is_header line) eqn:Hh; [|done].
  apply is_header_first in Hh as (y & u & Hl' & Hy).
  rewrite Hl in Hl'. injection Hl' as <- <-.
  apply letter_facts in Hx as [? ?]. congruence.
Qed.

Lemma print_not_end line :
  matched (RX_PRINT line) = true → RX_END line = false.
Proof.
  intros (x & t & Hl & Hx)%RX_PRINT_first.
  destruct (RX_END line) eqn:Hh; [|done].
  apply RX_END_first in Hh as (y & u & Hl' & Hy).
  rewrite Hl in Hl'. injection Hl' as <- <-.
  apply letter_facts in Hx as [? ?]. congruence.
Qed.

(** X1.  No line is a loop header of two forms: a line that the counter
    pattern matches is matched by neither the iterator nor the C-style
    pattern, and so on; the order in which the three header patterns are
    tried never decides what a line is. *)
Theorem header_forms_exclusive (line : string) :
  (matched (RX_FOR_COUNTER line) = true →
     matched (RX_FOR_ITER line) = false ∧ matched (RX_FOR_CSTYLE line) = false)
  ∧ (matched (RX_FOR_ITER line) = true →
     matched (RX_FOR_COUNTER line) = false ∧ matched (RX_FOR_CSTYLE line) = false)
  ∧ (matched (RX_FOR_CSTYLE line) = true →
     matched (RX_FOR_COUNTER line) = false ∧ matched (RX_FOR_ITER line) = false).
Proof.
  destruct (headers_exclusive line) as (H1 & H2 & H3).
  destruct (matched (RX_FOR_COUNTER line)), (matched (RX_FOR_ITER line)),
    (matched (RX_FOR_CSTYLE line)); split_and!; intros; split; auto;
    try discriminate; by (apply H1 || apply H2 || apply H3).
Qed.

(** X2.  A line that the statement executor skips as blank or as a comment
    is no header and no terminator for the block matcher, which looks at the
    line as it stands, and matches neither the print nor the assignment
    pattern: a commented-out [end] or [for] counts for nothing. *)
Theorem skipped_lines_are_inert (raw : string) :
  blank_or_comment (rstrip raw) = true →
  is_header raw = false ∧ RX_END raw = false
  ∧ RX_PRINT (rstrip raw) = None ∧ RX_ASSIGN (rstrip raw) = None.
Proof.
  intros Hb.
  assert (Hnone : is_header (rstrip raw) || RX_END (rstrip raw)
                  || matched (RX_PRINT (rstrip raw))
                  || matched (RX_ASSIGN (rstrip raw)) = false).
  { destruct (_ || _ || _ || _) eqn:E; [|done].
    apply pattern_not_blank in E. congruence. }
  apply orb_false_iff in Hnone as [[[H1 H2]%orb_false_iff H3]%orb_false_iff H4].
  rewrite is_header_rstrip in H1. rewrite RX_END_rstrip in H2.
  split_and!; [done|done| |].
  - by destruct (RX_PRINT (rstrip raw)).
  - by destruct (RX_ASSIGN (rstrip raw)).
Qed.

Lemma skipped_lines_are_inert_witness :
  is_header "  # end" = false ∧ RX_END "  # end" = false
  ∧ RX_PRINT (rstrip "  # end") = None ∧ RX_ASSIGN (rstrip "  # end") = None.
Proof. apply (skipped_lines_are_inert "  # end"). vm_compute. reflexivity. Defined.

(** X5.  A header line is no terminator, no print statement and no
    assignment, and a terminator line is no print statement and no
    assignment; the print and the assignment pattern do overlap, on a line
    such as [print = 3], and there the order of the tests decides: the line
    is a print statement. *)
Theorem only_print_and_assignment_overlap (line : string) :
  (is_header line = true →
     RX_END line = false ∧ RX_PRINT line = None ∧ RX_ASSIGN line = None)
  ∧ (RX_END line = true → RX_PRINT line = None ∧ RX_ASSIGN line = None)
  ∧ (∃ l e name rhs, RX_PRINT l = Some e ∧ RX_ASSIGN l = Some (name, rhs)
                     ∧ classify l = KPrint e).
Proof.
  split_and!.
  - intros Hh. split_and!.
    + destruct (RX_END line) eqn:E; [|done].
      apply end_not_header in E. congruence.
    + destruct (RX_PRINT line) eqn:E; [|done].
      rewrite print_not_header in Hh; [done|]. by rewrite E.
    + destruct (RX_ASSIGN line) eqn:E; [|done].
      rewrite assign_not_header in Hh; [done|]. by rewrite E.
  - intros He. split.
    + destruct (RX_PRINT line) eqn:E; [|done].
      rewrite print_not_end in He; [done|]. by rewrite E.
    + destruct (RX_ASSIGN line) eqn:E; [|done].
      rewrite assign_not_end in He; [done|]. by rewrite E.
  - exists "print = 3", "= 3", "print", "3". by vm_compute.
Qed.

(** ** What the statement executor returns *)

Lemma bind_Done {A B} (m : M A) (k : A → M B) st b st' :
  (m ≫= k) st = Done b st' →
  ∃ a st1, m st = Done a st1 ∧ k a st1 = Done b st'.
Proof.
  unfold mbind, M_bind, bind. destruct (m st) as [a st1| |]; [|done..].
  intros H. by exists a, st1.
Qed.

(** The kind of a line decides how the block matcher counts it. *)
Lemma classify_depth (l : string) :
  match classify l with
  | KCounter _ _ _ _ | KIter _ _ | KCStyle _ _ _ =>
      is_header l = true ∧ RX_END l = false
  | KEnd => is_header l = false ∧ RX_END l = true
  | _ => is_header l = false ∧ RX_END l = false
  end.
Proof.
  unfold classify. destruct (blank_or_comment l) eqn:Hb.
  - split.
    + destruct (is_header l) eqn:E; [|done].
      apply header_not_blank in E. congruence.
    + destruct (RX_END l) eqn:E; [|done].
      apply end_not_blank in E. congruence.
  - assert (Hh : is_header l = true → RX_END l = false).
    { intros Hh. destruct (RX_END l) eqn:E; [|done].
      apply end_not_header in E. congruence. }
    unfold is_header in *.
    destruct (RX_FOR_COUNTER l) as [[[[? ?] ?] ?]|]; [by auto|].
    destruct (RX_FOR_ITER l) as [[? ?]|]; [by auto|].
    destruct (RX_FOR_CSTYLE l) as [[[? ?] ?]|]; [by auto|]. simpl.
    destruct (RX_END l); [done|].
    destruct (RX_PRINT l); [done|]. by destruct (RX_ASSIGN l) as [[? ?]|].
Qed.

Lemma raw_depth_delta (raw : string) :
  depth_delta raw = depth_delta (rstrip raw).
Proof. unfold depth_delta. by rewrite is_header_rstrip, RX_END_rstrip. Qed.

Lemma depth_between_refl lines i : depth_between lines i i = 0.
Proof. unfold depth_between. by rewrite Nat.sub_diag. Qed.

Lemma depth_between_step lines i j raw :
  lines !! i = Some raw → (i < j)%nat →
  depth_between lines i j = depth_delta raw + depth_between lines (i + 1) j.
Proof.
  intros Hl Hij. unfold depth_between.
  rewrite (drop_S lines raw i Hl).
  replace (j - i)%nat with (S (j - (i + 1))) by lia.
  rewrite firstn_cons, depth_after_cons, depth_after_shift.
  by replace (S i) with (i + 1)%nat by lia.
Qed.

Lemma depth_between_add lines i m j :
  (i ≤ m ≤ j)%nat →
  depth_between lines i j = depth_between lines i m + depth_between lines m j.
Proof.
  intros Hm. unfold depth_between.
  replace (j - i)%nat with ((m - i) + (j - m))%nat by lia.
  rewrite <- take_take_drop, depth_after_app, depth_after_shift, drop_drop.
  by replace (i + (m - i))%nat with m by lia.
Qed.

(** A header line and its body up to and including the matching terminator
    count for nothing. *)
Lemma depth_between_block lines i raw block i' st st1 :
  lines !! i = Some raw → is_header raw = true →
  collect_block lines (i + 1) st = Done (block, i') st1 →
  (i + 1 < i' ≤ length lines)%nat ∧ depth_between lines i i' = 0.
Proof.
  intros Hl Hh Hb.
  assert (st1 = st) as ->.
  { unfold collect_block in Hb. destruct (collect_scan _ _ _ _); [|done].
    by injection Hb. }
  apply collect_block_done, collect_scan_matching in Hb
    as (j & ((Hij & Hj) & H0 & _) & -> & _).
  split; [lia|]. rewrite (depth_between_step lines i _ raw Hl) by lia.
  unfold depth_between. replace (j + 1 - (i + 1))%nat with (S j - (i + 1))%nat by lia.
  rewrite depth_after_shift in H0.
  destruct (depth_delta_cases raw) as [(_ & _ & ->)|[(? & _)|(? & _)]];
    [lia|congruence..].
Qed.

Section Returns.
Variable _eval : string → M value.

(** Where [_exec_lines] returns: not before the line it started at and not
    past the end of the text; the lines it went through hold as many headers
    as terminators; and if it returns before the end of the text, the line it
    returns is a terminator. *)
Lemma exec_lines_returns fuel :
  ∀ lines i st j st',
  exec_lines _eval fuel lines i st = Done j st' →
  (i ≤ j)%nat ∧ (j ≤ i `max` length lines)%nat
  ∧ depth_between lines i j = 0
  ∧ (∀ raw, lines !! j = Some raw → RX_END (rstrip raw) = true).
Proof.
  induction fuel as [|f IH]; intros lines i st j st' H; [done|].
  destruct (lines !! i) as [raw|] eqn:Hl.
  2: { rewrite exec_lines_past_end in H by done. injection H as <- <-.
       split_and!; [lia|lia|apply depth_between_refl|]. intros raw. by rewrite Hl. }
  assert (Hlen : (i < length lines)%nat) by (by eapply lookup_lt_Some).
  pose proof (classify_depth (rstrip raw)) as Hd.
  rewrite is_header_rstrip, RX_END_rstrip in Hd.
  assert (Hnext : ∀ st1, is_header raw = false → RX_END raw = false →
            exec_lines _eval f lines (i + 1) st1 = Done j st' →
            (i ≤ j)%nat ∧ (j ≤ i `max` length lines)%nat
            ∧ depth_between lines i j = 0
            ∧ (∀ raw, lines !! j = Some raw → RX_END (rstrip raw) = true)).
  { intros st1 Hh He Hx. apply IH in Hx as (H1 & H2 & H3 & H4).
    split_and!; [lia|lia| |done].
    rewrite (depth_between_step lines i j raw Hl) by lia. rewrite H3.
    unfold depth_delta. rewrite Hh, He. lia. }
  assert (Hloop : ∀ block i' st0 st1 st2, is_header raw = true →
            collect_block lines (i + 1) st0 = Done (block, i') st1 →
            exec_lines _eval f lines i' st2 = Done j st' →
            (i ≤ j)%nat ∧ (j ≤ i `max` length lines)%nat
            ∧ depth_between lines i j = 0
            ∧ (∀ raw, lines !! j = Some raw → RX_END (rstrip raw) = true)).
  { intros block i' st0 st1 st2 Hh Hb Hx.
    destruct (depth_between_block lines i raw block i' st0 st1 Hl Hh Hb)
      as [Hi' H0].
    apply IH in Hx as (H1 & H2 & H3 & H4).
    split_and!; [lia|lia| |done].
    rewrite (depth_between_add lines i i' j) by lia. lia. }
  destruct (classify (rstrip raw)) eqn:Hc.
  - rewrite (exec_lines_blank _ _ _ _ _ Hl Hc) in H.
    destruct Hd. by eapply Hnext.
  - rewrite (exec_lines_counter _ _ _ _ _ _ _ _ _ Hl Hc) in H.
    apply bind_Done in H as (a & s1 & _ & H).
    apply bind_Done in H as (b & s2 & _ & H).
    apply bind_Done in H as (c & s3 & _ & H).
    destruct (py_eq c (VInt 0)); [done|].
    apply bind_Done in H as ([block i'] & s4 & Hb & H).
    apply bind_Done in H as (up & s5 & _ & H).
    apply bind_Done in H as (u & s6 & _ & H).
    destruct Hd. by eapply Hloop.
  - rewrite (exec_lines_iter _ _ _ _ _ _ _ Hl Hc) in H.
    apply bind_Done in H as (a & s1 & _ & H).
    apply bind_Done in H as ([block i'] & s4 & Hb & H).
    apply bind_Done in H as (items & s5 & _ & H).
    apply bind_Done in H as (u & s6 & _ & H).
    destruct Hd. by eapply Hloop.
  - rewrite (exec_lines_cstyle _ _ _ _ _ _ _ _ Hl Hc) in H.
    apply bind_Done in H as ([block i'] & s4 & Hb & H).
    apply bind_Done in H as (u & s5 & _ & H).
    apply bind_Done in H as (u' & s6 & _ & H).
    destruct Hd. by eapply Hloop.
  - rewrite (exec_lines_end _ _ _ _ _ Hl Hc) in H. injection H as <- <-.
    split_and!; [lia|lia|apply depth_between_refl|].
    intros raw'. rewrite Hl. intros [= <-]. rewrite RX_END_rstrip. by destruct Hd.
  - rewrite (exec_lines_print _ _ _ _ _ _ Hl Hc) in H.
    apply bind_Done in H as (a & s1 & _ & H).
    apply bind_Done in H as (u & s2 & _ & H).
    destruct Hd. by eapply Hnext.
  - rewrite (exec_lines_assign _ _ _ _ _ _ _ Hl Hc) in H.
    apply bind_Done in H as (a & s1 & _ & H).
    apply bind_Done in H as (u & s2 & _ & H).
    destruct Hd. by eapply Hnext.
  - by rewrite (exec_lines_unrecognized _ _ _ _ _ Hl Hc) in H.
Qed.

End Returns.

(** ** Bodies are balanced *)

(** In a body found by the block matcher no prefix holds more terminators
    than headers. *)
Lemma block_prefix_depth lines i block k n :
  collect_scan (drop i lines) i [] 1 = Some (block, k) →
  0 ≤ depth_after 0 (take n block).
Proof.
  intros (j & ((Hij & Hj) & H0 & Hpos) & -> & ->)%collect_scan_matching.
  rewrite take_take.
  destruct (decide (n `min` (j - i) = 0)%nat) as [->|Hne]; [done|].
  specialize (Hpos (i + (n `min` (j - i)) - 1)%nat ltac:(lia)).
  replace (S (i + n `min` (j - i) - 1) - i)%nat with (n `min` (j - i))%nat
    in Hpos by lia.
  rewrite depth_after_shift in Hpos. lia.
Qed.

Section Bodies.
Variable _eval : string → M value.

(** [_exec_lines] on a body found by the block matcher never returns at a
    terminator: when it returns, it has gone through the whole body. *)
Lemma exec_block_whole lines i block k fuel st j st' :
  collect_scan (drop i lines) i [] 1 = Some (block, k) →
  exec_lines _eval fuel block 0 st = Done j st' →
  j = length block.
Proof.
  intros Hb (H1 & H2 & H3 & H4)%exec_lines_returns.
  destruct (decide (j < length block)%nat) as [Hlt|]; [|lia].
  destruct (lookup_lt_is_Some_2 block j Hlt) as [raw Hraw].
  specialize (H4 raw Hraw). rewrite RX_END_rstrip in H4.
  pose proof (block_prefix_depth lines i block k (S j) Hb) as Hp.
  rewrite (take_S_r block j raw Hraw), depth_after_app in Hp.
  unfold depth_between in H3. rewrite Nat.sub_0_r, drop_0 in H3.
  rewrite H3 in Hp. unfold depth_after in Hp. simpl in Hp.
  destruct (depth_delta_cases raw) as [(_ & ? & _)|[(_ & _ & Hd)|(_ & ? & _)]];
    [congruence|lia|congruence].
Qed.

End Bodies.

(** X6.  When [_exec_lines] returns, the index it returns is not before the
    line it started at and not past the end of the text; the lines it went
    through hold as many headers as terminators; and a line at the returned
    index is a terminator: the executor returns at the end of the text or at
    a terminator that closes no header it went through. *)
Theorem exec_lines_return_index (_eval : string → M value) (fuel : nat)
    (lines : list string) (i : nat) (st : state) (j : nat) (st' : state) :
  exec_lines _eval fuel lines i st = Done j st' →
  (i ≤ j)%nat ∧ (j ≤ i `max` length lines)%nat
  ∧ depth_between lines i j = 0
  ∧ (∀ raw, lines !! j = Some raw → RX_END (rstrip raw) = true).
Proof. apply exec_lines_returns. Qed.

Lemma exec_lines_return_index_witness :
  (0 ≤ 2)%nat ∧ (2 ≤ 0 `max` length ["print 1"; "# note"; "end"; "print 2"])%nat
  ∧ depth_between ["print 1"; "# note"; "end"; "print 2"] 0 2 = 0
  ∧ (∀ raw, ["print 1"; "# note"; "end"; "print 2"] !! 2%nat = Some raw →
            RX_END (rstrip raw) = true).
Proof.
  apply (exec_lines_return_index Demo.demo_eval 5
           ["print 1"; "# note"; "end"; "print 2"] 0 init_state 2
           (mkState ∅ [VInt 1])).
  vm_compute. reflexivity.
Defined.

(** X7.  On a body found by the block matcher [_exec_lines] never returns
    at a terminator: when it returns, it is at the end of the body.  So the
    loop of [_run_block] calls [_exec_lines] once, and running a body is
    executing its lines from the first. *)
Theorem body_runs_in_one_call (_eval : string → M value)
    (lines : list string) (i : nat) (st0 : state) (block : list string)
    (k : nat) :
  collect_block lines i st0 = Done (block, k) st0 →
  (∀ fuel st j st',
     exec_lines _eval fuel block 0 st = Done j st' → j = length block)
  ∧ (∀ fuel st,
       run_block _eval (S (S fuel)) block st
       = (exec_lines _eval (S fuel) block 0 ≫= λ _, mret tt) st).
Proof.
  intros Hb%collect_block_done. split.
  - intros fuel st j st'. by eapply exec_block_whole.
  - intros fuel st. unfold run_block. cbn [drive].
    destruct (0 <? length block)%nat eqn:E.
    + unfold mbind, M_bind, bind.
      destruct (exec_lines _eval (S fuel) block 0 st) as [j s| |] eqn:Ej; [|done..].
      rewrite (exec_block_whole _eval lines i block k _ _ _ _ Hb Ej).
      rewrite (proj2 (Nat.ltb_ge _ _)) by lia. done.
    + apply Nat.ltb_ge in E. destruct block; [done|simpl in E; lia].
Qed.

Lemma body_runs_in_one_call_witness :
  run_block Demo.demo_eval 3 ["print i"; "print i + i"]
    (mkState {[ "i" := VInt 1 ]} [])
  = (exec_lines Demo.demo_eval 2 ["print i"; "print i + i"] 0 ≫= λ _, mret tt)
      (mkState {[ "i" := VInt 1 ]} []).
Proof.
  apply (proj2 (body_runs_in_one_call Demo.demo_eval
                  ["for i = 1 to 2 do"; "print i"; "print i + i"; "end"] 1
                  init_state ["print i"; "print i + i"] 4 eq_refl)).
Defined.

(** ** Blanks around a line *)

Lemma rstrip_idem (x : string) : rstrip (rstrip x) = rstrip x.
Proof. unfold rstrip at 1. by rewrite chars_rstrip, rstrip_l_idem. Qed.

Lemma strip_rstrip (x : string) : strip (rstrip x) = strip x.
Proof. unfold strip. by rewrite rstrip_idem. Qed.

Lemma blank_or_comment_rstrip (x : string) :
  blank_or_comment (rstrip x)
  = negb (nonempty (strip x)) || startswith (strip x) "#".
Proof. unfold blank_or_comment. by rewrite strip_rstrip. Qed.

(** The statement executor classifies a line by its text between blanks. *)
Lemma same_text_tests (a b : string) :
  same_text a b →
  blank_or_comment (rstrip a) = blank_or_comment (rstrip b)
  ∧ RX_FOR_COUNTER (rstrip a) = RX_FOR_COUNTER (rstrip b)
  ∧ RX_FOR_ITER (rstrip a) = RX_FOR_ITER (rstrip b)
  ∧ RX_FOR_CSTYLE (rstrip a) = RX_FOR_CSTYLE (rstrip b)
  ∧ RX_END (rstrip a) = RX_END (rstrip b)
  ∧ RX_PRINT (rstrip a) = RX_PRINT (rstrip b)
  ∧ RX_ASSIGN (rstrip a) = RX_ASSIGN (rstrip b).
Proof.
  intros H. unfold same_text in H. rewrite !blank_or_comment_rstrip.
  rewrite <- (RX_FOR_COUNTER_lstrip (rstrip a)), <- (RX_FOR_COUNTER_lstrip (rstrip b)).
  rewrite <- (RX_FOR_ITER_lstrip (rstrip a)), <- (RX_FOR_ITER_lstrip (rstrip b)).
  rewrite <- (RX_FOR_CSTYLE_lstrip (rstrip a)), <- (RX_FOR_CSTYLE_lstrip (rstrip b)).
  rewrite <- (RX_END_lstrip (rstrip a)), <- (RX_END_lstrip (rstrip b)).
  rewrite <- (RX_PRINT_lstrip (rstrip a)), <- (RX_PRINT_lstrip (rstrip b)).
  rewrite <- (RX_ASSIGN_lstrip (rstrip a)), <- (RX_ASSIGN_lstrip (rstrip b)).
  fold (strip a) (strip b). by rewrite H.
Qed.

Lemma same_text_classify (a b : string) :
  same_text a b → classify (rstrip a) = classify (rstrip b).
Proof.
  intros (H1 & H2 & H3 & H4 & H5 & H6 & H7)%same_text_tests.
  unfold classify. by rewrite H1, H2, H3, H4, H5, H6, H7.
Qed.

(** The block matcher counts a line by its text between blanks. *)
Lemma same_text_depth (a b : string) :
  same_text a b → is_header a = is_header b ∧ RX_END a = RX_END b.
Proof.
  intros (_ & H2 & H3 & H4 & H5 & _)%same_text_tests.
  rewrite <- (is_header_rstrip a), <- (is_header_rstrip b).
  rewrite <- (RX_END_rstrip a), <- (RX_END_rstrip b).
  unfold is_header. by rewrite H2, H3, H4, H5.
Qed.

Lemma blank_classify (a : string) :
  blank_or_comment a = true → classify a = KBlank.
Proof. intros H. unfold classify. by rewrite H. Qed.

Lemma blank_depth (a : string) :
  blank_or_comment (rstrip a) = true → is_header a = false ∧ RX_END a = false.
Proof.
  intros H. pose proof (classify_depth (rstrip a)) as Hd.
  rewrite (blank_classify _ H), is_header_rstrip, RX_END_rstrip in Hd. done.
Qed.

Lemma same_line_classify (a b : string) :
  same_line a b → classify (rstrip a) = classify (rstrip b).
Proof.
  intros [H|[Ha Hb]]; [by apply same_text_classify|].
  by rewrite !blank_classify.
Qed.

Lemma same_line_depth (a b : string) :
  same_line a b → is_header a = is_header b ∧ RX_END a = RX_END b.
Proof.
  intros [H|[Ha Hb]]; [by apply same_text_depth|].
  destruct (blank_depth a Ha) as [-> ->]. by destruct (blank_depth b Hb) as [-> ->].
Qed.

Lemma collect_scan_same_line rest rest' i b b' d :
  Forall2 same_line rest rest' → Forall2 same_line b b' →
  match collect_scan rest i b d, collect_scan rest' i b' d with
  | Some (blk, k), Some (blk', k') => Forall2 same_line blk blk' ∧ k = k'
  | None, None => True
  | _, _ => False
  end.
Proof.
  intros Hr. revert i b b' d.
  induction Hr as [|l l' rest rest' Hl Hr IH]; intros i b b' d Hb; [done|].
  simpl. destruct (same_line_depth l l' Hl) as [-> ->].
  assert (Hb' : Forall2 same_line (b ++ [l]) (b' ++ [l'])).
  { apply Forall2_app; [done|]. by constructor. }
  destruct (RX_END l'); [destruct (_ =? 0)|];
    [by split|by apply IH|by apply IH].
Qed.

Lemma alike_bind {A A' B B'} E (R : A → A' → Prop) (S : B → B' → Prop)
    (m : M A) (m' : M A') (k : A → M B) (k' : A' → M B') st :
  alike E R (m st) (m' st) →
  (∀ a a' s, R a a' → alike E S (k a s) (k' a' s)) →
  alike E S ((m ≫= k) st) ((m' ≫= k') st).
Proof.
  unfold mbind, M_bind, bind, alike. intros Hm Hk.
  destruct (m st) as [a s|e s|], (m' st) as [a' s'|e' s'|]; try done.
  destruct Hm as [HR <-]. by apply Hk.
Qed.

Lemma alike_refl {A} (E : exn → exn → Prop) (r : result A) :
  (∀ e, E e e) → alike E eq r r.
Proof. intros HE. destruct r; simpl; auto. Qed.

Lemma same_error_refl e : same_error e e.
Proof. by left. Qed.

Lemma alike_same {A} (r : result A) : alike same_error eq r r.
Proof. apply alike_refl, same_error_refl. Qed.

Lemma alike_for_each {A} (body body' : A → M unit) (l : list A) st :
  (∀ a s, alike same_error eq (body a s) (body' a s)) →
  alike same_error eq (for_each body l st) (for_each body' l st).
Proof.
  intros Hb. revert st. induction l as [|x l IH]; intros st; simpl; [done|].
  apply (alike_bind same_error eq eq); [apply Hb|]. intros _ _ s _. apply IH.
Qed.

Lemma alike_collect ls ls' i st :
  Forall2 same_line ls ls' →
  alike same_error (fun r r' => Forall2 same_line r.1 r'.1 ∧ r.2 = r'.2)
    (collect_block ls i st) (collect_block ls' i st).
Proof.
  intros H. unfold collect_block.
  pose proof (collect_scan_same_line (drop i ls) (drop i ls') i [] [] 1
                (Forall2_drop _ _ _ _ H) (List.Forall2_nil same_line)) as Hs.
  destruct (collect_scan (drop i ls) i [] 1) as [[blk k]|],
           (collect_scan (drop i ls') i [] 1) as [[blk' k']|]; try done.
  simpl. split; [by left|done].
Qed.

Section SameLines.
Variable _eval : string → M value.

Lemma alike_all (f : nat) : alike_at _eval f.
Proof.
  induction f as [|f (IH1 & IH2 & IH3 & IH4 & IH5)]; [by repeat split|].
  assert (Hblock : ∀ b b' st, Forall2 same_line b b' →
            alike same_error eq (drive _eval f b 0 st) (drive _eval f b' 0 st)) by auto.
  split_and!.
  - intros ls ls' i st H.
    destruct (ls !! i) as [raw|] eqn:Hl.
    2: { assert (Hl' : ls' !! i = None).
         { apply lookup_ge_None. apply lookup_ge_None in Hl.
           by rewrite <- (Forall2_length _ _ _ H). }
         rewrite !exec_lines_past_end by done. done. }
    destruct (Forall2_lookup_l _ _ _ _ _ H Hl) as (raw' & Hl' & Ht).
    pose proof (same_line_classify raw raw' Ht) as Hcc.
    destruct (classify (rstrip raw)) eqn:Hc; symmetry in Hcc.
    + rewrite (exec_lines_blank _ _ _ _ _ Hl Hc), (exec_lines_blank _ _ _ _ _ Hl' Hcc).
      by apply IH1.
    + rewrite (exec_lines_counter _ _ _ _ _ _ _ _ _ Hl Hc),
        (exec_lines_counter _ _ _ _ _ _ _ _ _ Hl' Hcc).
      apply (alike_bind same_error eq eq); [apply alike_same|]. intros a ? s1 <-.
      apply (alike_bind same_error eq eq); [apply alike_same|]. intros b ? s2 <-.
      apply (alike_bind same_error eq eq); [apply alike_same|]. intros c ? s3 <-.
      destruct (py_eq c (VInt 0)); [apply alike_same|].
      eapply alike_bind; [by apply alike_collect|].
      intros [blk k] [blk' k'] s4 [Hb Hk]. simpl in Hb, Hk. subst k'.
      apply (alike_bind same_error eq eq); [apply alike_same|]. intros up ? s5 <-.
      apply (alike_bind same_error eq eq); [destruct up; auto|]. intros _ _ s6 _.
      by apply IH1.
    + rewrite (exec_lines_iter _ _ _ _ _ _ _ Hl Hc),
        (exec_lines_iter _ _ _ _ _ _ _ Hl' Hcc).
      apply (alike_bind same_error eq eq); [apply alike_same|]. intros a ? s1 <-.
      eapply alike_bind; [by apply alike_collect|].
      intros [blk k] [blk' k'] s4 [Hb Hk]. simpl in Hb, Hk. subst k'.
      apply (alike_bind same_error eq eq); [apply alike_same|]. intros items ? s5 <-.
      apply (alike_bind same_error eq eq).
      { apply alike_for_each. intros v s.
        apply (alike_bind same_error eq eq); [apply alike_same|]. intros _ _ s' _.
        by apply Hblock. }
      intros _ _ s6 _. by apply IH1.
    + rewrite (exec_lines_cstyle _ _ _ _ _ _ _ _ Hl Hc),
        (exec_lines_cstyle _ _ _ _ _ _ _ _ Hl' Hcc).
      eapply alike_bind; [by apply alike_collect|].
      intros [blk k] [blk' k'] s4 [Hb Hk]. simpl in Hb, Hk. subst k'.
      apply (alike_bind same_error eq eq); [apply alike_same|]. intros u ? s5 <-.
      apply (alike_bind same_error eq eq); [by apply IH4|]. intros _ _ s6 _.
      by apply IH1.
    + rewrite (exec_lines_end _ _ _ _ _ Hl Hc), (exec_lines_end _ _ _ _ _ Hl' Hcc).
      done.
    + rewrite (exec_lines_print _ _ _ _ _ _ Hl Hc),
        (exec_lines_print _ _ _ _ _ _ Hl' Hcc).
      apply (alike_bind same_error eq eq); [apply alike_same|]. intros a ? s1 <-.
      apply (alike_bind same_error eq eq); [apply alike_same|]. intros _ _ s2 _.
      by apply IH1.
    + rewrite (exec_lines_assign _ _ _ _ _ _ _ Hl Hc),
        (exec_lines_assign _ _ _ _ _ _ _ Hl' Hcc).
      apply (alike_bind same_error eq eq); [apply alike_same|]. intros a ? s1 <-.
      apply (alike_bind same_error eq eq); [apply alike_same|]. intros _ _ s2 _.
      by apply IH1.
    + rewrite (exec_lines_unrecognized _ _ _ _ _ Hl Hc),
        (exec_lines_unrecognized _ _ _ _ _ Hl' Hcc).
      split; [|done]. right. exists i, (rstrip raw), (rstrip raw').
      split_and!; [done..|]. unfold same_text. rewrite !strip_rstrip.
      destruct Ht as [Ht|[Ha _]]; [done|].
      by rewrite (blank_classify _ Ha) in Hc.
  - intros var b b' n e s st H. cbn [counter_up].
    apply (alike_bind same_error eq eq); [apply alike_same|]. intros go ? s1 <-.
    destruct go; [|apply alike_same].
    apply (alike_bind same_error eq eq); [apply alike_same|]. intros _ _ s2 _.
    apply (alike_bind same_error eq eq); [by apply Hblock|]. intros _ _ s3 _.
    apply (alike_bind same_error eq eq); [apply alike_same|]. intros n' ? s4 <-.
    by apply IH2.
  - intros var b b' n e s st H. cbn [counter_down].
    apply (alike_bind same_error eq eq); [apply alike_same|]. intros go ? s1 <-.
    destruct go; [|apply alike_same].
    apply (alike_bind same_error eq eq); [apply alike_same|]. intros _ _ s2 _.
    apply (alike_bind same_error eq eq); [by apply Hblock|]. intros _ _ s3 _.
    apply (alike_bind same_error eq eq); [apply alike_same|]. intros n' ? s4 <-.
    by apply IH3.
  - intros cond step b b' st H. cbn [cstyle_loop].
    apply (alike_bind same_error eq eq); [apply alike_same|]. intros ok ? s1 <-.
    destruct ok; [|apply alike_same].
    apply (alike_bind same_error eq eq); [by apply Hblock|]. intros _ _ s2 _.
    apply (alike_bind same_error eq eq); [apply alike_same|]. intros _ _ s3 _.
    by apply IH4.
  - intros ls ls' j st H. cbn [drive].
    rewrite <- (Forall2_length _ _ _ H).
    destruct (j <? length ls)%nat; [|apply alike_same].
    apply (alike_bind same_error eq eq); [by apply IH1|]. intros j' ? s1 <-.
    by apply IH5.
Qed.

End SameLines.

(** X11.  Leading and trailing blanks of a line and the text of a comment
    never matter: two texts of the same length whose lines are, one by one,
    the same between their blanks, or both blank or comments, run alike, with
    the same output, the same bindings and the same exception; only the
    report of an unrecognized line differs, because it quotes the line with
    its leading blanks. *)
Theorem blanks_around_lines_irrelevant (_eval : string → M value)
    (ls ls' : list string) :
  Forall2 same_line ls ls' →
  ∀ fuel st,
    alike same_error eq (run_lines _eval fuel ls st)
      (run_lines _eval fuel ls' st).
Proof. intros H fuel st. by apply (alike_all _eval fuel). Qed.

Lemma blanks_around_lines_irrelevant_witness :
  alike same_error eq
    (run_lines Demo.demo_eval 9
       ["for i = 1 to 2 do"; "  # show i"; "    print i  "; "  END "]
       init_state)
    (run_lines Demo.demo_eval 9
       ["  for i = 1 to 2 do "; ""; "print i"; "END"] init_state).
Proof.
  apply (blanks_around_lines_irrelevant Demo.demo_eval
           ["for i = 1 to 2 do"; "  # show i"; "    print i  "; "  END "]
           ["  for i = 1 to 2 do "; ""; "print i"; "END"]).
  apply List.Forall2_cons; [left; vm_compute; reflexivity|].
  apply List.Forall2_cons; [right; split; vm_compute; reflexivity|].
  apply List.Forall2_cons; [left; vm_compute; reflexivity|].
  apply List.Forall2_cons; [left; vm_compute; reflexivity|].
  apply List.Forall2_nil.
Defined.

(** ** Lines after and before the lines that are executed *)

Lemma collect_scan_app rest more i b d r :
  collect_scan rest i b d = Some r → collect_scan (rest ++ more) i b d = Some r.
Proof.
  revert i b d. induction rest as [|l rest IH]; intros i b d; [done|].
  simpl. destruct (RX_END l); [destruct (_ =? 0)|]; auto.
Qed.

Lemma collect_scan_index rest i b d P :
  collect_scan rest (P + i) b d
  = match collect_scan rest i b d with
    | Some (blk, k) => Some (blk, (P + k)%nat)
    | None => None
    end.
Proof.
  revert i b d. induction rest as [|l rest IH]; intros i b d; [done|].
  simpl. replace (P + i + 1)%nat with (P + (i + 1))%nat by lia.
  destruct (RX_END l); [destruct (_ =? 0)|]; auto.
Qed.

Lemma collect_block_result lines i st :
  (∃ blk k, collect_block lines i st = Done (blk, k) st)
  ∨ collect_block lines i st = Raise missing_end st.
Proof.
  unfold collect_block. destruct (collect_scan _ _ _ _) as [[blk k]|]; [left|right]; eauto.
Qed.

Lemma collect_block_app l1 l2 i st blk k st1 :
  collect_block l1 i st = Done (blk, k) st1 →
  collect_block (l1 ++ l2) i st = Done (blk, k) st1.
Proof.
  unfold collect_block.
  destruct (collect_scan (drop i l1) i [] 1) as [r|] eqn:E; [|done].
  intros H. destruct (decide (i ≤ length l1)%nat) as [Hle|Hgt].
  - rewrite drop_app_le by done. by rewrite (collect_scan_app _ l2 _ _ _ _ E).
  - rewrite drop_ge in E by lia. done.
Qed.

Lemma shifted_error_refl P e : shifted_error P e e.
Proof. by left. Qed.

Lemma alike_shifted {A} P (r : result A) : alike (shifted_error P) eq r r.
Proof. apply alike_refl, shifted_error_refl. Qed.

Lemma collect_block_shift pre l i st :
  alike (shifted_error (length pre))
    (fun r r' => r'.1 = r.1 ∧ r'.2 = (length pre + r.2)%nat)
    (collect_block l i st) (collect_block (pre ++ l) (length pre + i) st).
Proof.
  unfold collect_block. rewrite drop_app_add'; [|done].
  rewrite collect_scan_index.
  destruct (collect_scan (drop i l) i [] 1) as [[b' k']|]; simpl; [done|].
  split; [by left|done].
Qed.

Lemma extends_bind {A B} (m m' : M A) (k k' : A → M B) st
    (P : result B → result B → Prop) :
  extends (m st) (m' st) →
  (∀ e s r', (e ≠ missing_end → r' = Raise e s) → P (Raise e s) r') →
  P OutOfFuel ((m' ≫= k') st) →
  (∀ a s, m st = Done a s → P (k a s) (k' a s)) →
  P ((m ≫= k) st) ((m' ≫= k') st).
Proof.
  unfold mbind, M_bind, bind, extends. intros He HR HO Hk.
  destruct (m st) as [a s|e s|] eqn:E.
  - rewrite He. by apply Hk.
  - apply HR. intros Hne. by rewrite (He Hne).
  - done.
Qed.

Lemma extends_refl {A} (r : result A) : extends r r.
Proof. by destruct r. Qed.

Lemma extends_collect l1 l2 i st :
  extends (collect_block l1 i st) (collect_block (l1 ++ l2) i st).
Proof.
  destruct (collect_block_result l1 i st) as [(blk & k & E)|E]; rewrite E; simpl.
  - by apply collect_block_app.
  - done.
Qed.

Lemma into_rest_weaken _eval l1 l2 F i i' r r' :
  (i < i' ∨ i' = length l1 ∧ i < length l1)%nat → (i' ≤ length l1)%nat →
  into_rest _eval l1 l2 F i' r r' → into_rest _eval l1 l2 (S F) i r r'.
Proof.
  intros Hi Hi'. unfold into_rest. destruct r as [j s|e s|]; [|done..].
  destruct (j <? length l1)%nat; [done|].
  intros (F' & HF & ->). exists F'. split; [lia|done].
Qed.

Section Embedding.
Variable _eval : string → M value.
Variables l1 l2 : list string.

Lemma exec_lines_app (F : nat) :
  ∀ i st, (i ≤ length l1)%nat →
  into_rest _eval l1 l2 F i (exec_lines _eval F l1 i st)
    (exec_lines _eval F (l1 ++ l2) i st).
Proof.
  induction F as [|f IH]; intros i st Hi; [done|].
  assert (HR : ∀ e s r', (e ≠ missing_end → r' = Raise e s) →
                         into_rest _eval l1 l2 (S f) i (Raise e s) r') by done.
  destruct (l1 !! i) as [raw|] eqn:Hl.
  2: { rewrite exec_lines_past_end by done.
       apply lookup_ge_None in Hl. assert (i = length l1) as -> by lia.
       unfold into_rest, mret, M_ret, ret. rewrite Nat.ltb_irrefl.
       exists (S f). split; [lia|done]. }
  assert (Hlen : (i < length l1)%nat) by (by eapply lookup_lt_Some).
  assert (Hl' : (l1 ++ l2) !! i = Some raw) by (by apply lookup_app_l_Some).
  assert (Hnext : ∀ s, into_rest _eval l1 l2 (S f) i
                         (exec_lines _eval f l1 (i + 1) s)
                         (exec_lines _eval f (l1 ++ l2) (i + 1) s)).
  { intros s. apply (into_rest_weaken _ _ _ _ _ (i + 1)); [lia|lia|].
    apply IH. lia. }
  assert (Hloop : ∀ block i' s0 s1 s, is_header raw = true →
            collect_block l1 (i + 1) s0 = Done (block, i') s1 →
            into_rest _eval l1 l2 (S f) i (exec_lines _eval f l1 i' s)
              (exec_lines _eval f (l1 ++ l2) i' s)).
  { intros block i' s0 s1 s Hh Hb.
    destruct (depth_between_block l1 i raw block i' _ _ Hl Hh Hb).
    apply (into_rest_weaken _ _ _ _ _ i'); [lia|lia|]. apply IH. lia. }
  pose proof (classify_depth (rstrip raw)) as Hd.
  rewrite is_header_rstrip in Hd.
  destruct (classify (rstrip raw)) eqn:Hc.
  - rewrite (exec_lines_blank _ _ _ _ _ Hl Hc), (exec_lines_blank _ _ _ _ _ Hl' Hc).
    apply Hnext.
  - rewrite (exec_lines_counter _ _ _ _ _ _ _ _ _ Hl Hc),
      (exec_lines_counter _ _ _ _ _ _ _ _ _ Hl' Hc).
    apply extends_bind; [apply extends_refl|done|done|]. intros a s1 _.
    apply extends_bind; [apply extends_refl|done|done|]. intros b s2 _.
    apply extends_bind; [apply extends_refl|done|done|]. intros c s3 _.
    destruct (py_eq c (VInt 0)); [done|].
    apply extends_bind; [apply extends_collect|done|done|].
    intros [block i'] s4 Hb.
    apply extends_bind; [apply extends_refl|done|done|]. intros up s5 _.
    apply extends_bind; [apply extends_refl|done|done|]. intros _ s6 _.
    destruct Hd. by eapply Hloop.
  - rewrite (exec_lines_iter _ _ _ _ _ _ _ Hl Hc),
      (exec_lines_iter _ _ _ _ _ _ _ Hl' Hc).
    apply extends_bind; [apply extends_refl|done|done|]. intros a s1 _.
    apply extends_bind; [apply extends_collect|done|done|].
    intros [block i'] s4 Hb.
    apply extends_bind; [apply extends_refl|done|done|]. intros items s5 _.
    apply extends_bind; [apply extends_refl|done|done|]. intros _ s6 _.
    destruct Hd. by eapply Hloop.
  - rewrite (exec_lines_cstyle _ _ _ _ _ _ _ _ Hl Hc),
      (exec_lines_cstyle _ _ _ _ _ _ _ _ Hl' Hc).
    apply extends_bind; [apply extends_collect|done|done|].
    intros [block i'] s4 Hb.
    apply extends_bind; [apply extends_refl|done|done|]. intros u s5 _.
    apply extends_bind; [apply extends_refl|done|done|]. intros _ s6 _.
    destruct Hd. by eapply Hloop.
  - rewrite (exec_lines_end _ _ _ _ _ Hl Hc), (exec_lines_end _ _ _ _ _ Hl' Hc).
    unfold into_rest, mret, M_ret, ret. by rewrite (proj2 (Nat.ltb_lt _ _) Hlen).
  - rewrite (exec_lines_print _ _ _ _ _ _ Hl Hc),
      (exec_lines_print _ _ _ _ _ _ Hl' Hc).
    apply extends_bind; [apply extends_refl|done|done|]. intros a s1 _.
    apply extends_bind; [apply extends_refl|done|done|]. intros u s2 _.
    apply Hnext.
  - rewrite (exec_lines_assign _ _ _ _ _ _ _ Hl Hc),
      (exec_lines_assign _ _ _ _ _ _ _ Hl' Hc).
    apply extends_bind; [apply extends_refl|done|done|]. intros a s1 _.
    apply extends_bind; [apply extends_refl|done|done|]. intros u s2 _.
    apply Hnext.
  - rewrite (exec_lines_unrecognized _ _ _ _ _ Hl Hc),
      (exec_lines_unrecognized _ _ _ _ _ Hl' Hc). done.
Qed.

(** Lines before the lines that are executed only shift the indices. *)
Lemma exec_lines_shift F :
  ∀ i st,
  alike (shifted_error (length l1)) (fun j j' => j' = (length l1 + j)%nat)
    (exec_lines _eval F l2 i st)
    (exec_lines _eval F (l1 ++ l2) (length l1 + i) st).
Proof.
  induction F as [|f IH]; intros i st; [done|].
  destruct (l2 !! i) as [raw|] eqn:Hl.
  2: { rewrite (exec_lines_past_end _ _ l2 i Hl).
       rewrite exec_lines_past_end; [by split|].
       apply lookup_ge_None. apply lookup_ge_None in Hl. rewrite length_app. lia. }
  assert (Hl' : (l1 ++ l2) !! (length l1 + i)%nat = Some raw).
  { by rewrite lookup_app_r, Nat.add_comm, Nat.add_sub by lia. }
  assert (Hnext : ∀ s,
    alike (shifted_error (length l1)) (fun j j' => j' = (length l1 + j)%nat)
      (exec_lines _eval f l2 (i + 1) s)
      (exec_lines _eval f (l1 ++ l2) (length l1 + i + 1) s)).
  { intros s. rewrite <- Nat.add_assoc. apply IH. }
  set (E := shifted_error (length l1)).
  destruct (classify (rstrip raw)) eqn:Hc.
  - rewrite (exec_lines_blank _ _ _ _ _ Hl Hc), (exec_lines_blank _ _ _ _ _ Hl' Hc).
    apply Hnext.
  - rewrite (exec_lines_counter _ _ _ _ _ _ _ _ _ Hl Hc),
      (exec_lines_counter _ _ _ _ _ _ _ _ _ Hl' Hc).
    apply (alike_bind E eq); [apply alike_shifted|]. intros a ? s1 <-.
    apply (alike_bind E eq); [apply alike_shifted|]. intros b ? s2 <-.
    apply (alike_bind E eq); [apply alike_shifted|]. intros c ? s3 <-.
    destruct (py_eq c (VInt 0)); [apply alike_shifted|].
    rewrite <- Nat.add_assoc.
    eapply alike_bind; [apply collect_block_shift|].
    intros [blk k] [blk' k'] s4 [Hb Hk]. simpl in Hb, Hk. subst blk' k'.
    apply (alike_bind E eq); [apply alike_shifted|]. intros up ? s5 <-.
    apply (alike_bind E eq); [apply alike_shifted|]. intros _ _ s6 _. apply IH.
  - rewrite (exec_lines_iter _ _ _ _ _ _ _ Hl Hc),
      (exec_lines_iter _ _ _ _ _ _ _ Hl' Hc).
    apply (alike_bind E eq); [apply alike_shifted|]. intros a ? s1 <-.
    rewrite <- Nat.add_assoc.
    eapply alike_bind; [apply collect_block_shift|].
    intros [blk k] [blk' k'] s4 [Hb Hk]. simpl in Hb, Hk. subst blk' k'.
    apply (alike_bind E eq); [apply alike_shifted|]. intros items ? s5 <-.
    apply (alike_bind E eq); [apply alike_shifted|]. intros _ _ s6 _. apply IH.
  - rewrite (exec_lines_cstyle _ _ _ _ _ _ _ _ Hl Hc),
      (exec_lines_cstyle _ _ _ _ _ _ _ _ Hl' Hc).
    rewrite <- Nat.add_assoc.
    eapply alike_bind; [apply collect_block_shift|].
    intros [blk k] [blk' k'] s4 [Hb Hk]. simpl in Hb, Hk. subst blk' k'.
    apply (alike_bind E eq); [apply alike_shifted|]. intros u ? s5 <-.
    apply (alike_bind E eq); [apply alike_shifted|]. intros _ _ s6 _. apply IH.
  - rewrite (exec_lines_end _ _ _ _ _ Hl Hc), (exec_lines_end _ _ _ _ _ Hl' Hc).
    done.
  - rewrite (exec_lines_print _ _ _ _ _ _ Hl Hc),
      (exec_lines_print _ _ _ _ _ _ Hl' Hc).
    apply (alike_bind E eq); [apply alike_shifted|]. intros a ? s1 <-.
    apply (alike_bind E eq); [apply alike_shifted|]. intros _ _ s2 _.
    apply Hnext.
  - rewrite (exec_lines_assign _ _ _ _ _ _ _ Hl Hc),
      (exec_lines_assign _ _ _ _ _ _ _ Hl' Hc).
    apply (alike_bind E eq); [apply alike_shifted|]. intros a ? s1 <-.
    apply (alike_bind E eq); [apply alike_shifted|]. intros _ _ s2 _.
    apply Hnext.
  - rewrite (exec_lines_unrecognized _ _ _ _ _ Hl Hc),
      (exec_lines_unrecognized _ _ _ _ _ Hl' Hc).
    split; [|done]. right. by exists i, (rstrip raw).
Qed.

Lemma drive_shift F :
  ∀ i st,
  alike (shifted_error (length l1)) eq
    (drive _eval F l2 i st) (drive _eval F (l1 ++ l2) (length l1 + i) st).
Proof.
  induction F as [|f IH]; intros i st; [done|].
  cbn [drive]. rewrite length_app.
  destruct (i <? length l2)%nat eqn:E.
  - apply Nat.ltb_lt in E. rewrite (proj2 (Nat.ltb_lt _ _)) by lia.
    eapply alike_bind; [apply exec_lines_shift|].
    intros j ? s ->. rewrite <- Nat.add_assoc. apply IH.
  - apply Nat.ltb_ge in E. rewrite (proj2 (Nat.ltb_ge _ _)) by lia.
    apply alike_shifted.
Qed.

End Embedding.

(** ** One text after another *)

Section Composition.
Variable _eval : string → M value.
Variables l1 l2 : list string.

Lemma exec_more f f' lines i st r :
  exec_lines _eval f lines i st = r → r ≠ OutOfFuel → (f ≤ f')%nat →
  exec_lines _eval f' lines i st = r.
Proof.
  intros. by apply (evaluates_fuel (fun f => exec_lines _eval f lines i) st r f f');
    [apply exec_lines_mono|..].
Qed.

Lemma drive_more f f' lines i st r :
  drive _eval f lines i st = r → r ≠ OutOfFuel → (f ≤ f')%nat →
  drive _eval f' lines i st = r.
Proof.
  intros. by apply (evaluates_fuel (fun f => drive _eval f lines i) st r f f');
    [apply drive_mono|..].
Qed.

Lemma drive_S f lines i st :
  (i < length lines)%nat →
  drive _eval (S f) lines i st
  = (j ← exec_lines _eval f lines i; drive _eval f lines (j + 1)) st.
Proof. intros Hi. cbn [drive]. by rewrite (proj2 (Nat.ltb_lt _ _) Hi). Qed.

Lemma drive_past f lines i st :
  (length lines ≤ i)%nat → drive _eval (S f) lines i st = Done tt st.
Proof. intros Hi. cbn [drive]. by rewrite (proj2 (Nat.ltb_ge _ _) Hi). Qed.

Lemma drive_app_iff f1 :
  ∀ i st st1, (i ≤ length l1)%nat →
  drive _eval f1 l1 i st = Done tt st1 →
  ∀ r, r ≠ OutOfFuel →
  (∃ F, drive _eval F (l1 ++ l2) i st = r)
  ↔ (∃ F, drive _eval F (l1 ++ l2) (length l1) st1 = r).
Proof.
  induction f1 as [|f IH]; intros i st st1 Hi H r Hr; [done|].
  cbn [drive] in H. destruct (i <? length l1)%nat eqn:E.
  2: { apply Nat.ltb_ge in E. assert (i = length l1) as -> by lia.
       by injection H as <-. }
  apply Nat.ltb_lt in E. apply bind_Done in H as (j & s & Hj & H).
  assert (Hbig : (i < length (l1 ++ l2))%nat) by (rewrite length_app; lia).
  pose proof (exec_lines_returns _ _ _ _ _ _ _ Hj) as (Hij & Hjl & _).
  assert (Hsmall : ∀ G, (f ≤ G)%nat → exec_lines _eval G l1 i st = Done j s).
  { intros G HG. by eapply exec_more. }
  destruct (decide (j < length l1)%nat) as [Hlt|Hge].
  - assert (Hx : ∀ G, (f ≤ G)%nat →
              exec_lines _eval G (l1 ++ l2) i st = Done j s).
    { intros G HG. pose proof (exec_lines_app _eval l1 l2 G i st Hi) as Hx.
      rewrite (Hsmall G HG) in Hx. unfold into_rest in Hx.
      by rewrite (proj2 (Nat.ltb_lt _ _) Hlt) in Hx. }
    rewrite <- (IH (j + 1)%nat s st1 ltac:(lia) H r Hr). split.
    + intros [F HF]. destruct F as [|F]; [by subst r|].
      exists (F `max` f)%nat.
      apply (drive_more (S F) (S (F `max` f))) in HF; [|done|lia].
      rewrite drive_S in HF by done. unfold mbind, M_bind, bind in HF.
      by rewrite Hx in HF by lia.
    + intros [F HF]. exists (S (F `max` f)). rewrite drive_S by done.
      unfold mbind, M_bind, bind. rewrite Hx by lia.
      eapply drive_more; [done|done|lia].
  - assert (j = length l1) as -> by lia.
    assert (s = st1) as ->.
    { destruct f as [|f]; [done|]. rewrite drive_past in H by lia.
      by injection H. }
    assert (Hx : ∀ G, (f ≤ G)%nat →
              ∃ F', (F' ≤ G ≤ F' + (length l1 - i))%nat
                    ∧ exec_lines _eval G (l1 ++ l2) i st
                      = exec_lines _eval F' (l1 ++ l2) (length l1) st1).
    { intros G HG. pose proof (exec_lines_app _eval l1 l2 G i st Hi) as Hx.
      rewrite (Hsmall G HG) in Hx. unfold into_rest in Hx.
      by rewrite Nat.ltb_irrefl in Hx. }
    destruct (decide (length l1 < length (l1 ++ l2))%nat) as [Hl2|Hl2].
    + split.
      * intros [F HF]. destruct F as [|F]; [by subst r|].
        apply (drive_more (S F) (S (F `max` f))) in HF; [|done|lia].
        destruct (Hx (F `max` f)%nat ltac:(lia)) as (F' & HF' & He).
        exists (S (F `max` f)). rewrite drive_S in * by done.
        unfold mbind, M_bind, bind in *. rewrite He in HF.
        destruct (exec_lines _eval F' (l1 ++ l2) (length l1) st1)
          as [j' s'|e' s'|] eqn:E'; [| |congruence].
        -- by rewrite (exec_more F' _ _ _ _ _ E') by (done || lia).
        -- by rewrite (exec_more F' _ _ _ _ _ E') by (done || lia).
      * intros [F HF]. destruct F as [|F]; [by subst r|].
        destruct (Hx (F + length l1 + f)%nat ltac:(lia)) as (F' & HF' & He).
        exists (S (F + length l1 + f)). rewrite drive_S in * by done.
        unfold mbind, M_bind, bind in *. rewrite He.
        destruct (exec_lines _eval F (l1 ++ l2) (length l1) st1)
          as [j' s'|e' s'|] eqn:E'; [| |congruence].
        -- rewrite (exec_more F F' _ _ _ _ E') by (done || lia).
           eapply drive_more; [done|done|lia].
        -- by rewrite (exec_more F F' _ _ _ _ E') by (done || lia).
    + assert (Hend : ∀ G, exec_lines _eval (S G) (l1 ++ l2) (length l1) st1
                          = Done (length l1) st1).
      { intros G. rewrite exec_lines_past_end; [done|].
        apply lookup_ge_None. lia. }
      split.
      * intros [F HF]. destruct F as [|F]; [by subst r|].
        apply (drive_more (S F) (S (F `max` f))) in HF; [|done|lia].
        destruct (Hx (F `max` f)%nat ltac:(lia)) as (F' & HF' & He).
        exists 1%nat. rewrite drive_past by lia.
        rewrite drive_S in HF by done. unfold mbind, M_bind, bind in HF.
        rewrite He in HF. destruct F' as [|F']; [by subst r|].
        rewrite Hend in HF. destruct (F `max` f)%nat as [|G]; [by subst r|].
        by rewrite drive_past in HF by lia.
      * intros [F HF]. destruct F as [|F]; [by subst r|].
        rewrite drive_past in HF by lia. subst r.
        destruct (Hx (S (length l1 + f)) ltac:(lia)) as (F' & HF' & He).
        exists (S (S (length l1 + f))). rewrite drive_S by done.
        unfold mbind, M_bind, bind. rewrite He.
        destruct F' as [|F']; [lia|]. rewrite Hend. by rewrite drive_past by lia.
Qed.

(** The driving loop on [l1 ++ l2]: an exception in [l1] ends it, whatever
    [l2] holds, unless it is the error of a terminator not found in [l1]. *)
Lemma drive_app_raise f1 :
  ∀ i st e s, (i ≤ length l1)%nat → e ≠ missing_end →
  drive _eval f1 l1 i st = Raise e s →
  drive _eval f1 (l1 ++ l2) i st = Raise e s.
Proof.
  induction f1 as [|f IH]; intros i st e s Hi Hne H; [done|].
  cbn [drive] in H. destruct (i <? length l1)%nat eqn:E; [|done].
  apply Nat.ltb_lt in E.
  assert (Hbig : (i < length (l1 ++ l2))%nat) by (rewrite length_app; lia).
  rewrite drive_S by done.
  unfold mbind, M_bind, bind in *.
  pose proof (exec_lines_app _eval l1 l2 f i st Hi) as Hx.
  destruct (exec_lines _eval f l1 i st) as [j s'|e' s'|] eqn:Hj; [| |done].
  - pose proof (exec_lines_returns _ _ _ _ _ _ _ Hj) as (Hij & Hjl & _).
    destruct (decide (j < length l1)%nat) as [Hlt|Hge].
    + unfold into_rest in Hx. rewrite (proj2 (Nat.ltb_lt _ _) Hlt) in Hx.
      rewrite Hx. apply IH; [lia|done|done].
    + destruct f as [|f]; [done|]. by rewrite drive_past in H by lia.
  - injection H as -> ->. unfold into_rest in Hx. by rewrite (Hx Hne).
Qed.

End Composition.

(** X15.  [_exec_lines] and the driving loop of [_run_block] and [run] never
    look at the lines before the one they start at: with [pre] put before
    the text they do the same, with the same fuel, in the same states; only
    the indices they return and the line number in the report of an
    unrecognized line count the lines of [pre]. *)
Theorem lines_before_are_ignored (_eval : string → M value)
    (pre lines : list string) (fuel i : nat) (st : state) :
  alike (shifted_error (length pre)) (fun j j' => j' = (length pre + j)%nat)
    (exec_lines _eval fuel lines i st)
    (exec_lines _eval fuel (pre ++ lines) (length pre + i) st)
  ∧ alike (shifted_error (length pre)) eq
      (drive _eval fuel lines i st)
      (drive _eval fuel (pre ++ lines) (length pre + i) st).
Proof. split; [apply exec_lines_shift|apply drive_shift]. Qed.

(** X9.  Running [l1 ++ l2], when running [l1] alone ends normally in
    [st1], is running [l2] from [st1]: it ends normally in the same states,
    and every result of one is a result of the other up to the line numbers
    in the report of an unrecognized line, which count the lines of [l1]. *)
Theorem programs_compose (_eval : string → M value) (l1 l2 : list string)
    (st st1 : state) :
  evaluates (fun f => run_lines _eval f l1) st (Done tt st1) →
  (∀ st2, evaluates (fun f => run_lines _eval f (l1 ++ l2)) st (Done tt st2)
          ↔ evaluates (fun f => run_lines _eval f l2) st1 (Done tt st2))
  ∧ (∀ r, evaluates (fun f => run_lines _eval f (l1 ++ l2)) st r →
          ∃ r2, evaluates (fun f => run_lines _eval f l2) st1 r2
                ∧ alike (shifted_error (length l1)) eq r2 r)
  ∧ (∀ r2, evaluates (fun f => run_lines _eval f l2) st1 r2 →
           ∃ r, evaluates (fun f => run_lines _eval f (l1 ++ l2)) st r
                ∧ alike (shifted_error (length l1)) eq r2 r).
Proof.
  intros [_ [f1 H1]]. unfold run_lines in *.
  pose proof (drive_app_iff _eval l1 l2 f1 0 st st1 ltac:(lia) H1) as Hiff.
  assert (Hfwd : ∀ r, evaluates (fun f => drive _eval f (l1 ++ l2) 0) st r →
            ∃ r2, evaluates (fun f => drive _eval f l2 0) st1 r2
                  ∧ alike (shifted_error (length l1)) eq r2 r).
  { intros r [Hr [F HF]].
    destruct (proj1 (Hiff r Hr) (ex_intro _ F HF)) as [G HG].
    pose proof (drive_shift _eval l1 l2 G 0 st1) as Hs.
    rewrite Nat.add_0_r, HG in Hs. eexists. split; [|exact Hs].
    split; [|by eexists]. intros E. rewrite E in Hs. by destruct r. }
  assert (Hbwd : ∀ r2, evaluates (fun f => drive _eval f l2 0) st1 r2 →
            ∃ r, evaluates (fun f => drive _eval f (l1 ++ l2) 0) st r
                 ∧ alike (shifted_error (length l1)) eq r2 r).
  { intros r2 [Hr [F HF]].
    pose proof (drive_shift _eval l1 l2 F 0 st1) as Hs.
    rewrite Nat.add_0_r, HF in Hs.
    assert (Hne : drive _eval F (l1 ++ l2) (length l1) st1 ≠ OutOfFuel).
    { intros E. rewrite E in Hs. by destruct r2. }
    destruct (proj2 (Hiff _ Hne) (ex_intro _ F eq_refl)) as [G HG].
    eexists. split; [|exact Hs]. split; [done|by exists G]. }
  split_and!; [|done|done].
  intros st2. split.
  - intros (r2 & H2 & Ha)%Hfwd. destruct r2 as [[] s2| |]; [|done..].
    destruct Ha as [_ ->]. done.
  - intros (r & H2 & Ha)%Hbwd. destruct r as [[] s2| |]; [|done..].
    destruct Ha as [_ ->]. done.
Qed.

Lemma programs_compose_witness :
  evaluates (fun f => run_lines Demo.demo_eval f (["x = 1"] ++ ["print x + x"]))
    init_state (Done tt (mkState {[ "x" := VInt 1 ]} [VInt 2]))
  ↔ evaluates (fun f => run_lines Demo.demo_eval f ["print x + x"])
      (mkState {[ "x" := VInt 1 ]} [])
      (Done tt (mkState {[ "x" := VInt 1 ]} [VInt 2])).
Proof.
  refine (proj1 (programs_compose Demo.demo_eval ["x = 1"] ["print x + x"]
                   init_state (mkState {[ "x" := VInt 1 ]} []) _)
            (mkState {[ "x" := VInt 1 ]} [VInt 2])).
  split; [discriminate|]. exists 3%nat. vm_compute. reflexivity.
Defined.

(** X10.  An exception ends the run: when running [l1] ends with an
    exception other than the error of a terminator that is missing in
    [l1], running [l1] followed by any further lines ends with the same
    exception in the same state, and none of the further lines is
    executed. *)
Theorem error_ends_run (_eval : string → M value) (l1 l2 : list string)
    (fuel : nat) (st : state) (e : exn) (s : state) :
  run_lines _eval fuel l1 st = Raise e s →
  e ≠ missing_end →
  run_lines _eval fuel (l1 ++ l2) st = Raise e s.
Proof.
  intros H Hne. unfold run_lines in *.
  by apply drive_app_raise; [lia|..].
Qed.

Lemma error_ends_run_witness :
  run_lines Demo.demo_eval 4 (["print 1"; "print y"] ++ ["print 2"]) init_state
  = Raise (OtherError "NameError" "y") (mkState ∅ [VInt 1]).
Proof.
  apply (error_ends_run Demo.demo_eval ["print 1"; "print y"] ["print 2"] 4
           init_state (OtherError "NameError" "y") (mkState ∅ [VInt 1])).
  - vm_compute. reflexivity.
  - discriminate.
Defined.

(** ** A C-style loop without a condition *)

Section NoCondition.
Variable _eval : string → M value.

Lemma cstyle_loop_no_exit cond step block fuel :
  nonempty cond = false →
  ∀ st u st', cstyle_loop _eval fuel cond step block st ≠ Done u st'.
Proof.
  intros Hc. induction fuel as [|f IH]; intros st u st' H; [done|].
  cbn [cstyle_loop] in H. unfold eval_cond in H. rewrite Hc in H. simpl in H.
  apply bind_Done in H as (a & s1 & Ha & H). injection Ha as <- <-.
  apply bind_Done in H as (b & s2 & _ & H).
  apply bind_Done in H as (c & s3 & _ & H). by apply IH in H.
Qed.

End NoCondition.

(** X8.  A C-style loop whose condition clause is empty never exits
    normally: whatever the fuel, the statement executor at its header does
    not return; it ends with an exception (of the header, of the body or of
    the step clause) or goes on for ever, and no statement after the loop
    is reached. *)
Theorem empty_condition_never_exits (_eval : string → M value)
    (lines : list string) (i : nat) (raw init_s cond_s step_s : string) :
  lines !! i = Some raw →
  RX_FOR_CSTYLE (rstrip raw) = Some (init_s, cond_s, step_s) →
  nonempty (strip cond_s) = false →
  ∀ fuel st,
    exec_lines _eval fuel lines i st = OutOfFuel
    ∨ ∃ e st', exec_lines _eval fuel lines i st = Raise e st'.
Proof.
  intros Hl Hc%classify_cstyle Hn fuel st.
  destruct (exec_lines _eval fuel lines i st) as [j s|e s|] eqn:E; [|eauto..].
  exfalso. destruct fuel as [|f]; [done|].
  rewrite (exec_lines_cstyle _ _ _ _ _ _ _ _ Hl Hc) in E.
  apply bind_Done in E as ([block i'] & s1 & _ & E).
  apply bind_Done in E as (u & s2 & _ & E).
  apply bind_Done in E as (u' & s3 & E & _).
  by apply cstyle_loop_no_exit in E.
Qed.

Lemma empty_condition_never_exits_witness :
  exec_lines Demo.demo_eval 9 ["for (;;) do"; "print 1"; "end"; "print 2"] 0
    init_state = OutOfFuel
  ∨ ∃ e st', exec_lines Demo.demo_eval 9
               ["for (;;) do"; "print 1"; "end"; "print 2"] 0 init_state
             = Raise e st'.
Proof.
  apply (empty_condition_never_exits Demo.demo_eval
           ["for (;;) do"; "print 1"; "end"; "print 2"] 0 "for (;;) do" "" "" "");
    vm_compute; reflexivity.
Defined.

(** ** What a run leaves behind *)

(** The demo evaluator leaves the state alone. *)

Lemma atom_pure t st :
  match Demo.atom t st with
  | Done _ st' | Raise _ st' => st' = st
  | OutOfFuel => False
  end.
Proof.
  unfold Demo.atom. destruct (Demo.parse_int t); [done|].
  destruct (Demo.keyword _); [done|]. destruct (Demo.is_name t); [|done].
  by destruct (env st !! _).
Qed.

Lemma binop_pure op a b st :
  match Demo.binop op a b st with
  | Done _ st' | Raise _ st' => st' = st
  | OutOfFuel => False
  end.
Proof.
  unfold Demo.binop. generalize (string_of_list_ascii op). intros s.
  destruct s as [|c s]; [done|].
  destruct c as [b0 b1 b2 b3 b4 b5 b6 b7].
  destruct b0, b1, b2, b3, b4, b5, b6, b7; try done;
    destruct s; try done; unfold mbind, M_bind, bind.
  all: try by destruct (py_add a b).
  all: try by destruct (py_num a), (py_num b).
  all: try by destruct (py_gt b a).
  all: by destruct (py_gt a b).
Qed.

Lemma demo_eval_pure e st :
  match Demo.demo_eval e st with
  | Done _ st' | Raise _ st' => st' = st
  | OutOfFuel => False
  end.
Proof.
  unfold Demo.demo_eval.
  destruct (Demo.split_blank _ _) as [|a [|op [|b [|]]]]; try done.
  - apply atom_pure.
  - unfold mbind, M_bind, bind.
    pose proof (atom_pure a st) as Ha. destruct (Demo.atom a st); [|done..].
    subst. pose proof (atom_pure b st) as Hb. destruct (Demo.atom b st); [|done..].
    subst. apply binop_pure.
Qed.

Lemma demo_eval_appends e : appends_output (Demo.demo_eval e).
Proof.
  intros st. pose proof (demo_eval_pure e st) as H.
  destruct (Demo.demo_eval e st); by subst.
Qed.

Lemma demo_eval_binds e : binds_within ∅ (Demo.demo_eval e).
Proof.
  intros st. pose proof (demo_eval_pure e st) as H.
  destruct (Demo.demo_eval e st); subst; [| |done]; apply union_subseteq_l.
Qed.

(** *** The output only grows *)

Lemma appends_ret {A} (a : A) : appends_output (mret a).
Proof. intros st. simpl. done. Qed.

Lemma appends_raise {A} e : appends_output (@raise A e).
Proof. intros st. simpl. done. Qed.

Lemma appends_oof {A} : appends_output (@out_of_fuel A).
Proof. intros st. done. Qed.

Lemma appends_bind {A B} (m : M A) (k : A → M B) :
  appends_output m → (∀ a, appends_output (k a)) → appends_output (m ≫= k).
Proof.
  intros Hm Hk st. unfold mbind, M_bind, bind. specialize (Hm st).
  destruct (m st) as [a st1|e st1|]; [|done|done].
  specialize (Hk a st1). destruct (k a st1); [| |done]; by etrans.
Qed.

Lemma appends_set_env name v : appends_output (set_env name v).
Proof. intros st. simpl. done. Qed.

Lemma appends_print v : appends_output (print v).
Proof. intros st. simpl. by apply prefix_app_r. Qed.

Lemma appends_host {A} (o : option A) : appends_output (host o).
Proof. destruct o; [apply appends_ret|apply appends_raise]. Qed.

Lemma appends_collect_block lines i : appends_output (collect_block lines i).
Proof.
  unfold collect_block.
  destruct (collect_scan _ _ _ _); [apply appends_ret|apply appends_raise].
Qed.

Lemma appends_for_each {A} (body : A → M unit) l :
  (∀ a, appends_output (body a)) → appends_output (for_each body l).
Proof.
  intros Hb. induction l as [|x l IH]; simpl; [apply appends_ret|].
  apply appends_bind; auto.
Qed.

Ltac appends_tac :=
  repeat first
    [ apply appends_ret | apply appends_raise | apply appends_oof
    | apply appends_set_env | apply appends_print | apply appends_host
    | apply appends_collect_block
    | assumption
    | match goal with H : _ |- _ => apply H end
    | apply appends_for_each; intros ?
    | apply appends_bind; [|intros ?]
    | match goal with
      | |- appends_output (match ?x with _ => _ end) => destruct x
      end ].

Section Output.
Variable _eval : string → M value.
Hypothesis eval_appends : ∀ e, appends_output (_eval e).

Lemma appends_run_clause c : appends_output (run_clause _eval c).
Proof. destruct c as [[s|name rhs]|]; simpl; appends_tac. Qed.

Lemma appends_eval_step s : appends_output (eval_step _eval s).
Proof. unfold eval_step. appends_tac. Qed.

Lemma appends_eval_cond c : appends_output (eval_cond _eval c).
Proof. unfold eval_cond. appends_tac. Qed.

Lemma appends_all (f : nat) :
  (∀ lines i, appends_output (exec_lines _eval f lines i))
  ∧ (∀ var block n e s, appends_output (counter_up _eval f var block n e s))
  ∧ (∀ var block n e s, appends_output (counter_down _eval f var block n e s))
  ∧ (∀ cond step block, appends_output (cstyle_loop _eval f cond step block))
  ∧ (∀ lines j, appends_output (drive _eval f lines j)).
Proof.
  induction f as [|f (IH1 & IH2 & IH3 & IH4 & IH5)].
  - repeat split; intros; apply appends_oof.
  - pose proof appends_run_clause. pose proof appends_eval_step.
    pose proof appends_eval_cond.
    repeat split; intros; simpl; appends_tac.
Qed.

End Output.

(** X12.  The output only grows: if the evaluator only appends to the
    output, then whatever a run has printed stays printed, in the same
    order, when the run goes on, ends or fails. *)
Theorem output_only_grows (_eval : string → M value) :
  (∀ e, appends_output (_eval e)) →
  ∀ fuel lines, appends_output (run_lines _eval fuel lines).
Proof. intros H fuel lines. apply (appends_all _eval H fuel). Qed.

Lemma output_only_grows_witness :
  match run_lines Demo.demo_eval 5 ["print 2"; "print y"] (mkState ∅ [VInt 7]) with
  | Done _ st' | Raise _ st' => out (mkState ∅ [VInt 7]) `prefix_of` out st'
  | OutOfFuel => True
  end.
Proof.
  apply (output_only_grows Demo.demo_eval demo_eval_appends 5
           ["print 2"; "print y"] (mkState ∅ [VInt 7])).
Defined.

(** *** The names a program binds *)

Lemma within_trans (X Y Z N : gset string) :
  Y ⊆ X ∪ N → Z ⊆ Y ∪ N → Z ⊆ X ∪ N.
Proof.
  intros H1 H2 x Hx. apply H2, elem_of_union in Hx as [Hx|Hx]; [by apply H1|].
  apply elem_of_union. by right.
Qed.

Lemma binds_ret {A} N (a : A) : binds_within N (mret a).
Proof. intros st. simpl. apply union_subseteq_l. Qed.

Lemma binds_raise {A} N e : binds_within N (@raise A e).
Proof. intros st. simpl. apply union_subseteq_l. Qed.

Lemma binds_oof {A} N : binds_within N (@out_of_fuel A).
Proof. intros st. done. Qed.

Lemma binds_bind {A B} N (m : M A) (k : A → M B) :
  binds_within N m → (∀ a, binds_within N (k a)) → binds_within N (m ≫= k).
Proof.
  intros Hm Hk st. unfold mbind, M_bind, bind. specialize (Hm st).
  destruct (m st) as [a st1|e st1|]; [|done|done].
  specialize (Hk a st1). destruct (k a st1); [| |done]; by eapply within_trans.
Qed.

Lemma binds_bind_dep {A B} N (m : M A) (k : A → M B) :
  binds_within N m →
  (∀ a st st', m st = Done a st' → binds_within N (k a)) →
  binds_within N (m ≫= k).
Proof.
  intros Hm Hk st. unfold mbind, M_bind, bind. specialize (Hm st).
  destruct (m st) as [a st1|e st1|] eqn:E; [|done|done].
  specialize (Hk a st st1 E st1).
  destruct (k a st1); [| |done]; by eapply within_trans.
Qed.

Lemma binds_set_env N name v : name ∈ N → binds_within N (set_env name v).
Proof.
  intros HN st. simpl. rewrite dom_insert_L. intros x.
  rewrite !elem_of_union, elem_of_singleton. intros [->|Hx]; auto.
Qed.

Lemma binds_print N v : binds_within N (print v).
Proof. intros st. simpl. apply union_subseteq_l. Qed.

Lemma binds_host {A} N (o : option A) : binds_within N (host o).
Proof. destruct o; [apply binds_ret|apply binds_raise]. Qed.

Lemma binds_collect_block N lines i : binds_within N (collect_block lines i).
Proof.
  unfold collect_block.
  destruct (collect_scan _ _ _ _); [apply binds_ret|apply binds_raise].
Qed.

Lemma binds_for_each {A} N (body : A → M unit) l :
  (∀ a, binds_within N (body a)) → binds_within N (for_each body l).
Proof.
  intros Hb. induction l as [|x l IH]; simpl; [apply binds_ret|].
  apply binds_bind; auto.
Qed.

Lemma binds_empty {A} N (m : M A) : binds_within ∅ m → binds_within N m.
Proof.
  intros H st. specialize (H st).
  destruct (m st); [| |done]; intros x Hx; apply H in Hx;
    rewrite elem_of_union in *; destruct Hx as [Hx|Hx]; auto;
    by apply not_elem_of_empty in Hx.
Qed.

Lemma targets_line lines i raw :
  lines !! i = Some raw → ∀ x, In x (targets_of_line raw) → x ∈ targets lines.
Proof.
  intros Hl x Hx. unfold targets. apply elem_of_list_to_set.
  apply list_elem_of_In, in_concat. exists (targets_of_line raw).
  split; [|done]. apply in_map. apply list_elem_of_In.
  by eapply list_elem_of_lookup_2.
Qed.

Lemma targets_block lines i st block k st' :
  collect_block lines i st = Done (block, k) st' →
  targets block ⊆ targets lines.
Proof.
  intros Hb.
  assert (st' = st) as ->.
  { unfold collect_block in Hb. destruct (collect_scan _ _ _ _); by inversion Hb. }
  apply collect_block_done, collect_scan_matching in Hb as [j [_ [_ ->]]].
  intros x. unfold targets. rewrite !elem_of_list_to_set.
  rewrite !list_elem_of_In, !in_concat.
  intros (l & Hl & Hx). exists l. split; [|done].
  apply in_map_iff in Hl as (raw & <- & Hraw). apply in_map.
  apply list_elem_of_In in Hraw. apply list_elem_of_In.
  apply elem_of_take in Hraw as (n & Hraw & _).
  rewrite lookup_drop in Hraw. by eapply list_elem_of_lookup_2.
Qed.

Section Targets.
Variable _eval : string → M value.
Hypothesis eval_binds : ∀ e, binds_within ∅ (_eval e).

Lemma binds_eval N e : binds_within N (_eval e).
Proof. apply binds_empty, eval_binds. Qed.

Lemma binds_run_clause N c :
  (∀ x, In x (clause_target c) → x ∈ N) → binds_within N (run_clause _eval c).
Proof.
  intros H. destruct c as [[s|name rhs]|]; simpl.
  - apply binds_bind; [apply binds_eval|]. intros _. apply binds_ret.
  - apply binds_bind; [apply binds_eval|]. intros v. apply binds_set_env.
    apply H. by left.
  - apply binds_ret.
Qed.

Lemma binds_eval_step N s : binds_within N (eval_step _eval s).
Proof.
  unfold eval_step. destruct s as [s|]; [|apply binds_ret].
  destruct (nonempty s); [apply binds_eval|apply binds_ret].
Qed.

Lemma binds_eval_cond N c : binds_within N (eval_cond _eval c).
Proof.
  unfold eval_cond. destruct (negb (nonempty c)); [apply binds_ret|].
  apply binds_bind; [apply binds_eval|]. intros v. apply binds_ret.
Qed.

Lemma binds_all (N : gset string) (f : nat) :
  (∀ lines i, targets lines ⊆ N → binds_within N (exec_lines _eval f lines i))
  ∧ (∀ var block n e s, var ∈ N → targets block ⊆ N →
       binds_within N (counter_up _eval f var block n e s))
  ∧ (∀ var block n e s, var ∈ N → targets block ⊆ N →
       binds_within N (counter_down _eval f var block n e s))
  ∧ (∀ cond step block, (∀ x, In x (clause_target step) → x ∈ N) →
       targets block ⊆ N →
       binds_within N (cstyle_loop _eval f cond step block))
  ∧ (∀ lines j, targets lines ⊆ N → binds_within N (drive _eval f lines j)).
Proof.
  induction f as [|f (IH1 & IH2 & IH3 & IH4 & IH5)].
  - repeat split; intros; apply binds_oof.
  - split_and!.
    + intros lines i HN.
      destruct (lines !! i) as [raw|] eqn:El.
      2: { rewrite exec_lines_past_end by done. apply binds_ret. }
      pose proof (targets_line lines i raw El) as Hraw.
      unfold targets_of_line in Hraw.
      destruct (classify (rstrip raw)) eqn:Ec.
      * rewrite (exec_lines_blank _ _ _ _ _ El Ec). by apply IH1.
      * rewrite (exec_lines_counter _ _ _ _ _ _ _ _ _ El Ec).
        assert (var ∈ N) by (apply HN, Hraw; by left).
        apply binds_bind; [apply binds_eval|]. intros a.
        apply binds_bind; [apply binds_eval|]. intros b.
        apply binds_bind; [apply binds_eval_step|]. intros c.
        destruct (py_eq c (VInt 0)); [apply binds_raise|].
        apply binds_bind_dep; [apply binds_collect_block|].
        intros [block i'] s s' Hb.
        pose proof (targets_block _ _ _ _ _ _ Hb) as Hsub.
        apply binds_bind; [apply binds_host|]. intros up.
        apply binds_bind; [|intros _; by apply IH1].
        destruct up; [apply IH2|apply IH3]; try done; by etrans.
      * rewrite (exec_lines_iter _ _ _ _ _ _ _ El Ec).
        assert (var ∈ N) by (apply HN, Hraw; by left).
        apply binds_bind; [apply binds_eval|]. intros a.
        apply binds_bind_dep; [apply binds_collect_block|].
        intros [block i'] s s' Hb.
        pose proof (targets_block _ _ _ _ _ _ Hb) as Hsub.
        apply binds_bind; [apply binds_host|]. intros items.
        apply binds_bind; [|intros _; by apply IH1].
        apply binds_for_each. intros v.
        apply binds_bind; [by apply binds_set_env|]. intros _.
        apply IH5. by etrans.
      * rewrite (exec_lines_cstyle _ _ _ _ _ _ _ _ El Ec).
        apply binds_bind_dep; [apply binds_collect_block|].
        intros [block i'] s s' Hb.
        pose proof (targets_block _ _ _ _ _ _ Hb) as Hsub.
        apply binds_bind.
        { apply binds_run_clause. intros x Hx. apply HN, Hraw.
          apply in_app_iff. by left. }
        intros _. apply binds_bind; [|intros _; by apply IH1].
        apply IH4; [|by etrans]. intros x Hx. apply HN, Hraw.
        apply in_app_iff. by right.
      * rewrite (exec_lines_end _ _ _ _ _ El Ec). apply binds_ret.
      * rewrite (exec_lines_print _ _ _ _ _ _ El Ec).
        apply binds_bind; [apply binds_eval|]. intros v.
        apply binds_bind; [apply binds_print|]. intros _. by apply IH1.
      * rewrite (exec_lines_assign _ _ _ _ _ _ _ El Ec).
        apply binds_bind; [apply binds_eval|]. intros v.
        apply binds_bind; [|intros _; by apply IH1].
        apply binds_set_env. apply HN, Hraw. by left.
      * rewrite (exec_lines_unrecognized _ _ _ _ _ El Ec). apply binds_raise.
    + intros var block n e s Hv Hb. cbn [counter_up].
      apply binds_bind; [apply binds_host|]. intros go.
      destruct go; [|apply binds_ret].
      apply binds_bind; [by apply binds_set_env|]. intros _.
      apply binds_bind; [by apply IH5|]. intros _.
      apply binds_bind; [apply binds_host|]. intros n'. by apply IH2.
    + intros var block n e s Hv Hb. cbn [counter_down].
      apply binds_bind; [apply binds_host|]. intros go.
      destruct go; [|apply binds_ret].
      apply binds_bind; [by apply binds_set_env|]. intros _.
      apply binds_bind; [by apply IH5|]. intros _.
      apply binds_bind; [apply binds_host|]. intros n'. by apply IH3.
    + intros cond step block Hs Hb. cbn [cstyle_loop].
      apply binds_bind; [apply binds_eval_cond|]. intros ok.
      destruct ok; [|apply binds_ret].
      apply binds_bind; [by apply IH5|]. intros _.
      apply binds_bind; [by apply binds_run_clause|]. intros _. by apply IH4.
    + intros lines j HN. cbn [drive].
      destruct (j <? length lines)%nat; [|apply binds_ret].
      apply binds_bind; [by apply IH1|]. intros j'. by apply IH5.
Qed.

End Targets.

(** X13.  A run binds no name but the ones the text names as a loop
    variable, as the target of an assignment or as the target of an
    assignment clause of a C-style header, if the evaluator binds none. *)
Theorem only_program_names_bound (_eval : string → M value) :
  (∀ e, binds_within ∅ (_eval e)) →
  ∀ fuel lines, binds_within (targets lines) (run_lines _eval fuel lines).
Proof. intros H fuel lines. by apply (binds_all _eval H (targets lines) fuel). Qed.

Lemma only_program_names_bound_witness :
  match run_lines Demo.demo_eval 5 ["x = 1"; "for i in x do"] init_state with
  | Done _ st' | Raise _ st' =>
      dom (env st') ⊆ dom (env init_state) ∪ targets ["x = 1"; "for i in x do"]
  | OutOfFuel => True
  end.
Proof.
  apply (only_program_names_bound Demo.demo_eval demo_eval_binds 5
           ["x = 1"; "for i in x do"] init_state).
Defined.

(** ** What the groups capture *)

Lemma or_else_Some (a b : option caps) res :
  or_else a b = Some res → a = Some res ∨ b = Some res.
Proof. destruct a; simpl; auto. Qed.

(** A pattern without group [n], when it matches, goes on with the capture
    of group [n] that it was given. *)
Lemma rmatch_passes icase n r :
  no_grp n r = true →
  ∀ k pos s c res, rmatch icase r pos s c k = Some res →
  ∃ pos' s' c', k pos' s' c' = Some res ∧ c' !! n = c !! n.
Proof.
  induction r as [| | |a|p|g p|g p|r1 IH1 r2 IH2|m r IH|r IH];
    intros Hn k pos s c res; cbn [rmatch].
  - eauto.
  - destruct (Nat.eqb pos 0); [eauto|done].
  - destruct s as [|x [|y s]]; [eauto| |done].
    destruct (Nat.eqb (code x) 10); [eauto|done].
  - destruct s as [|x s]; [done|]. destruct (char_eqb icase a x); [eauto|done].
  - destruct s as [|x s]; [done|]. destruct (p x); [eauto|done].
  - intros (w & s' & _ & _ & H)%star_inv. eauto.
  - destruct s as [|x s]; [done|]. destruct (p x); [|done].
    intros (w & s' & _ & _ & H)%star_inv. eauto.
  - simpl in Hn. apply andb_true_iff in Hn as [H1 H2].
    intros (pos1 & s1 & c1 & H & Hc1)%(IH1 H1).
    apply (IH2 H2) in H as (pos2 & s2 & c2 & H & Hc2).
    exists pos2, s2, c2. split; [done|]. by rewrite Hc2.
  - simpl in Hn. apply andb_true_iff in Hn as [Hm Hr].
    apply negb_true_iff, Nat.eqb_neq in Hm.
    intros (pos1 & s1 & c1 & H & Hc1)%(IH Hr).
    eexists _, _, _. split; [exact H|]. rewrite <- Hc1.
    unfold set_cap. by apply list_lookup_insert_ne.
  - simpl in Hn. intros [H|H]%or_else_Some; [by apply (IH Hn) in H|eauto].
Qed.

Lemma rmatch_passes_final icase n r pos s c res :
  no_grp n r = true →
  rmatch icase r pos s c (fun _ _ c => Some c) = Some res →
  res !! n = c !! n.
Proof.
  intros Hn (pos' & s' & c' & [= <-] & Hc)%(rmatch_passes icase n r Hn). done.
Qed.

Lemma set_cap_lookup n t (c : caps) :
  is_Some (c !! n) →
  set_cap n t c !! n = Some (Some (string_of_list_ascii t)).
Proof.
  intros [v Hv]. unfold set_cap. apply list_lookup_insert_eq.
  by eapply lookup_lt_Some.
Qed.

(** The group around a name captures an identifier. *)
Lemma ident_group icase n (REST : regex) pos s c res :
  rmatch icase (Seq (Grp n ident) REST) pos s c (fun _ _ c => Some c)
  = Some res →
  no_grp n REST = true → is_Some (c !! n) →
  ∃ name, res !! n = Some (Some name) ∧ is_identifier name = true.
Proof.
  intros H Hn Hc. cbn [rmatch ident] in H.
  destruct s as [|z s1]; [done|]. destruct (is_ident_start z) eqn:Hz; [|done].
  apply star_inv in H as (wd & s2 & -> & Hwd & H).
  exists (string_of_list_ascii (z :: wd)). split.
  - rewrite (rmatch_passes_final _ _ _ _ _ _ _ Hn H), set_cap_lookup by done.
    do 3 f_equal.
    replace (S pos + length wd - pos)%nat with (S (length wd)) by lia.
    simpl. f_equal. by rewrite take_app_length.
  - unfold is_identifier. rewrite list_ascii_of_string_of_list_ascii.
    by rewrite Hz, Hwd.
Qed.

(** A group around [.+] or [.+?] captures a text that is not empty. *)
Lemma plus_group icase n g p (REST : regex) pos s c res :
  rmatch icase (Seq (Grp n (Plus g p)) REST) pos s c (fun _ _ c => Some c)
  = Some res →
  no_grp n REST = true → is_Some (c !! n) →
  ∃ t, res !! n = Some (Some t) ∧ nonempty t = true.
Proof.
  intros H Hn Hc. cbn [rmatch] in H.
  destruct s as [|z s1]; [done|]. destruct (p z); [|done].
  apply star_inv in H as (w & s2 & -> & _ & H).
  exists (string_of_list_ascii (z :: w)). split; [|done].
  rewrite (rmatch_passes_final _ _ _ _ _ _ _ Hn H), set_cap_lookup by done.
  do 3 f_equal.
  replace (S pos + length w - pos)%nat with (S (length w)) by lia.
  simpl. f_equal. by rewrite take_app_length.
Qed.

Lemma group_str_lookup (c : caps) n name :
  c !! n = Some (Some name) → group_str c n = name.
Proof. intros H. unfold group_str, group. by rewrite H. Qed.

Lemma RX_ASSIGN_name line name rhs :
  RX_ASSIGN line = Some (name, rhs) → is_identifier name = true.
Proof.
  unfold RX_ASSIGN, pmatch. destruct (rmatch _ _ _ _ _ _) as [res|] eqn:E; [|done].
  intros [= <- _].
  change rx_assign with (Seq Bos (Seq ws_star (Seq (Grp 1 ident) (cat
      [ws_star; Lit "="; ws_star; Grp 2 (Plus true is_dot); ws_star; Eos]))))
    in E.
  apply (rmatch_passes false 1 (Seq Bos ws_star) eq_refl
           (fun pos s c => rmatch false _ pos s c _)) in E as (pos & s & c & E & Hc).
  apply ident_group in E as (name & Hn & Hid); [|done|by rewrite Hc].
  by rewrite (group_str_lookup _ _ _ Hn).
Qed.

Lemma RX_ASSIGN_rhs line name rhs :
  RX_ASSIGN line = Some (name, rhs) → nonempty rhs = true.
Proof.
  unfold RX_ASSIGN, pmatch. destruct (rmatch _ _ _ _ _ _) as [res|] eqn:E; [|done].
  intros [= _ <-].
  change (rmatch false
            (cat [Bos; ws_star; Grp 1 ident; ws_star; Lit "="; ws_star])
            0 (list_ascii_of_string line) (replicate 3 None)
            (fun pos s c =>
               rmatch false
                 (Seq (Grp 2 (Plus true is_dot)) (cat [ws_star; Eos])) pos s c
                 (fun _ _ c => Some c)) = Some res) in E.
  eapply (rmatch_passes false 2) in E; [|reflexivity].
  destruct E as (pos & s & c & E & Hc).
  apply plus_group in E as (t & Ht & Hne); [|done|by rewrite Hc].
  by rewrite (group_str_lookup _ _ _ Ht).
Qed.

(** The step expression of a counter header, when there is one, is not the
    empty text. *)
Lemma RX_FOR_COUNTER_step line var a b s :
  RX_FOR_COUNTER line = Some (var, a, b, Some s) → nonempty s = true.
Proof.
  unfold RX_FOR_COUNTER, pmatch.
  destruct (rmatch _ _ _ _ _ _) as [res|] eqn:E; [|done].
  intros [= _ _ _ Hg].
  change (rmatch true
            (cat [Bos; ws_star; lit "for"; ws_plus; Grp 1 ident; ws_star;
                  Lit "="; ws_star; Grp 2 (Plus false is_dot); ws_plus;
                  lit "to"; ws_plus; Grp 3 (Plus false is_dot)])
            0 (list_ascii_of_string line) (replicate 5 None)
            (fun pos s c =>
               rmatch true
                 (Seq (Opt (cat [ws_plus; lit "by"; ws_plus;
                                 Grp 4 (Plus false is_dot)]))
                    (cat [ws_plus; lit "do"; ws_star; Eos])) pos s c
                 (fun _ _ c => Some c)) = Some res) in E.
  eapply (rmatch_passes true 4) in E; [|reflexivity].
  destruct E as (pos & s0 & c & E & Hc).
  cbn [rmatch] in E. apply or_else_Some in E as [E|E].
  - change (rmatch true (cat [ws_plus; lit "by"; ws_plus]) pos s0 c
              (fun pos s c =>
                 rmatch true
                   (Seq (Grp 4 (Plus false is_dot))
                      (cat [Eps; ws_plus; lit "do"; ws_star; Eos])) pos s c
                   (fun _ _ c => Some c)) = Some res) in E.
    eapply (rmatch_passes true 4) in E; [|reflexivity].
    destruct E as (pos1 & s1 & c1 & E & Hc1).
    apply plus_group in E as (t & Ht & Hne); [|done|by rewrite Hc1, Hc].
    unfold group in Hg. rewrite Ht in Hg. by injection Hg as <-.
  - apply (rmatch_passes_final true 4
             (cat [ws_plus; lit "do"; ws_star; Eos])) in E; [|done].
    unfold group in Hg. rewrite E, Hc in Hg. done.
Qed.

(** X16.  The target of an assignment is an identifier, a character of
    [[A-Za-z_]] followed by characters of the class [\w] (the assignment
    pattern has no [re.I] flag), and its right-hand side is not the empty
    text.  This holds for the assignment statements and for the assignment
    clauses of a C-style header, which [do_assign] matches with the same
    pattern. *)
Theorem assignment_target_is_identifier (line name rhs : string) :
  RX_ASSIGN line = Some (name, rhs) ∨ do_assign line = Some (CAssign name rhs) →
  is_identifier name = true ∧ nonempty rhs = true.
Proof.
  intros [H|H].
  - split; [by eapply RX_ASSIGN_name|by eapply RX_ASSIGN_rhs].
  - unfold do_assign in H. destruct (negb _); [done|].
    destruct (RX_ASSIGN (strip line)) as [[n r]|] eqn:E; [|done].
    injection H as <- <-.
    split; [by eapply RX_ASSIGN_name|by eapply RX_ASSIGN_rhs].
Qed.

Lemma assignment_target_is_identifier_witness :
  is_identifier "x_1" = true ∧ nonempty "y + 1" = true.
Proof.
  apply (assignment_target_is_identifier "  x_1 = y + 1" "x_1" "y + 1").
  left. vm_compute. reflexivity.
Defined.

(** ** The header is evaluated before its terminator is looked for *)

(** The step of a counter header is the value of the text after [by]. *)
Lemma eval_step_by (_eval : string → M value) line var a b s :
  RX_FOR_COUNTER line = Some (var, a, b, Some s) →
  eval_step _eval (Some s) = _eval s.
Proof. intros H%RX_FOR_COUNTER_step. simpl. by rewrite H. Qed.

(** C10.  For a counter header the start, the end and the step expression
    (the text after [by], when there is one) are evaluated, in this order, and
    the step is checked against zero before the terminator is looked for:
    with no matching terminator in the text, an exception of one of the three
    expressions or a zero step is what the statement executor raises, and the
    missing-terminator error is raised only after them, in the state they
    leave.  For an iterator header the collection expression is evaluated
    before the terminator is looked for as well.  For a C-style header the
    terminator is looked for first: the missing-terminator error is raised in
    the unchanged state, the init clause not having run. *)
Theorem header_evaluated_before_matching (_eval : string → M value)
    (lines : list string) (i : nat) (raw : string) (st : state) (fuel : nat) :
  lines !! i = Some raw →
  (∀ j, ¬ matching_end lines (i + 1) j) →
  (∀ var start_s end_s step_s,
     RX_FOR_COUNTER (rstrip raw) = Some (var, start_s, end_s, step_s) →
     (∀ e st1, _eval start_s st = Raise e st1 →
        exec_lines _eval (S fuel) lines i st = Raise e st1)
     ∧ (∀ a st1 e st2,
          _eval start_s st = Done a st1 → _eval end_s st1 = Raise e st2 →
          exec_lines _eval (S fuel) lines i st = Raise e st2)
     ∧ (∀ a st1 b st2,
          _eval start_s st = Done a st1 → _eval end_s st1 = Done b st2 →
          match step_s with
          | Some by_s =>
              (∀ e st3, _eval by_s st2 = Raise e st3 →
                 exec_lines _eval (S fuel) lines i st = Raise e st3)
              ∧ (∀ v st3, _eval by_s st2 = Done v st3 →
                   exec_lines _eval (S fuel) lines i st
                   = if py_eq v (VInt 0)
                     then Raise (ValueError "by step cannot be 0") st3
                     else Raise (SyntaxError "missing 'end'") st3)
          | None =>
              exec_lines _eval (S fuel) lines i st
              = Raise (SyntaxError "missing 'end'") st2
          end))
  ∧ (∀ var expr,
       RX_FOR_ITER (rstrip raw) = Some (var, expr) →
       (∀ e st1, _eval expr st = Raise e st1 →
          exec_lines _eval (S fuel) lines i st = Raise e st1)
       ∧ (∀ it st1, _eval expr st = Done it st1 →
            exec_lines _eval (S fuel) lines i st
            = Raise (SyntaxError "missing 'end'") st1))
  ∧ (∀ init_s cond_s step_s,
       RX_FOR_CSTYLE (rstrip raw) = Some (init_s, cond_s, step_s) →
       exec_lines _eval (S fuel) lines i st
       = Raise (SyntaxError "missing 'end'") st).
Proof.
  intros Hl Hno. split_and!.
  - intros var start_s end_s step_s Hm.
    pose proof (classify_counter _ _ _ _ _ Hm) as Hc.
    pose proof (exec_lines_counter _eval fuel _ _ _ _ _ _ _ Hl Hc) as Hx.
    split_and!.
    + intros e st1 H1. rewrite Hx. unfold mbind, M_bind, bind. by rewrite H1.
    + intros a st1 e st2 H1 H2. rewrite Hx. unfold mbind, M_bind, bind.
      by rewrite H1, H2.
    + intros a st1 b st2 H1 H2. destruct step_s as [by_s|].
      * pose proof (eval_step_by _eval _ _ _ _ _ Hm) as Hby. split.
        -- intros e st3 H3. rewrite Hx. unfold mbind, M_bind, bind.
           by rewrite H1, H2, Hby, H3.
        -- intros v st3 H3. eapply unterminated_counter; [done..|].
           by rewrite Hby.
      * by rewrite (unterminated_counter _eval _ _ _ Hl Hno _ _ _ _ _ _
                      (VInt 1) _ _ _ st2 fuel Hc H1 H2 eq_refl).
  - intros var expr Hc%classify_iter. split.
    + intros e st1 H1. rewrite (exec_lines_iter _ _ _ _ _ _ _ Hl Hc).
      unfold mbind, M_bind, bind. by rewrite H1.
    + intros it st1 H1. by eapply unterminated_iter.
  - intros init_s cond_s step_s Hc%classify_cstyle. by eapply unterminated_cstyle.
Qed.

(** An unterminated counter loop with a zero step, and one whose step
    expression fails: the error of the header is reported, not the missing
    terminator. *)
Lemma header_evaluated_before_matching_witness :
  exec_lines Demo.demo_eval 1 ["for i = 1 to 3 by 0 do"; "print i"] 0 init_state
  = Raise (ValueError "by step cannot be 0") init_state
  ∧ exec_lines Demo.demo_eval 1 ["for i = 1 to 3 by y do"; "print i"] 0
      init_state
    = Raise (OtherError "NameError" "y") init_state.
Proof.
  split.
  - refine (proj2 (proj2 (proj2 (proj1 (header_evaluated_before_matching
              Demo.demo_eval ["for i = 1 to 3 by 0 do"; "print i"] 0
              "for i = 1 to 3 by 0 do" init_state 0 _ _) "i" "1" "3" (Some "0") _))
              (VInt 1) init_state (VInt 3) init_state _ _) (VInt 0) init_state _).
    + reflexivity.
    + apply no_end_in_short_text. vm_compute. reflexivity.
    + vm_compute. reflexivity.
    + vm_compute. reflexivity.
    + vm_compute. reflexivity.
    + vm_compute. reflexivity.
  - refine (proj1 (proj2 (proj2 (proj1 (header_evaluated_before_matching
              Demo.demo_eval ["for i = 1 to 3 by y do"; "print i"] 0
              "for i = 1 to 3 by y do" init_state 0 _ _) "i" "1" "3" (Some "y") _))
              (VInt 1) init_state (VInt 3) init_state _ _)
              (OtherError "NameError" "y") init_state _).
    + reflexivity.
    + apply no_end_in_short_text. vm_compute. reflexivity.
    + vm_compute. reflexivity.
    + vm_compute. reflexivity.
    + vm_compute. reflexivity.
    + vm_compute. reflexivity.
Defined.

(** ** The evaluator and the text *)

(** X14.  A run hands to the evaluator only expression texts of the lines
    of the program: two evaluators that agree on these texts give the same
    run, whatever they do on other texts. *)
Theorem evaluator_only_on_program_texts (ev ev' : string → M value)
    (src : string) :
  agree_on ev ev' (splitlines src) →
  ∀ fuel st, run ev fuel src st = run ev' fuel src st.
Proof. intros H fuel st. by apply run_agree. Qed.

Lemma evaluator_only_on_program_texts_witness :
  run Demo.demo_eval 4 "print 1" init_state
  = run (fun e => if String.eqb e "1" then Demo.demo_eval e else raise TypeError)
      4 "print 1" init_state.
Proof.
  apply (evaluator_only_on_program_texts Demo.demo_eval
           (fun e => if String.eqb e "1" then Demo.demo_eval e else raise TypeError)
           "print 1").
  apply Forall_cons_2; [|apply Forall_nil_2].
  intros e He. vm_compute in He. destruct He as [<-|[]]. reflexivity.
Defined.
